(** * PackBits (packbits-ts): the encoders and decoders, embedded and verified

    The repository holds three generations of [mod.ts]:
    - [BoundaryOnly]: src/src/mod.ts, every repeat of two or more bytes
      becomes a replicate run;
    - [ContextAware]: the first module of src/unnamed/part_000, which absorbs
      a two-byte repeat into a literal run that is already open;
    - [StackBased]: the second module of src/unnamed/part_000, which collects
      run headers on a stack at the end of a scratch buffer and has its own
      decoder.

    A [Uint8Array] is a [list Z] of values in [0, 256); indices are JavaScript
    numbers, here [Z].  Loops are run with fuel; a theorem that a function
    returns [Ret v] therefore also says that the fuel given was enough. *)

From Stdlib Require Import ZArith Lia Bool List.
From stdpp Require Import base tactics option list list_numbers.

Local Open Scope Z_scope.

(** ** Typed arrays *)

Definition MAX_RUN_LENGTH : Z := 128.

(** [a.length] *)
Definition len (a : list Z) : Z := Z.of_nat (length a).

(** [a[i]]: [None] is JavaScript's [undefined], read outside the array. *)
Definition get (a : list Z) (i : Z) : option Z :=
  if 0 <=? i then a !! Z.to_nat i else None.

(** Conversion of a stored value to an octet; [undefined] is stored as 0. *)
Definition ToUint8 (v : option Z) : Z :=
  match v with
  | Some n => n mod 256
  | None => 0
  end.

(** [a[i] = v]: a write outside the array is dropped. *)
Definition set (a : list Z) (i : Z) (v : option Z) : list Z :=
  if 0 <=? i then <[Z.to_nat i := ToUint8 v]> a else a.

(** [new Uint8Array(n)] *)
Definition alloc (n : Z) : list Z := replicate (Z.to_nat n) 0.

(** Relative index of [slice] and [subarray]: negative counts from the end,
    and the result is clamped to the array. *)
Definition rel_index (n i : Z) : Z :=
  if i <? 0 then Z.max (n + i) 0 else Z.min i n.

(** [a.slice(s, e)] and, for a result that is only read, [a.subarray(s, e)]. *)
Definition slice (a : list Z) (s e : Z) : list Z :=
  let k := rel_index (len a) s in
  let f := rel_index (len a) e in
  take (Z.to_nat (f - k)) (drop (Z.to_nat k) a).

(** The elements of a [Uint8Array] are octets. *)
Definition octets (a : list Z) : Prop := Forall (fun b => 0 <= b < 256) a.

(** ** Errors and the loop monad *)

(** The messages of [PackBitsError] in the three modules. *)
Inductive message : Type :=
  | UnexpectedEnd            (* `Unexpected end of compressed data` *)
  | LiteralRunExceeds        (* `Malformed compressed data: literal run exceeds data length` *)
  | ExpectedOneMoreByte      (* `Unexpected end of PackBits data: expected 1 more byte` *)
  | ExpectedMoreBytes (k : Z) (* `Unexpected end of PackBits data: expected ${k} more byte(s)` *)
  | BufferTooSmall (expected got : Z).
                             (* `Provided buffer is too small: expected minimum of ..., got ... bytes` *)

(** What can be thrown: a [PackBitsError], or the [RangeError] of
    [TypedArray.prototype.set] when the source does not fit. *)
Inductive exn : Type :=
  | PackBitsError (m : message)
  | RangeError.

(** Outcome of running code: a value, an exception, or the fuel of
    a loop ran out before the loop ended. *)
Inductive M (A : Type) : Type :=
  | Ret (a : A)
  | Throw (e : exn)
  | Timeout.
Arguments Ret {A} a.
Arguments Throw {A} e.
Arguments Timeout {A}.

Definition bind {A B : Type} (m : M A) (k : A -> M B) : M B :=
  match m with
  | Ret a => k a
  | Throw e => Throw e
  | Timeout => Timeout
  end.

#[global] Instance M_bind : MBind M := fun A B k m => bind m k.
#[global] Instance M_ret : MRet M := fun A a => Ret a.

(** What a loop body asks for: the next iteration, or [break]. *)
Inductive ctl (S : Type) : Type :=
  | Next (s : S)
  | Break (s : S).
Arguments Next {S} s.
Arguments Break {S} s.

(** [while (cond) body] *)
Fixpoint while {S : Type} (fuel : nat) (cond : S -> bool) (body : S -> M (ctl S)) (s : S) : M S :=
  match fuel with
  | O => Timeout
  | Datatypes.S fuel' =>
      if cond s then
        c ← body s;
        match c with
        | Next s' => while fuel' cond body s'
        | Break s' => Ret s'
        end
      else Ret s
  end.

(** [for (let j = lo; j < hi; j += 1) body], for a body that assigns neither
    [j] nor the bound. *)
Fixpoint for_from {S : Type} (n : nat) (j : Z) (body : Z -> S -> S) (s : S) : S :=
  match n with
  | O => s
  | Datatypes.S n' => for_from n' (j + 1) body (body j s)
  end.

Definition for_range {S : Type} (lo hi : Z) (body : Z -> S -> S) (s : S) : S :=
  for_from (Z.to_nat (hi - lo)) lo body s.

(** Loops over an array of [n] elements are given [n + 1] rounds. *)
Definition fuel_for (a : list Z) : nat := Datatypes.S (length a).

(** ** src/src/mod.ts *)

Module BoundaryOnly.

(** Look for repeated bytes: the loop of lines 55-61. *)
Definition lookForRepeated (data : list Z) (runStart readIndex : Z) : M Z :=
  while (fuel_for data)
    (fun readIndex =>
       (readIndex <? len data - 1)
       && bool_decide (get data readIndex = get data (readIndex + 1))
       && (readIndex - runStart <? MAX_RUN_LENGTH - 1))
    (fun readIndex => Ret (Next (readIndex + 1)))
    readIndex.

(** Collect literal bytes: the loop of lines 72-79. *)
Definition collectLiteral (data : list Z) (readIndex literalCount : Z) : M (Z * Z) :=
  while (fuel_for data)
    (fun '(readIndex, literalCount) =>
       (readIndex <? len data)
       && (literalCount <? MAX_RUN_LENGTH)
       && ((readIndex =? len data - 1)
           || negb (bool_decide (get data readIndex = get data (readIndex + 1)))))
    (fun '(readIndex, literalCount) => Ret (Next (readIndex + 1, literalCount + 1)))
    (readIndex, literalCount).

(** Write literal run: lines 82-85. *)
Definition writeLiteral (data result : list Z) (writeIndex literalStart literalCount : Z)
  : list Z * Z :=
  let result := set result writeIndex (Some (literalCount - 1)) in
  let writeIndex := writeIndex + 1 in
  for_range 0 literalCount
    (fun j '(result, writeIndex) =>
       (set result writeIndex (get data (literalStart + j)), writeIndex + 1))
    (result, writeIndex).

(** One round of the loop of lines 51-87. *)
Definition compress_body (data : list Z) (s : list Z * Z * Z) : M (ctl (list Z * Z * Z)) :=
  let '(result, writeIndex, readIndex) := s in
  let runStart := readIndex in
  readIndex ← lookForRepeated data runStart readIndex;
  let runLength := readIndex - runStart + 1 in
  if 1 <? runLength then
    (* Write repeated run *)
    let result := set result writeIndex (Some (257 - runLength)) in
    let writeIndex := writeIndex + 1 in
    let result := set result writeIndex (get data runStart) in
    let writeIndex := writeIndex + 1 in
    let readIndex := readIndex + 1 in
    Ret (Next (result, writeIndex, readIndex))
  else
    let literalStart := readIndex in
    let literalCount := 0 in
    '(readIndex, literalCount) ← collectLiteral data readIndex literalCount;
    let '(result, writeIndex) :=
      writeLiteral data result writeIndex literalStart literalCount in
    Ret (Next (result, writeIndex, readIndex)).

Definition compress_loop (data : list Z) (s : list Z * Z * Z) : M (list Z * Z * Z) :=
  while (fuel_for data)
    (fun '(result, writeIndex, readIndex) => readIndex <? len data)
    (compress_body data) s.

(** [compress], lines 44-90. *)
Definition compress (data : list Z) : M (list Z) :=
  let result := alloc (2 * len data) in
  let writeIndex := 0 in
  let readIndex := 0 in
  '(result, writeIndex, readIndex) ← compress_loop data (result, writeIndex, readIndex);
  Ret (slice result 0 writeIndex).

(** One round of the loop of [calculateDecompressedSize], lines 142-164. *)
Definition size_body (data : list Z) (s : Z * Z) : M (ctl (Z * Z)) :=
  let '(size, index) := s in
  let count := get data index in
  let index := index + 1 in
  if len data <=? index then Throw (PackBitsError UnexpectedEnd)
  else
    match count with
    | Some count =>
        if count <? MAX_RUN_LENGTH then
          (* Literal run *)
          let runLength := count + 1 in
          if len data <? index + runLength then Throw (PackBitsError LiteralRunExceeds)
          else Ret (Next (size + runLength, index + runLength))
        else if MAX_RUN_LENGTH <? count then
          (* Repeated run *)
          Ret (Next (size + (257 - count), index + 1))
        else
          (* n === 128; no-op *)
          Ret (Next (size, index))
    | None => Ret (Next (size, index))
    end.

(** [calculateDecompressedSize], lines 138-167. *)
Definition calculateDecompressedSize (data : list Z) : M Z :=
  let size := 0 in
  let index := 0 in
  '(size, index) ←
    while (fuel_for data) (fun '(size, index) => index <? len data) (size_body data)
      (size, index);
  Ret size.

(** One round of the loop of [decompress], lines 112-133. *)
Definition expand_body (data : list Z) (s : list Z * Z * Z) : M (ctl (list Z * Z * Z)) :=
  let '(result, writeIndex, readIndex) := s in
  let count := get data readIndex in
  let readIndex := readIndex + 1 in
  match count with
  | Some count =>
      if count <? MAX_RUN_LENGTH then
        (* Literal run *)
        let runLength := count + 1 in
        let '(result, writeIndex) :=
          for_range 0 runLength
            (fun j '(result, writeIndex) =>
               (set result writeIndex (get data (readIndex + j)), writeIndex + 1))
            (result, writeIndex) in
        Ret (Next (result, writeIndex, readIndex + runLength))
      else if MAX_RUN_LENGTH <? count then
        (* Repeated run *)
        let runLength := 257 - count in
        let result :=
          for_range 0 runLength
            (fun j result => set result (writeIndex + j) (get data readIndex))
            result in
        Ret (Next (result, writeIndex + runLength, readIndex + 1))
      else
        (* n === 128; no-op *)
        Ret (Next (result, writeIndex, readIndex))
  | None => Ret (Next (result, writeIndex, readIndex))
  end.

(** [decompress], lines 104-136. *)
Definition decompress (data : list Z) : M (list Z) :=
  resultSize ← calculateDecompressedSize data;
  let result := alloc resultSize in
  let writeIndex := 0 in
  let readIndex := 0 in
  '(result, writeIndex, readIndex) ←
    while (fuel_for data)
      (fun '(result, writeIndex, readIndex) => readIndex <? len data)
      (expand_body data) (result, writeIndex, readIndex);
  Ret result.

End BoundaryOnly.

(** ** src/unnamed/part_000, first module *)

Module ContextAware.

(** Count consecutive repeated bytes starting at [readIndex]: the loop of
    lines 44-51, written a second time at lines 87-94. *)
Definition countRepeated (data : list Z) (readIndex : Z) : M Z :=
  let repeatCount := 1 in
  while (fuel_for data)
    (fun repeatCount =>
       (readIndex + repeatCount <? len data)
       && bool_decide (get data (readIndex + repeatCount) = get data readIndex)
       && (repeatCount <? MAX_RUN_LENGTH))
    (fun repeatCount => Ret (Next (repeatCount + 1)))
    repeatCount.

(** One round of the loop of lines 42-74. *)
Definition absorb_body (data : list Z) (s : Z * Z) : M (ctl (Z * Z)) :=
  let '(readIndex, literalCount) := s in
  repeatCount ← countRepeated data readIndex;
  let isAtLiteralStart := literalCount =? 0 in
  let shouldStartRepeatRun :=
    (3 <=? repeatCount) || ((repeatCount =? 2) && isAtLiteralStart) in
  if shouldStartRepeatRun then Ret (Break (readIndex, literalCount))
  else
    (* Absorb into literal run *)
    let bytesToAbsorb := Z.min repeatCount (MAX_RUN_LENGTH - literalCount) in
    Ret (Next (readIndex + bytesToAbsorb, literalCount + bytesToAbsorb)).

(** Collect literal bytes, absorbing short repeat runs when beneficial: the
    loop of lines 42-74. *)
Definition absorb (data : list Z) (readIndex literalCount : Z) : M (Z * Z) :=
  while (fuel_for data)
    (fun '(readIndex, literalCount) =>
       (readIndex <? len data) && (literalCount <? MAX_RUN_LENGTH))
    (absorb_body data) (readIndex, literalCount).

(** Write accumulated literal run if any: lines 77-82. *)
Definition writeLiteral (data result : list Z) (writeIndex literalStart literalCount : Z)
  : list Z * Z :=
  if 0 <? literalCount then
    let result := set result writeIndex (Some (literalCount - 1)) in
    let writeIndex := writeIndex + 1 in
    for_range 0 literalCount
      (fun j '(result, writeIndex) =>
         (set result writeIndex (get data (literalStart + j)), writeIndex + 1))
      (result, writeIndex)
  else (result, writeIndex).

(** One round of the loop of lines 37-100. *)
Definition compress_body (data : list Z) (s : list Z * Z * Z) : M (ctl (list Z * Z * Z)) :=
  let '(result, writeIndex, readIndex) := s in
  let literalStart := readIndex in
  let literalCount := 0 in
  '(readIndex, literalCount) ← absorb data readIndex literalCount;
  let '(result, writeIndex) :=
    writeLiteral data result writeIndex literalStart literalCount in
  (* Handle repeat run only if we broke out due to shouldStartRepeatRun *)
  if (readIndex <? len data) && (literalCount <? MAX_RUN_LENGTH) then
    repeatCount ← countRepeated data readIndex;
    let result := set result writeIndex (Some (257 - repeatCount)) in
    let writeIndex := writeIndex + 1 in
    let result := set result writeIndex (get data readIndex) in
    let writeIndex := writeIndex + 1 in
    Ret (Next (result, writeIndex, readIndex + repeatCount))
  else Ret (Next (result, writeIndex, readIndex)).

Definition compress_loop (data : list Z) (s : list Z * Z * Z) : M (list Z * Z * Z) :=
  while (fuel_for data)
    (fun '(result, writeIndex, readIndex) => readIndex <? len data)
    (compress_body data) s.

(** [compress], lines 32-103. *)
Definition compress (data : list Z) : M (list Z) :=
  let result := alloc (2 * len data) in
  let writeIndex := 0 in
  let readIndex := 0 in
  '(result, writeIndex, readIndex) ← compress_loop data (result, writeIndex, readIndex);
  Ret (slice result 0 writeIndex).

(** [calculateDecompressedSize] (lines 149-178) and [decompress] (lines
    117-147) are, statement for statement, those of src/src/mod.ts. *)
Definition calculateDecompressedSize : list Z -> M Z :=
  BoundaryOnly.calculateDecompressedSize.
Definition decompress : list Z -> M (list Z) := BoundaryOnly.decompress.

End ContextAware.

(** ** src/unnamed/part_000, second module *)

Module StackBased.

Definition COPY_THRESHOLD : Z := 32.

(** [Math.ceil(1.5*n)]: for an array length [n] the product is exact. *)
Definition ceil_1_5 (n : Z) : Z := (3 * n + 1) / 2.

(** [target.set(source, offset)]: throws a [RangeError] when the source does
    not fit. *)
Definition set_from (target source : list Z) (offset : Z) : M (list Z) :=
  if len target <? offset + len source then Throw RangeError
  else
    Ret (for_range 0 (len source)
           (fun k target => set target (offset + k) (get source k)) target).

(** [a.fill(value, s, e)] *)
Definition fill (a : list Z) (value : option Z) (s e : Z) : list Z :=
  for_range (rel_index (len a) s) (rel_index (len a) e)
    (fun k a => set a k value) a.

(** The variables of the run-collecting loop of [compress]. *)
Record state : Type := mkState {
  buffer : list Z;
  anchor : option Z;
  crnt : option Z;
  iRead : Z;
  iStack : Z;
  countLastLiteral : Z
}.

(** [buffer[iStack--] = n; countLastLiteral = c] *)
Definition push (s : state) (n c : Z) : state :=
  mkState (set (buffer s) (iStack s) (Some n)) (anchor s) (crnt s) (iRead s)
    (iStack s - 1) c.

(** [countLastLiteral += k; buffer[iStack + 1] = countLastLiteral - 1] *)
Definition merge (s : state) (k : Z) : state :=
  let c := countLastLiteral s + k in
  mkState (set (buffer s) (iStack s + 1) (Some (c - 1))) (anchor s) (crnt s)
    (iRead s) (iStack s) c.

(** [crnt = data[iRead++]] *)
Definition read_crnt (data : list Z) (s : state) : state :=
  mkState (buffer s) (anchor s) (get data (iRead s)) (iRead s + 1) (iStack s)
    (countLastLiteral s).

(** [anchor = data[iRead++]] *)
Definition read_anchor (data : list Z) (s : state) : state :=
  mkState (buffer s) (get data (iRead s)) (crnt s) (iRead s + 1) (iStack s)
    (countLastLiteral s).

(** [anchor = v] *)
Definition with_anchor (s : state) (v : option Z) : state :=
  mkState (buffer s) v (crnt s) (iRead s) (iStack s) (countLastLiteral s).

(** How control leaves the labelled block [gotoBreakAfterAnchor] or one of
    the two [do ... while] loops in it. *)
Inductive leave : Type :=
  | BreakLoop (s : state)         (* [break loop] *)
  | ContinueLoop (s : state)      (* [continue loop] *)
  | AfterAnchor (s : state)       (* [break gotoBreakAfterAnchor] *)
  | Through (s : state) (n : Z).  (* the [do ... while] ended *)

(** Lines 264-270 and 276-282: try merge R2 into previous L. *)
Definition close_replicate (s : state) (n : Z) : state :=
  if (n =? 255) && (0 <? countLastLiteral s) && (countLastLiteral s + 2 <=? 128)
  then merge s 2
  else push s n 0.

(** The [do ... while (n > 129)] of a replicate run, lines 261-288. *)
Fixpoint replicate_run (fuel : nat) (data : list Z) (s : state) (n : Z) : M leave :=
  match fuel with
  | O => Timeout
  | S fuel' =>
      if len data <=? iRead s then Ret (BreakLoop (close_replicate s n))
      else
        let s := read_crnt data s in
        if negb (bool_decide (crnt s = anchor s)) then
          let s := close_replicate s n in
          Ret (AfterAnchor (with_anchor s (crnt s)))
        else
          let n := n - 1 in
          if 129 <? n then replicate_run fuel' data s n else Ret (Through s n)
  end.

(** Lines 300-306 and 327-333: try merge L into previous L. *)
Definition close_literal (s : state) (n : Z) : state :=
  if (0 <? countLastLiteral s) && (countLastLiteral s + n + 1 <=? 128)
  then merge s (n + 1)
  else push s n (n + 1).

(** The [do ... while (n < 127)] of a literal run, lines 297-325. *)
Fixpoint literal_run (fuel : nat) (data : list Z) (s : state) (n : Z) (prev : option Z) : M leave :=
  match fuel with
  | O => Timeout
  | S fuel' =>
      if len data <=? iRead s then Ret (BreakLoop (close_literal s n))
      else
        let s := read_crnt data s in
        if bool_decide (crnt s = prev) then
          let s :=
            if (0 <? countLastLiteral s) && (countLastLiteral s + n <=? 128)
            then merge s n
            else push s (n - 1) n in
          Ret (ContinueLoop (with_anchor s prev))
        else
          let prev := crnt s in
          let n := n + 1 in
          if n <? 127 then literal_run fuel' data s n prev else Ret (Through s n)
  end.

(** The labelled block, lines 257-339. *)
Definition block (data : list Z) (s : state) : M leave :=
  l ←
    (if bool_decide (anchor s = crnt s) then
       (* replicate run *)
       l ← replicate_run (fuel_for data) data s 255;
       match l with
       | Through s n => Ret (Through (push s n 0) n)
       | _ => Ret l
       end
     else
       (* literal run *)
       l ← literal_run (fuel_for data) data s 1 (crnt s);
       match l with
       | Through s n => Ret (Through (close_literal s n) n)
       | _ => Ret l
       end);
  match l with
  | Through s n =>
      if len data <=? iRead s then Ret (BreakLoop s)
      else Ret (AfterAnchor (read_anchor data s))
  | _ => Ret l
  end.

(** [loop: while (true)], lines 255-351. *)
Fixpoint collect_runs (fuel : nat) (data : list Z) (s : state) : M state :=
  match fuel with
  | O => Timeout
  | S fuel' =>
      l ← block data s;
      match l with
      | BreakLoop s => Ret s
      | ContinueLoop s => collect_runs fuel' data s
      | AfterAnchor s | Through s _ =>
          if len data <=? iRead s then
            (* Try merge last byte into previous L *)
            if (0 <? countLastLiteral s) && (countLastLiteral s + 1 <=? 128)
            then Ret (merge s 1)
            else Ret (push s 0 (countLastLiteral s))
          else collect_runs fuel' data (read_crnt data s)
      end
  end.

(** One round of the run-writing loop, lines 358-379. *)
Definition write_body (data : list Z) (s : list Z * Z * Z * Z) : M (ctl (list Z * Z * Z * Z)) :=
  let '(buffer, iRead, iStackRead, iWrite) := s in
  let n := get buffer iStackRead in
  let iStackRead := iStackRead - 1 in
  match n with
  | Some n =>
      if 128 <? n then
        (* replicate run *)
        let byte := get data iRead in
        let buffer := set buffer iWrite (Some n) in
        let iWrite := iWrite + 1 in
        let buffer := set buffer iWrite byte in
        let iWrite := iWrite + 1 in
        Ret (Next (buffer, iRead + (257 - n), iStackRead, iWrite))
      else if n <? 128 then
        (* literal run *)
        let runLength := n + 1 in
        let buffer := set buffer iWrite (Some n) in
        let iWrite := iWrite + 1 in
        if COPY_THRESHOLD <=? runLength then
          buffer ← set_from buffer (slice data iRead (iRead + runLength)) iWrite;
          Ret (Next (buffer, iRead + runLength, iStackRead, iWrite + runLength))
        else
          let '(buffer, iRead, iWrite) :=
            for_range 0 runLength
              (fun i '(buffer, iRead, iWrite) =>
                 (set buffer iWrite (get data iRead), iRead + 1, iWrite + 1))
              (buffer, iRead, iWrite) in
          Ret (Next (buffer, iRead, iStackRead, iWrite))
      else
        (* n === 128: no-op *)
        Ret (Next (buffer, iRead, iStackRead, iWrite))
  | None => Ret (Next (buffer, iRead, iStackRead, iWrite))
  end.

(** The run-writing loop, lines 354-379. *)
Definition write_runs (data buffer : list Z) (iStack : Z) : M (list Z * Z) :=
  let iRead := 0 in
  let iStackRead := len buffer - 1 in
  let iWrite := 0 in
  '(buffer, iRead, iStackRead, iWrite) ←
    while (fuel_for data)
      (fun '(buffer, iRead, iStackRead, iWrite) => iStack <? iStackRead)
      (write_body data) (buffer, iRead, iStackRead, iWrite);
  Ret (buffer, iWrite).

(** [compress], lines 231-382.  [buffer] is [None] when the caller passes no
    scratch buffer; a buffer that is passed is an array of its own, not the
    input. *)
Definition compress (data : list Z) (buffer : option (list Z)) : M (list Z) :=
  buffer ←
    match buffer with
    | None =>
        (* Worst case: R2-R2-...-R2 *)
        Ret (alloc (ceil_1_5 (len data)))
    | Some buffer =>
        if len buffer <? ceil_1_5 (len data)
        then Throw (PackBitsError (BufferTooSmall (ceil_1_5 (len data)) (len buffer)))
        else Ret buffer
    end;
  if len data =? 0 then Ret (slice buffer 0 0)
  else if len data =? 1 then
    let buffer := set buffer 0 (Some 0x00) in
    let buffer := set buffer 1 (get data 0) in
    Ret (slice buffer 0 2)
  else
    let s := mkState buffer (get data 0) (get data 1) 2 (len buffer - 1) 0 in
    (* Collect runs *)
    s ← collect_runs (fuel_for data) data s;
    (* Write runs *)
    '(buffer, iWrite) ← write_runs data (StackBased.buffer s) (iStack s);
    Ret (slice buffer 0 iWrite).

(** One round of the loop of [calculateSizeDecompressed], lines 437-456. *)
Definition size_body (data : list Z) (s : Z * Z) : M (ctl (Z * Z)) :=
  let '(i, size) := s in
  let n := get data i in
  let i := i + 1 in
  match n with
  | Some n =>
      if 128 <? n then
        (* replicate run *)
        if len data <=? i then Throw (PackBitsError ExpectedOneMoreByte)
        else Ret (Next (i + 1, size + (257 - n)))
      else if n <? 128 then
        (* literal run *)
        let runLength := n + 1 in
        if len data <? i + runLength
        then Throw (PackBitsError (ExpectedMoreBytes (i + runLength - len data)))
        else Ret (Next (i + runLength, size + runLength))
      else Ret (Next (i, size))
  | None => Ret (Next (i, size))
  end.

(** [calculateSizeDecompressed], lines 433-459. *)
Definition calculateSizeDecompressed (data : list Z) : M Z :=
  let i := 0 in
  let size := 0 in
  '(i, size) ←
    while (fuel_for data) (fun '(i, size) => i <? len data) (size_body data) (i, size);
  Ret size.

(** One round of the loop of [decompress], lines 400-428. *)
Definition expand_body (data : list Z) (s : list Z * Z * Z) : M (ctl (list Z * Z * Z)) :=
  let '(result, iRead, iWrite) := s in
  let n := get data iRead in
  let iRead := iRead + 1 in
  match n with
  | Some n =>
      if 128 <? n then
        (* replicate run *)
        let runLength := 257 - n in
        let byte := get data iRead in
        let iRead := iRead + 1 in
        if COPY_THRESHOLD <=? runLength then
          let result := fill result byte iWrite (iWrite + runLength) in
          Ret (Next (result, iRead, iWrite + runLength))
        else
          let '(result, iWrite) :=
            for_range 0 runLength
              (fun i '(result, iWrite) => (set result iWrite byte, iWrite + 1))
              (result, iWrite) in
          Ret (Next (result, iRead, iWrite))
      else if n <? 128 then
        (* literal run *)
        let runLength := n + 1 in
        if COPY_THRESHOLD <=? runLength then
          result ← set_from result (slice data iRead (iRead + runLength)) iWrite;
          Ret (Next (result, iRead + runLength, iWrite + runLength))
        else
          let '(result, iRead, iWrite) :=
            for_range 0 runLength
              (fun i '(result, iRead, iWrite) =>
                 (set result iWrite (get data iRead), iRead + 1, iWrite + 1))
              (result, iRead, iWrite) in
          Ret (Next (result, iRead, iWrite))
      else Ret (Next (result, iRead, iWrite))
  | None => Ret (Next (result, iRead, iWrite))
  end.

(** [decompress], lines 394-431. *)
Definition decompress (data : list Z) : M (list Z) :=
  size ← calculateSizeDecompressed data;
  let result := alloc size in
  let iRead := 0 in
  let iWrite := 0 in
  '(result, iRead, iWrite) ←
    while (fuel_for data) (fun '(result, iRead, iWrite) => iRead <? len data)
      (expand_body data) (result, iRead, iWrite);
  Ret result.

End StackBased.

(** ** The wire format *)

(** A run of the packed stream. *)
Inductive run : Type :=
  | Literal (bytes : list Z)
  | Replicate (n : Z) (byte : Z).

Definition header (r : run) : Z :=
  match r with
  | Literal bytes => len bytes - 1
  | Replicate n _ => 257 - n
  end.

Definition payload (r : run) : list Z :=
  match r with
  | Literal bytes => bytes
  | Replicate _ byte => [byte]
  end.

Definition serialize (rs : list run) : list Z :=
  concat (map (fun r => header r :: payload r) rs).

Definition expand_run (r : run) : list Z :=
  match r with
  | Literal bytes => bytes
  | Replicate n byte => replicate (Z.to_nat n) byte
  end.

Definition expand (rs : list run) : list Z := concat (map expand_run rs).

(** Literal runs hold 1 to 128 octets, replicate runs repeat an octet 2 to
    128 times. *)
Definition wf_run (r : run) : Prop :=
  match r with
  | Literal bytes => 1 <= len bytes <= 128 /\ octets bytes
  | Replicate n byte => 2 <= n <= 128 /\ 0 <= byte < 256
  end.

(** The header of a run as the format table reads it. *)
Definition header_ok (r : run) : Prop :=
  header r <> 128 /\
  match r with
  | Literal bytes => 0 <= header r <= 127 /\ len bytes = header r + 1
  | Replicate n _ => 129 <= header r <= 255 /\ n = 257 - header r
  end.

(** Number of payload bytes a header announces. *)
Definition announced (h : Z) : Z :=
  if h <? 128 then h + 1 else if 128 <? h then 1 else 0.

(** The header bytes of a packed stream, found by walking it run by run. *)
Fixpoint headers_from (fuel : nat) (packed : list Z) : list Z :=
  match fuel, packed with
  | S fuel', h :: rest => h :: headers_from fuel' (drop (Z.to_nat (announced h)) rest)
  | _, _ => []
  end.

Definition headers (packed : list Z) : list Z := headers_from (length packed) packed.

(** [decodes packed raw]: the packed stream is complete and stands for [raw]. *)
Inductive decodes : list Z -> list Z -> Prop :=
  | decodes_nil : decodes [] []
  | decodes_literal h bytes rest raw :
      0 <= h < 128 -> len bytes = h + 1 -> decodes rest raw ->
      decodes (h :: bytes ++ rest) (bytes ++ raw)
  | decodes_replicate h byte rest raw :
      128 < h < 256 -> decodes rest raw ->
      decodes (h :: byte :: rest) (replicate (Z.to_nat (257 - h)) byte ++ raw)
  | decodes_noop rest raw :
      decodes rest raw -> decodes (128 :: rest) raw.

(** [truncated packed]: some header of the stream announces a run whose payload
    is not fully present: a literal header with fewer than header + 1 bytes
    after it, or a replicate header with no byte after it. *)
Inductive truncated : list Z -> Prop :=
  | truncated_literal h rest :
      0 <= h < 128 -> len rest < h + 1 -> truncated (h :: rest)
  | truncated_replicate h :
      128 < h < 256 -> truncated [h]
  | truncated_after_literal h bytes rest :
      0 <= h < 128 -> len bytes = h + 1 -> truncated rest ->
      truncated (h :: bytes ++ rest)
  | truncated_after_replicate h byte rest :
      128 < h < 256 -> truncated rest -> truncated (h :: byte :: rest)
  | truncated_after_noop rest :
      truncated rest -> truncated (128 :: rest).

(** [final_noop packed]: a complete stream followed by one more byte, the
    no-op header 128. *)
Definition final_noop (packed : list Z) : Prop :=
  exists complete raw, packed = complete ++ [128] /\ decodes complete raw.

(** ** Runs of equal bytes in the input *)

(** Prefix, suffix and segment of an array at JavaScript indices. *)
Definition pre (a : list Z) (i : Z) : list Z := take (Z.to_nat i) a.
Definition sfx (a : list Z) (i : Z) : list Z := drop (Z.to_nat i) a.
Definition sub (a : list Z) (i k : Z) : list Z := take (Z.to_nat k) (sfx a i).

(** [is_run data r k]: the longest repeat that starts at [r], capped at
    [MAX_RUN_LENGTH], has [k] bytes. *)
Definition is_run (data : list Z) (r k : Z) : Prop :=
  1 <= k <= MAX_RUN_LENGTH /\ r + k <= len data /\
  (forall i, r <= i < r + k -> get data i = get data r) /\
  (k = MAX_RUN_LENGTH \/ r + k = len data \/ get data (r + k) <> get data r).

(** [single data i]: the byte at [i] is the last one or differs from the next. *)
Definition single (data : list Z) (i : Z) : Prop :=
  i = len data - 1 \/ get data i <> get data (i + 1).

(** [is_literal data r c]: the longest stretch of single bytes that starts at
    [r], capped at [MAX_RUN_LENGTH], has [c] bytes. *)
Definition is_literal (data : list Z) (r c : Z) : Prop :=
  1 <= c <= MAX_RUN_LENGTH /\ r + c <= len data /\
  (forall i, r <= i < r + c -> single data i) /\
  (c = MAX_RUN_LENGTH \/ r + c = len data \/ ~ single data (r + c)).

(** The maximal repeats of a sequence, as (byte, count). *)
Fixpoint groups (l : list Z) : list (Z * Z) :=
  match l with
  | [] => []
  | x :: l' =>
      match groups l' with
      | (y, k) :: gs =>
          if bool_decide (x = y) then (x, k + 1) :: gs else (x, 1) :: (y, k) :: gs
      | [] => [(x, 1)]
      end
  end.

(** Close the open literal run, if any. *)
Definition flush (open : list Z) : list run :=
  match open with
  | [] => []
  | _ => [Literal open]
  end.

(** The boundary-only variant on an input short enough that no run reaches
    the cap: every repeat of two or more bytes is a replicate run of its own,
    the single bytes between repeats form literal runs. *)
Fixpoint boundary_runs (open : list Z) (gs : list (Z * Z)) : list run :=
  match gs with
  | [] => flush open
  | (v, k) :: gs' =>
      if k =? 1 then boundary_runs (open ++ [v]) gs'
      else flush open ++ Replicate k v :: boundary_runs [] gs'
  end.

(** The context-aware rule on such an input: a repeat of three or more bytes
    is a replicate run; a repeat of two is one when no literal run is open and
    joins the open literal run otherwise; a single byte joins or opens the
    literal run. *)
Fixpoint context_runs (open : list Z) (gs : list (Z * Z)) : list run :=
  match gs with
  | [] => flush open
  | (v, k) :: gs' =>
      if k =? 1 then context_runs (open ++ [v]) gs'
      else if (k =? 2) && negb (bool_decide (open = [])) then
        context_runs (open ++ [v; v]) gs'
      else flush open ++ Replicate k v :: context_runs [] gs'
  end.

(** ** The state of the encoders' main loop *)

(** The runs written so far stand for the input read so far, the rest of the
    buffer has room for the rest of the input and, on an input of at most 128
    bytes, the runs are those of the segmentation [runs_of]. *)
Definition encoder_inv (data : list Z) (runs_of : list (Z * Z) -> list run)
    (s : list Z * Z * Z) : Prop :=
  let '(result, writeIndex, readIndex) := s in
  0 <= readIndex <= len data /\
  exists rs junk,
    Forall wf_run rs /\ result = serialize rs ++ junk /\
    writeIndex = len (serialize rs) /\ expand rs = pre data readIndex /\
    2 * (len data - readIndex) <= len junk /\
    (len data <= 128 ->
     rs ++ runs_of (groups (sfx data readIndex)) = runs_of (groups data)).

(** Bytes written for the repeats [gs] by the boundary-only variant, when a
    literal run is [open] (its header is already paid) or not. *)
Fixpoint boundary_cost (open : bool) (gs : list (Z * Z)) : Z :=
  match gs with
  | [] => 0
  | (_, k) :: gs' =>
      if k =? 1 then (if open then 1 else 2) + boundary_cost true gs'
      else 2 + boundary_cost false gs'
  end.

(** The same for the context-aware rule. *)
Fixpoint context_cost (open : bool) (gs : list (Z * Z)) : Z :=
  match gs with
  | [] => 0
  | (_, k) :: gs' =>
      if k =? 1 then (if open then 1 else 2) + context_cost true gs'
      else if (k =? 2) && open then 2 + context_cost true gs'
      else 2 + context_cost false gs'
  end.

(** The headers the encoder may emit. *)
Definition emitted_header (h : Z) : Prop :=
  h <> 128 /\ (0 <= h <= 127 \/ 129 <= h <= 255).

(** ** The stack of run headers of the stack-based encoder *)

(** [follows_ok a b]: run [b] may be pushed on top of run [a]: after a literal
    run come a replicate run of three or more bytes, a replicate run of two
    bytes that no longer fits the literal run, or a literal run that does not
    fit it either. *)
Definition follows_ok (a b : run) : Prop :=
  match a, b with
  | Literal bytes, Replicate n _ => 3 <= n \/ 127 <= len bytes
  | Literal bytes, Literal bytes' => 129 <= len bytes + len bytes'
  | Replicate _ _, _ => True
  end.

(** The runs of a stack, top first, are pairwise [follows_ok]. *)
Fixpoint pairs_ok (stack : list run) : Prop :=
  match stack with
  | b :: ((a :: _) as below) => follows_ok a b /\ pairs_ok below
  | _ => True
  end.

(** Length of the literal run on top of the stack, 0 when there is none. *)
Definition top_literal (stack : list run) : Z :=
  match stack with
  | Literal bytes :: _ => len bytes
  | _ => 0
  end.

Definition depth (stack : list run) : Z := Z.of_nat (length stack).

(** [stack_shape data B stack s cov]: the end of the buffer of [B] bytes holds
    the headers of [stack], top first from [iStack + 1], and the runs, bottom
    first, stand for the first [cov] bytes of the input. *)
Definition stack_shape (data : list Z) (B : Z) (stack : list run)
    (s : StackBased.state) (cov : Z) : Prop :=
  len (StackBased.buffer s) = B /\ len data <= B /\
  StackBased.iStack s = B - 1 - depth stack /\
  (exists pfx, StackBased.buffer s = pfx ++ map header stack) /\
  Forall wf_run stack /\ pairs_ok stack /\
  0 <= cov <= len data /\ expand (rev stack) = pre data cov.

(** ... and [countLastLiteral] is the length of the literal run on top. *)
Definition stack_inv (data : list Z) (B : Z) (stack : list run)
    (s : StackBased.state) (cov : Z) : Prop :=
  stack_shape data B stack s cov /\
  StackBased.countLastLiteral s = top_literal stack.

(** At the head of the run-collecting loop two bytes are read ahead. *)
Definition at_head (data : list Z) (B : Z) (stack : list run) (s : StackBased.state) : Prop :=
  stack_inv data B stack s (StackBased.iRead s - 2) /\
  2 <= StackBased.iRead s <= len data /\
  StackBased.anchor s = get data (StackBased.iRead s - 2) /\
  StackBased.crnt s = get data (StackBased.iRead s - 1).

(** After the labelled block one byte is read ahead. *)
Definition at_after (data : list Z) (B : Z) (stack : list run) (s : StackBased.state) : Prop :=
  stack_inv data B stack s (StackBased.iRead s - 1) /\
  1 <= StackBased.iRead s <= len data /\
  StackBased.anchor s = get data (StackBased.iRead s - 1).

(** Twice the bytes a run takes in the buffer (its header on the stack and
    its packed form) less three times the bytes it stands for. *)
Definition excess (r : run) : Z :=
  2 * (len (header r :: payload r) + 1) - 3 * len (expand_run r).

Definition total_excess (rs : list run) : Z := foldr (fun r acc => excess r + acc) 0 rs.

(** The least buffer length for an input. *)
Definition ceil_1_5_len (data : list Z) : Z := StackBased.ceil_1_5 (len data).

(** * Statements of the properties *)

(** ** Statements shared by the three encoders *)

(** [compress] followed by [decompress] gives the input back. *)
Definition round_trips (compress decompress : list Z -> M (list Z)) (x : list Z) : Prop :=
  (packed ← compress x; decompress packed) = Ret x.

(** The result is a stream of runs whose headers, as a decoder finds them, are
    those of the format table and never 128. *)
Definition emits_no_noop (result : M (list Z)) : Prop :=
  exists rs, result = Ret (serialize rs) /\
    headers (serialize rs) = map header rs /\
    Forall header_ok rs /\
    Forall emitted_header (headers (serialize rs)).

(** The result is at most twice as long as the input. *)
Definition at_most_twice (result : M (list Z)) (x : list Z) : Prop :=
  exists packed, result = Ret packed /\ len packed <= 2 * len x.

(** What an encoder returns on 128 and on 129 copies of [b]. *)
Definition repeats_split (compress : list Z -> M (list Z)) (b : Z) : Prop :=
  compress (replicate 128 b) = Ret [0x81; b] /\
  compress (replicate 129 b) = Ret [0x81; b; 0x00; b].

Definition eqb_result (m : M (list Z)) (expected : list Z) : bool :=
  match m with
  | Ret a => bool_decide (a = expected)
  | _ => false
  end.

Definition repeats_ok (compress : list Z -> M (list Z)) (b : Z) : bool :=
  eqb_result (compress (replicate 128 b)) [0x81; b]
  && eqb_result (compress (replicate 129 b)) [0x81; b; 0x00; b].

Definition all_repeats_ok (b : Z) : bool :=
  repeats_ok BoundaryOnly.compress b
  && repeats_ok ContextAware.compress b
  && repeats_ok (fun data => StackBased.compress data None) b.

(** The input of the test case `L-R2-L`. *)
Definition L_R2_L : list Z := [0x54; 0xAA; 0xAA; 0x80; 0x00].

(** A literal stretch of 127 bytes followed by a repeat of two. *)
Definition L127_R2 : list Z := seqZ 0 127 ++ [200; 200].

(** * Statements of further properties *)

(** No byte of the input equals the next one. *)
Definition no_repeat (data : list Z) : Prop :=
  forall i, 0 <= i -> i + 1 < len data -> get data i <> get data (i + 1).

(** No maximal repeat of the input has exactly two bytes. *)
Definition no_repeat_of_two (data : list Z) : Prop :=
  Forall (fun g : Z * Z => g.2 <> 2) (groups data).

(** [follows_ok] for every two neighbours of a stream of runs, in the order
    of the output. *)
Fixpoint adjacent_ok (rs : list run) : Prop :=
  match rs with
  | a :: (b :: _) as rest => follows_ok a b /\ adjacent_ok rest
  | _ => True
  end.

(** Two states of the run-collecting loop that differ in the scratch buffer
    only: the same local variables, the same number of bytes from [iStack] to
    the end of the buffer, and the same bytes there. *)
Definition sim (s1 s2 : StackBased.state) : Prop :=
  StackBased.anchor s1 = StackBased.anchor s2 /\
  StackBased.crnt s1 = StackBased.crnt s2 /\
  StackBased.iRead s1 = StackBased.iRead s2 /\
  StackBased.countLastLiteral s1 = StackBased.countLastLiteral s2 /\
  len (StackBased.buffer s1) - StackBased.iStack s1
  = len (StackBased.buffer s2) - StackBased.iStack s2 /\
  -1 <= StackBased.iStack s1 /\ -1 <= StackBased.iStack s2 /\
  forall t, 1 <= t ->
    get (StackBased.buffer s1) (StackBased.iStack s1 + t)
    = get (StackBased.buffer s2) (StackBased.iStack s2 + t).

Definition leave_sim (l1 l2 : StackBased.leave) : Prop :=
  match l1, l2 with
  | StackBased.BreakLoop a, StackBased.BreakLoop b
  | StackBased.ContinueLoop a, StackBased.ContinueLoop b
  | StackBased.AfterAnchor a, StackBased.AfterAnchor b => sim a b
  | StackBased.Through a n, StackBased.Through b m =>
      n = m /\ sim a b /\ 0 <= StackBased.iStack a /\ 0 <= StackBased.iStack b
  | _, _ => False
  end.

(** Two runs end the same way, with related results. *)
Definition result_sim {A : Type} (R : A -> A -> Prop) (m1 m2 : M A) : Prop :=
  match m1, m2 with
  | Ret a, Ret b => R a b
  | Throw e1, Throw e2 => e1 = e2
  | Timeout, Timeout => True
  | _, _ => False
  end.

(** [fails m]: the call throws a [PackBitsError]. *)
Definition fails {A : Type} (m : M A) : Prop :=
  exists msg, m = Throw (PackBitsError msg).

(** The example of the documentation of [compress] and [decompress]. *)
Definition doc_raw : list Z := [0xAA; 0xAA; 0xAA; 0x80; 0x00].
Definition doc_packed : list Z := [0xFE; 0xAA; 0x01; 0x80; 0x00].

(** A scratch buffer that is longer than needed for [doc_raw] and is not
    zeroed. *)
Definition doc_scratch : list Z := [9; 8; 7; 6; 5; 4; 3; 2; 1; 0].

(** Three bytes that differ from their neighbours. *)
Definition doc_distinct : list Z := [0x80; 0x00; 0x2A].

(** * Lemmas on typed arrays *)

Section Arrays.
Implicit Types (a b : list Z) (i k n : Z).

Lemma len_nonneg a : 0 <= len a.
Proof. unfold len. lia. Qed.

Lemma len_nil : len [] = 0.
Proof. reflexivity. Qed.

Lemma len_cons x a : len (x :: a) = 1 + len a.
Proof. unfold len. simpl length. lia. Qed.

Lemma len_app a b : len (a ++ b) = len a + len b.
Proof. unfold len. rewrite length_app. lia. Qed.

Lemma len_replicate (m : nat) (x : Z) : len (replicate m x) = Z.of_nat m.
Proof. unfold len. by rewrite length_replicate. Qed.

Lemma len_alloc n : len (alloc n) = Z.max 0 n.
Proof. unfold alloc. rewrite len_replicate. lia. Qed.

Lemma len_set a i v : len (set a i v) = len a.
Proof. unfold set, len. destruct (0 <=? i); [by rewrite length_insert | done]. Qed.

Lemma len_take a (m : nat) : len (take m a) = Z.min (Z.of_nat m) (len a).
Proof. unfold len. rewrite length_take. lia. Qed.

Lemma len_drop a (m : nat) : len (drop m a) = Z.max 0 (len a - Z.of_nat m).
Proof. unfold len. rewrite length_drop. lia. Qed.

Lemma len_0_nil a : len a = 0 -> a = [].
Proof. unfold len. destruct a; [done | simpl; lia]. Qed.

Lemma get_Some_lt a i x : get a i = Some x -> 0 <= i < len a.
Proof.
  unfold get, len. destruct (Z.leb_spec 0 i) as [Hi|Hi]; [|done].
  intros Hx%lookup_lt_Some. lia.
Qed.

Lemma get_lt_is_Some a i : 0 <= i < len a -> is_Some (get a i).
Proof.
  unfold get, len. intros ?. destruct (Z.leb_spec 0 i); [|lia].
  apply lookup_lt_is_Some. lia.
Qed.

Lemma get_None a i : i < 0 \/ len a <= i -> get a i = None.
Proof.
  unfold get, len. intros ?. destruct (Z.leb_spec 0 i); [|done].
  apply lookup_ge_None. lia.
Qed.

Lemma get_cons_0 x a : get (x :: a) 0 = Some x.
Proof. reflexivity. Qed.

Lemma get_cons_pos x a i : 0 < i -> get (x :: a) i = get a (i - 1).
Proof.
  intros ?. unfold get.
  destruct (Z.leb_spec 0 i), (Z.leb_spec 0 (i - 1)); try lia.
  replace (Z.to_nat i) with (S (Z.to_nat (i - 1))) by lia. done.
Qed.

Lemma get_app_l a b i : i < len a -> get (a ++ b) i = get a i.
Proof.
  unfold get, len. intros ?. destruct (Z.leb_spec 0 i); [|done].
  apply lookup_app_l. lia.
Qed.

Lemma get_app_r a b i : len a <= i -> get (a ++ b) i = get b (i - len a).
Proof.
  unfold get, len. intros ?.
  destruct (Z.leb_spec 0 i), (Z.leb_spec 0 (i - Z.of_nat (length a))); try lia.
  rewrite lookup_app_r by lia. f_equal. lia.
Qed.

Lemma get_sfx a i k : 0 <= i -> 0 <= k -> get (sfx a i) k = get a (i + k).
Proof.
  intros ??. unfold get, sfx.
  destruct (Z.leb_spec 0 k), (Z.leb_spec 0 (i + k)); try lia.
  rewrite lookup_drop. f_equal. lia.
Qed.

Lemma get_replicate (m : nat) (x : Z) i :
  0 <= i < Z.of_nat m -> get (replicate m x) i = Some x.
Proof.
  intros ?. unfold get. destruct (Z.leb_spec 0 i); [|lia].
  apply lookup_replicate_2. lia.
Qed.

Lemma get_octet a i x : octets a -> get a i = Some x -> 0 <= x < 256.
Proof.
  unfold octets, get. intros Ha. destruct (0 <=? i); [|done].
  intros Hx. by apply (Forall_lookup_1 _ _ _ _ Ha Hx).
Qed.

Lemma set_app_len a x b v : set (a ++ x :: b) (len a) v = a ++ ToUint8 v :: b.
Proof.
  unfold set, len. destruct (Z.leb_spec 0 (Z.of_nat (length a))); [|lia].
  rewrite Nat2Z.id. rewrite insert_app_r_alt by lia.
  by rewrite Nat.sub_diag.
Qed.

Lemma set_out_of_range a i v : i < 0 \/ len a <= i -> set a i v = a.
Proof.
  unfold set, len. intros ?. destruct (Z.leb_spec 0 i); [|done].
  apply list_insert_ge. lia.
Qed.

Lemma ToUint8_octet x : 0 <= x < 256 -> ToUint8 (Some x) = x.
Proof. intros ?. simpl. by apply Z.mod_small. Qed.

Lemma octets_app a b : octets (a ++ b) <-> octets a /\ octets b.
Proof. apply Forall_app. Qed.

Lemma octets_replicate (m : nat) x : 0 <= x < 256 -> octets (replicate m x).
Proof. intros ?. by apply Forall_replicate. Qed.

Lemma octets_take a (m : nat) : octets a -> octets (take m a).
Proof. apply Forall_take. Qed.

Lemma octets_drop a (m : nat) : octets a -> octets (drop m a).
Proof. apply Forall_drop. Qed.

Lemma octets_sub a i k : octets a -> octets (sub a i k).
Proof. intros ?. by apply octets_take, octets_drop. Qed.

Lemma octets_set a i v : octets a -> octets (set a i v).
Proof.
  intros Ha. unfold set. destruct (0 <=? i); [|done].
  apply Forall_insert; [done|]. destruct v as [x|]; simpl; [|lia].
  apply Z.mod_pos_bound. lia.
Qed.

Lemma octets_alloc n : octets (alloc n).
Proof. apply octets_replicate. lia. Qed.

(** Prefixes, suffixes and segments. *)

Lemma pre_0 a : pre a 0 = [].
Proof. reflexivity. Qed.

Lemma pre_all a i : len a <= i -> pre a i = a.
Proof. unfold pre, len. intros ?. apply take_ge. lia. Qed.

Lemma sfx_0 a : sfx a 0 = a.
Proof. reflexivity. Qed.

Lemma sfx_all a i : len a <= i -> sfx a i = [].
Proof. unfold sfx, len. intros ?. apply drop_ge. lia. Qed.

Lemma pre_sfx a i : pre a i ++ sfx a i = a.
Proof. apply take_drop. Qed.

Lemma len_pre a i : 0 <= i <= len a -> len (pre a i) = i.
Proof. intros ?. unfold pre. rewrite len_take. lia. Qed.

Lemma len_sfx a i : 0 <= i <= len a -> len (sfx a i) = len a - i.
Proof. intros ?. unfold sfx. rewrite len_drop. lia. Qed.

Lemma len_sub a i k : 0 <= i -> 0 <= k -> i + k <= len a -> len (sub a i k) = k.
Proof. intros ???. unfold sub. rewrite len_take, len_sfx; lia. Qed.

Lemma sfx_sfx a i k : 0 <= i -> 0 <= k -> sfx (sfx a i) k = sfx a (i + k).
Proof.
  intros ??. unfold sfx. rewrite drop_drop. f_equal. lia.
Qed.

Lemma sub_sfx a i k : sub a i k ++ sfx (sfx a i) k = sfx a i.
Proof. apply take_drop. Qed.

Lemma pre_extend a i k : 0 <= i -> 0 <= k -> pre a (i + k) = pre a i ++ sub a i k.
Proof.
  intros ??. unfold pre, sub, sfx.
  rewrite Z2Nat.inj_add by lia. by rewrite take_take_drop.
Qed.

Lemma sfx_cons a i x : get a i = Some x -> sfx a i = x :: sfx a (i + 1).
Proof.
  unfold get, sfx. destruct (Z.leb_spec 0 i) as [?|?]; [|done]. intros Hx.
  rewrite (drop_S _ _ _ Hx). do 2 f_equal. lia.
Qed.

Lemma sfx_cons_inv a i x l :
  0 <= i -> sfx a i = x :: l -> get a i = Some x /\ sfx a (i + 1) = l /\ i < len a.
Proof.
  intros Hi Hs.
  assert (i < len a) as Hlt.
  { destruct (Z.lt_ge_cases i (len a)) as [|Hge]; [done|].
    by rewrite sfx_all in Hs by lia. }
  destruct (get_lt_is_Some a i) as [y Hy]; [lia|].
  rewrite (sfx_cons _ _ _ Hy) in Hs. by simplify_eq.
Qed.

Lemma sfx_app_inv a i l1 l2 :
  0 <= i -> sfx a i = l1 ++ l2 -> sub a i (len l1) = l1 /\ sfx a (i + len l1) = l2.
Proof.
  intros Hi Hs. split.
  - unfold sub. rewrite Hs. unfold len. rewrite Nat2Z.id. apply take_app_length.
  - rewrite <- sfx_sfx by (try apply len_nonneg; lia). rewrite Hs.
    unfold sfx, len. rewrite Nat2Z.id. apply drop_app_length.
Qed.

Lemma len_via_sfx a i : 0 <= i <= len a -> len a = i + len (sfx a i).
Proof. intros. rewrite len_sfx; lia. Qed.

Lemma sfx_nil_inv a i : 0 <= i -> sfx a i = [] -> len a <= i.
Proof.
  intros Hi Hs. destruct (Z.lt_ge_cases i (len a)) as [Hlt|]; [|done].
  apply (f_equal len) in Hs. rewrite len_sfx, len_nil in Hs; lia.
Qed.

Lemma sub_0 a i : sub a i 0 = [].
Proof. reflexivity. Qed.

Lemma sub_cons a i k x :
  get a i = Some x -> 0 < k -> sub a i k = x :: sub a (i + 1) (k - 1).
Proof.
  intros Hx ?. unfold sub. rewrite (sfx_cons _ _ _ Hx).
  replace (Z.to_nat k) with (S (Z.to_nat (k - 1))) by lia. done.
Qed.

Lemma sub_const a i k x :
  0 <= i -> 0 <= k -> (forall j, i <= j < i + k -> get a j = Some x) ->
  sub a i k = replicate (Z.to_nat k) x.
Proof.
  intros Hi Hk. revert i Hi. pattern k. apply natlike_ind; [| |done].
  - intros. by rewrite sub_0.
  - clear k Hk. intros k Hk IH i Hi H.
    rewrite (sub_cons _ _ _ x) by (try apply H; lia).
    replace (Z.succ k - 1) with k by lia.
    rewrite Z2Nat.inj_succ by lia. simpl. f_equal.
    apply IH; [lia|]. intros. apply H. lia.
Qed.

Lemma slice_prefix a b : slice (a ++ b) 0 (len a) = a.
Proof.
  unfold slice, rel_index. rewrite len_app.
  pose proof (len_nonneg a). pose proof (len_nonneg b).
  destruct (Z.ltb_spec 0 0), (Z.ltb_spec (len a) 0); try lia.
  rewrite Z.min_l, Z.min_l by lia. simpl.
  rewrite Z.sub_0_r. unfold len. rewrite Nat2Z.id.
  change (Z.to_nat 0) with O. by rewrite drop_0, take_app_length.
Qed.

Lemma len_slice_le a s e : len (slice a s e) <= len a.
Proof.
  unfold slice. rewrite len_take, len_drop. pose proof (len_nonneg a). lia.
Qed.
End Arrays.

(** * Lemmas on loops *)

Lemma bind_Ret {A B : Type} (a : A) (k : A -> M B) : mbind k (Ret a) = k a.
Proof. reflexivity. Qed.

Lemma bind_Throw {A B : Type} e (k : A -> M B) : mbind k (Throw e) = Throw e.
Proof. reflexivity. Qed.

(** Run a computation whose first part is known. *)
Ltac run := rewrite ?bind_Ret, ?bind_Throw; cbv beta iota.

Section Loops.
Context {S : Type}.

Lemma for_range_nil lo hi (body : Z -> S -> S) s :
  hi <= lo -> for_range lo hi body s = s.
Proof.
  intros ?. unfold for_range. by replace (Z.to_nat (hi - lo)) with O by lia.
Qed.

Lemma for_range_step lo hi (body : Z -> S -> S) s :
  lo < hi -> for_range lo hi body s = for_range (lo + 1) hi body (body lo s).
Proof.
  intros ?. unfold for_range.
  replace (Z.to_nat (hi - lo)) with (Datatypes.S (Z.to_nat (hi - (lo + 1)))) by lia.
  done.
Qed.

Lemma while_exit fuel cond (body : S -> M (ctl S)) s :
  cond s = false -> while (Datatypes.S fuel) cond body s = Ret s.
Proof. intros H. simpl. by rewrite H. Qed.

Lemma while_next fuel cond (body : S -> M (ctl S)) s s' :
  cond s = true -> body s = Ret (Next s') ->
  while (Datatypes.S fuel) cond body s = while fuel cond body s'.
Proof. intros H Hb. simpl. by rewrite H, Hb. Qed.

Lemma while_break fuel cond (body : S -> M (ctl S)) s s' :
  cond s = true -> body s = Ret (Break s') ->
  while (Datatypes.S fuel) cond body s = Ret s'.
Proof. intros H Hb. simpl. by rewrite H, Hb. Qed.

Lemma while_throw fuel cond (body : S -> M (ctl S)) s e :
  cond s = true -> body s = Throw e ->
  while (Datatypes.S fuel) cond body s = Throw e.
Proof. intros H Hb. simpl. by rewrite H, Hb. Qed.

(** Total correctness of a loop: an invariant [I], a variant [v] and a
    postcondition [Q] reached when the condition fails or the body breaks. *)
Lemma while_total (I Q : S -> Prop) (v : S -> nat) cond body :
  (forall s, I s -> cond s = false -> Q s) ->
  (forall s, I s -> cond s = true ->
     (exists s', body s = Ret (Next s') /\ I s' /\ (v s' < v s)%nat) \/
     (exists s', body s = Ret (Break s') /\ Q s')) ->
  forall fuel s, I s -> (v s < fuel)%nat ->
  exists s', while fuel cond body s = Ret s' /\ Q s'.
Proof.
  intros Hexit Hbody fuel. induction fuel as [|fuel IH]; intros s HI Hv; [lia|].
  simpl. destruct (cond s) eqn:Hc.
  - destruct (Hbody s HI Hc) as [(s' & -> & HI' & Hv')|(s' & -> & HQ)].
    + simpl. apply IH; [done | lia].
    + simpl. eauto.
  - eauto.
Qed.
End Loops.

(** Reason on the loop of the goal with invariant [I], postcondition [Q] and
    variant [v]: leaves the exit case, the body case, the invariant at entry,
    the fuel, and the goal with the loop's result as hypothesis [H]. *)
Ltac while_inv I Q v H :=
  match goal with
  | |- context [while ?f ?c ?b ?s] =>
      assert (exists s', while f c b s = Ret s' /\ Q s') as H;
      [apply (while_total I Q v c b)|]
  end.

Section Copy.
Implicit Types (data out junk : list Z).

(** Copy [c] bytes of [data] from [start] to the write position. *)
Lemma copy_bytes data (m : nat) : forall j start out junk,
  octets data -> 0 <= start + j -> start + j + Z.of_nat m <= len data ->
  Z.of_nat m <= len junk ->
  for_from m j
    (fun j '(result, writeIndex) =>
       (set result writeIndex (get data (start + j)), writeIndex + 1))
    (out ++ junk, len out)
  = (out ++ sub data (start + j) (Z.of_nat m) ++ drop m junk, len out + Z.of_nat m).
Proof.
  induction m as [|m IH]; intros j start out junk Hd Hs He Hj.
  - simpl for_from. change (Z.of_nat 0) with 0. rewrite sub_0, drop_0. simpl.
    f_equal. lia.
  - destruct junk as [|x junk]; [rewrite len_nil in Hj; lia|].
    rewrite len_cons in Hj.
    destruct (get_lt_is_Some data (start + j)) as [b Hb]; [lia|].
    simpl for_from. rewrite set_app_len, Hb.
    rewrite (ToUint8_octet b) by eauto using get_octet.
    replace (out ++ b :: junk) with ((out ++ [b]) ++ junk) by by rewrite <- app_assoc.
    replace (len out + 1) with (len (out ++ [b])) by (rewrite len_app, len_cons, len_nil; lia).
    rewrite IH by (try done; lia).
    rewrite (sub_cons _ _ (Z.of_nat (Datatypes.S m)) b) by (try done; lia).
    rewrite len_app, len_cons, len_nil, <- !app_assoc. simpl app. simpl drop.
    rewrite Z.add_assoc.
    replace (Z.of_nat (Datatypes.S m) - 1) with (Z.of_nat m) by lia.
    f_equal. lia.
Qed.

Lemma copy_range data start c out junk :
  octets data -> 0 <= start -> 0 <= c -> start + c <= len data -> c <= len junk ->
  for_range 0 c
    (fun j '(result, writeIndex) =>
       (set result writeIndex (get data (start + j)), writeIndex + 1))
    (out ++ junk, len out)
  = (out ++ sub data start c ++ sfx junk c, len out + c).
Proof.
  intros. unfold for_range. rewrite Z.sub_0_r.
  rewrite copy_bytes by (try done; lia).
  rewrite Z.add_0_r, Z2Nat.id by lia. done.
Qed.

(** Write [v] at [m] consecutive positions from the write position. *)
Lemma fill_bytes (v : option Z) (m : nat) : forall j out junk,
  j = len out -> Z.of_nat m <= len junk ->
  for_from m j (fun j result => set result j v) (out ++ junk)
  = out ++ replicate m (ToUint8 v) ++ drop m junk.
Proof.
  induction m as [|m IH]; intros j out junk Hw Hm.
  - simpl. by rewrite drop_0.
  - destruct junk as [|x junk]; [rewrite len_nil in Hm; lia|].
    rewrite len_cons in Hm.
    simpl for_from. rewrite Hw, set_app_len.
    replace (out ++ ToUint8 v :: junk) with ((out ++ [ToUint8 v]) ++ junk)
      by by rewrite <- app_assoc.
    rewrite IH by (rewrite ?len_app, ?len_cons, ?len_nil; lia).
    by rewrite <- app_assoc.
Qed.

Lemma for_from_shift {S : Type} (F : Z -> S -> S) w (m : nat) : forall j s,
  for_from m j (fun j => F (w + j)) s = for_from m (w + j) F s.
Proof.
  induction m as [|m IH]; intros j s; [done|].
  simpl. rewrite IH. f_equal. lia.
Qed.

Lemma fill_range (v : option Z) c out junk :
  0 <= c -> c <= len junk ->
  for_range 0 c (fun j result => set result (len out + j) v) (out ++ junk)
  = out ++ replicate (Z.to_nat c) (ToUint8 v) ++ sfx junk c.
Proof.
  intros. unfold for_range. rewrite Z.sub_0_r.
  rewrite (for_from_shift (fun j result => set result j v)).
  by rewrite fill_bytes by lia.
Qed.

(** The same loop with the write position as a variable of its own. *)
Lemma fill_counted (v : option Z) (m : nat) : forall j out junk,
  Z.of_nat m <= len junk ->
  for_from m j (fun _ '(result, iWrite) => (set result iWrite v, iWrite + 1))
    (out ++ junk, len out)
  = (out ++ replicate m (ToUint8 v) ++ drop m junk, len out + Z.of_nat m).
Proof.
  induction m as [|m IH]; intros j out junk Hm.
  - simpl. rewrite drop_0. f_equal. lia.
  - destruct junk as [|x junk]; [rewrite len_nil in Hm; lia|].
    rewrite len_cons in Hm.
    simpl for_from. rewrite set_app_len.
    replace (out ++ ToUint8 v :: junk) with ((out ++ [ToUint8 v]) ++ junk)
      by by rewrite <- app_assoc.
    replace (len out + 1) with (len (out ++ [ToUint8 v]))
      by (rewrite len_app, len_cons, len_nil; lia).
    rewrite IH by lia.
    rewrite len_app, len_cons, len_nil, <- app_assoc. simpl. f_equal. lia.
Qed.

(** Copy with the read and write positions as variables of their own. *)
Lemma copy_counted data (m : nat) : forall j iRead out junk,
  octets data -> 0 <= iRead -> iRead + Z.of_nat m <= len data ->
  Z.of_nat m <= len junk ->
  for_from m j
    (fun _ '(buffer, iRead, iWrite) =>
       (set buffer iWrite (get data iRead), iRead + 1, iWrite + 1))
    (out ++ junk, iRead, len out)
  = (out ++ sub data iRead (Z.of_nat m) ++ drop m junk,
     iRead + Z.of_nat m, len out + Z.of_nat m).
Proof.
  induction m as [|m IH]; intros j iRead out junk Hd Hs He Hj.
  - simpl for_from. change (Z.of_nat 0) with 0. rewrite sub_0, drop_0. simpl.
    repeat f_equal; lia.
  - destruct junk as [|x junk]; [rewrite len_nil in Hj; lia|].
    rewrite len_cons in Hj.
    destruct (get_lt_is_Some data iRead) as [b Hb]; [lia|].
    simpl for_from. rewrite set_app_len, Hb.
    rewrite (ToUint8_octet b) by eauto using get_octet.
    replace (out ++ b :: junk) with ((out ++ [b]) ++ junk) by by rewrite <- app_assoc.
    replace (len out + 1) with (len (out ++ [b])) by (rewrite len_app, len_cons, len_nil; lia).
    rewrite IH by (try done; lia).
    rewrite (sub_cons _ _ (Z.of_nat (Datatypes.S m)) b) by (try done; lia).
    rewrite len_app, len_cons, len_nil, <- !app_assoc. simpl app. simpl drop.
    replace (Z.of_nat (Datatypes.S m) - 1) with (Z.of_nat m) by lia.
    replace (iRead + 1 + Z.of_nat m) with (iRead + Z.of_nat (Datatypes.S m)) by lia.
    replace (len out + (1 + 0) + Z.of_nat m) with (len out + Z.of_nat (Datatypes.S m)) by lia.
    done.
Qed.

(** [target.set(source, offset)] at the write position. *)
Lemma copy_from source (m : nat) : forall j w out junk,
  octets source -> 0 <= j -> j + Z.of_nat m <= len source -> w + j = len out ->
  Z.of_nat m <= len junk ->
  for_from m j (fun k target => set target (w + k) (get source k)) (out ++ junk)
  = out ++ sub source j (Z.of_nat m) ++ drop m junk.
Proof.
  induction m as [|m IH]; intros j w out junk Hd Hs He Hw Hj.
  - simpl for_from. change (Z.of_nat 0) with 0. by rewrite sub_0, drop_0.
  - destruct junk as [|x junk]; [rewrite len_nil in Hj; lia|].
    rewrite len_cons in Hj.
    destruct (get_lt_is_Some source j) as [b Hb]; [lia|].
    simpl for_from. rewrite Hw, set_app_len, Hb.
    rewrite (ToUint8_octet b) by eauto using get_octet.
    replace (out ++ b :: junk) with ((out ++ [b]) ++ junk) by by rewrite <- app_assoc.
    rewrite IH by (rewrite ?len_app, ?len_cons, ?len_nil; try done; lia).
    rewrite (sub_cons _ _ (Z.of_nat (Datatypes.S m)) b) by (try done; lia).
    rewrite <- !app_assoc. simpl app. simpl drop.
    replace (Z.of_nat (Datatypes.S m) - 1) with (Z.of_nat m) by lia.
    done.
Qed.

Lemma sub_all a : sub a 0 (len a) = a.
Proof. unfold sub, sfx, len. rewrite Nat2Z.id. simpl. apply firstn_all. Qed.

Lemma set_from_fits out junk source :
  octets source -> len source <= len junk ->
  StackBased.set_from (out ++ junk) source (len out)
  = Ret (out ++ source ++ sfx junk (len source)).
Proof.
  intros Hs Hl. unfold StackBased.set_from. rewrite len_app.
  destruct (Z.ltb_spec (len out + len junk) (len out + len source)); [lia|].
  f_equal. unfold for_range. rewrite Z.sub_0_r.
  rewrite copy_from by (pose proof (len_nonneg source); try done; lia).
  rewrite Z2Nat.id by apply len_nonneg. by rewrite sub_all.
Qed.

Lemma slice_sub a i k :
  0 <= i -> 0 <= k -> i + k <= len a -> slice a i (i + k) = sub a i k.
Proof.
  intros. unfold slice, sub, sfx, rel_index.
  destruct (Z.ltb_spec i 0), (Z.ltb_spec (i + k) 0); try lia.
  rewrite !Z.min_l by lia. by replace (i + k - i) with k by lia.
Qed.

Lemma fill_fits out junk v c :
  0 <= c -> c <= len junk ->
  StackBased.fill (out ++ junk) v (len out) (len out + c)
  = out ++ replicate (Z.to_nat c) (ToUint8 v) ++ sfx junk c.
Proof.
  intros. unfold StackBased.fill, rel_index. rewrite len_app.
  pose proof (len_nonneg out).
  destruct (Z.ltb_spec (len out) 0), (Z.ltb_spec (len out + c) 0); try lia.
  rewrite !Z.min_l by lia. unfold for_range.
  rewrite fill_bytes by lia. by replace (len out + c - len out) with c by lia.
Qed.
End Copy.

(** * The decoders *)

(** Case analysis on the comparisons of the code. *)
Ltac cases_on_tests :=
  repeat match goal with
    | |- context [?a <? ?b] => destruct (Z.ltb_spec a b); try lia
    | |- context [?a <=? ?b] => destruct (Z.leb_spec a b); try lia
    | |- context [?a =? ?b] => destruct (Z.eqb_spec a b); try lia
    end.

(** ** The decoder of the stack-based module *)

Section StackBasedDecoder.
Import StackBased.
Variable data : list Z.

Lemma size_body_replicate i size h :
  get data i = Some h -> 128 < h -> i + 1 < len data ->
  size_body data (i, size) = Ret (Next (i + 1 + 1, size + (257 - h))).
Proof. intros Hg ??. unfold size_body. rewrite Hg. by cases_on_tests. Qed.

Lemma size_body_replicate_short i size h :
  get data i = Some h -> 128 < h -> len data <= i + 1 ->
  size_body data (i, size) = Throw (PackBitsError ExpectedOneMoreByte).
Proof. intros Hg ??. unfold size_body. rewrite Hg. by cases_on_tests. Qed.

Lemma size_body_literal i size h :
  get data i = Some h -> h < 128 -> i + 1 + (h + 1) <= len data ->
  size_body data (i, size) = Ret (Next (i + 1 + (h + 1), size + (h + 1))).
Proof. intros Hg ??. unfold size_body. rewrite Hg. by cases_on_tests. Qed.

Lemma size_body_literal_short i size h :
  get data i = Some h -> h < 128 -> len data < i + 1 + (h + 1) ->
  size_body data (i, size)
  = Throw (PackBitsError (ExpectedMoreBytes (i + 1 + (h + 1) - len data))).
Proof. intros Hg ??. unfold size_body. rewrite Hg. by cases_on_tests. Qed.

Lemma size_body_noop i size :
  get data i = Some 128 -> size_body data (i, size) = Ret (Next (i + 1, size)).
Proof. intros Hg. unfold size_body. by rewrite Hg. Qed.

(** What [sfx data i = h :: bytes ++ rest] says in terms of indices. *)
Lemma sfx_run_inv i h bytes rest :
  0 <= i -> sfx data i = h :: bytes ++ rest ->
  get data i = Some h /\ sub data (i + 1) (len bytes) = bytes /\
  sfx data (i + 1 + len bytes) = rest /\
  len data = i + 1 + len bytes + len rest.
Proof.
  intros Hi Hs. destruct (sfx_cons_inv _ _ _ _ Hi Hs) as (Hg & Hs' & Hlt).
  destruct (sfx_app_inv data (i + 1) bytes rest) as (Hsub & Hrest); [lia|done|].
  repeat split; try done.
  rewrite (len_via_sfx data (i + 1)), Hs', len_app by lia. lia.
Qed.

Lemma size_loop_decodes rest raw :
  decodes rest raw ->
  forall i size fuel, 0 <= i <= len data -> sfx data i = rest ->
  (length rest < fuel)%nat ->
  while fuel (fun '(i, size) => i <? len data) (size_body data) (i, size)
  = Ret (len data, size + len raw).
Proof.
  induction 1 as [|h bytes rest raw Hh Hb _ IH|h byte rest raw Hh _ IH|rest raw _ IH];
    intros i size fuel Hi Hs Hfuel; (destruct fuel as [|fuel]; [simpl in Hfuel; lia|]).
  - apply sfx_nil_inv in Hs; [|lia].
    rewrite while_exit by by cases_on_tests.
    rewrite len_nil. do 2 f_equal; lia.
  - destruct (sfx_run_inv i h _ rest ltac:(lia) Hs) as (Hg & Hsub & Hrest & Hlen).
    pose proof (len_nonneg rest).
    rewrite (while_next _ _ _ _ (i + 1 + (h + 1), size + (h + 1))).
    + rewrite IH; rewrite ?len_app; try lia.
      * do 2 f_equal. lia.
      * by rewrite <- Hb.
      * simpl in Hfuel. rewrite length_app in Hfuel. lia.
    + by cases_on_tests.
    + apply size_body_literal; [done|lia|lia].
  - destruct (sfx_run_inv i h [byte] rest ltac:(lia) Hs) as (Hg & Hsub & Hrest & Hlen).
    rewrite len_cons, len_nil in *. pose proof (len_nonneg rest).
    rewrite (while_next _ _ _ _ (i + 1 + 1, size + (257 - h))).
    + rewrite IH; rewrite ?len_app, ?len_replicate; try lia.
      * do 2 f_equal. lia.
      * by replace (i + 1 + 1) with (i + 1 + (1 + 0)) by lia.
      * simpl in Hfuel. lia.
    + by cases_on_tests.
    + apply size_body_replicate; [done|lia|lia].
  - destruct (sfx_run_inv i 128 [] rest ltac:(lia) Hs) as (Hg & Hsub & Hrest & Hlen).
    rewrite len_nil in *. pose proof (len_nonneg rest).
    rewrite (while_next _ _ _ _ (i + 1, size)).
    + rewrite IH; try lia; [done | | simpl in Hfuel; lia].
      by replace (i + 1) with (i + 1 + 0) by lia.
    + by cases_on_tests.
    + by apply size_body_noop.
Qed.

Lemma size_loop_truncated rest :
  truncated rest ->
  forall i size fuel, 0 <= i <= len data -> sfx data i = rest ->
  (length rest < fuel)%nat ->
  exists m,
    while fuel (fun '(i, size) => i <? len data) (size_body data) (i, size)
    = Throw (PackBitsError m).
Proof.
  induction 1 as [h rest Hh Hl|h Hh|h bytes rest Hh Hb _ IH|h byte rest Hh _ IH|rest _ IH];
    intros i size fuel Hi Hs Hfuel; (destruct fuel as [|fuel]; [simpl in Hfuel; lia|]).
  - destruct (sfx_run_inv i h [] rest ltac:(lia) Hs) as (Hg & Hsub & Hrest & Hlen).
    rewrite len_nil in *. pose proof (len_nonneg rest).
    eexists. apply while_throw; [by cases_on_tests|].
    apply size_body_literal_short; [done|lia|lia].
  - destruct (sfx_run_inv i h [] [] ltac:(lia) Hs) as (Hg & Hsub & Hrest & Hlen).
    rewrite len_nil in *.
    eexists. apply while_throw; [by cases_on_tests|].
    apply (size_body_replicate_short _ _ h); [done|lia|lia].
  - destruct (sfx_run_inv i h _ rest ltac:(lia) Hs) as (Hg & Hsub & Hrest & Hlen).
    pose proof (len_nonneg rest).
    rewrite (while_next _ _ _ _ (i + 1 + (h + 1), size + (h + 1))).
    + apply IH; [lia | by rewrite <- Hb |].
      simpl in Hfuel. rewrite length_app in Hfuel. lia.
    + by cases_on_tests.
    + apply size_body_literal; [done|lia|lia].
  - destruct (sfx_run_inv i h [byte] rest ltac:(lia) Hs) as (Hg & Hsub & Hrest & Hlen).
    rewrite len_cons, len_nil in *. pose proof (len_nonneg rest).
    rewrite (while_next _ _ _ _ (i + 1 + 1, size + (257 - h))).
    + apply IH; [lia | | simpl in Hfuel; lia].
      by replace (i + 1 + 1) with (i + 1 + (1 + 0)) by lia.
    + by cases_on_tests.
    + apply size_body_replicate; [done|lia|lia].
  - destruct (sfx_run_inv i 128 [] rest ltac:(lia) Hs) as (Hg & Hsub & Hrest & Hlen).
    rewrite len_nil in *. pose proof (len_nonneg rest).
    rewrite (while_next _ _ _ _ (i + 1, size)).
    + apply IH; [lia | | simpl in Hfuel; lia].
      by replace (i + 1) with (i + 1 + 0) by lia.
    + by cases_on_tests.
    + by apply size_body_noop.
Qed.

Hypothesis data_octets : octets data.

Lemma expand_body_literal i h out junk w :
  0 <= i -> get data i = Some h -> 0 <= h < 128 -> i + 1 + (h + 1) <= len data ->
  w = len out -> h + 1 <= len junk ->
  expand_body data (out ++ junk, i, w)
  = Ret (Next (out ++ sub data (i + 1) (h + 1) ++ sfx junk (h + 1),
               i + 1 + (h + 1), w + (h + 1))).
Proof.
  intros Hi Hg Hh Hlen -> Hj. unfold expand_body. rewrite Hg.
  destruct (Z.ltb_spec 128 h); [lia|]. destruct (Z.ltb_spec h 128); [|lia].
  destruct (Z.leb_spec COPY_THRESHOLD (h + 1)).
  - rewrite slice_sub by lia.
    rewrite set_from_fits by (rewrite ?len_sub by lia; auto using octets_sub; lia).
    by rewrite len_sub by lia.
  - unfold for_range. rewrite Z.sub_0_r.
    rewrite copy_counted by (try done; lia).
    by rewrite Z2Nat.id by lia.
Qed.

Lemma expand_body_replicate i h byte out junk w :
  0 <= i -> get data i = Some h -> get data (i + 1) = Some byte -> 128 < h < 256 ->
  w = len out -> 257 - h <= len junk ->
  expand_body data (out ++ junk, i, w)
  = Ret (Next (out ++ replicate (Z.to_nat (257 - h)) byte ++ sfx junk (257 - h),
               i + 1 + 1, w + (257 - h))).
Proof.
  intros Hi Hg Hb Hh -> Hj. unfold expand_body. rewrite Hg, Hb.
  destruct (Z.ltb_spec 128 h); [|lia].
  assert (ToUint8 (Some byte) = byte) as Hbyte
    by eauto using ToUint8_octet, get_octet.
  destruct (Z.leb_spec COPY_THRESHOLD (257 - h)).
  - rewrite fill_fits by lia. by rewrite Hbyte.
  - unfold for_range. rewrite Z.sub_0_r.
    rewrite fill_counted by lia.
    by rewrite Hbyte, Z2Nat.id by lia.
Qed.

Lemma expand_body_noop i buffer w :
  get data i = Some 128 ->
  expand_body data (buffer, i, w) = Ret (Next (buffer, i + 1, w)).
Proof. intros Hg. unfold expand_body. by rewrite Hg. Qed.

Lemma expand_loop_decodes rest raw :
  decodes rest raw ->
  forall i out junk w fuel, 0 <= i <= len data -> sfx data i = rest ->
  w = len out -> len raw <= len junk -> (length rest < fuel)%nat ->
  while fuel (fun '(result, iRead, iWrite) => iRead <? len data) (expand_body data)
    (out ++ junk, i, w)
  = Ret (out ++ raw ++ sfx junk (len raw), len data, w + len raw).
Proof.
  induction 1 as [|h bytes rest raw Hh Hb _ IH|h byte rest raw Hh _ IH|rest raw _ IH];
    intros i out junk w fuel Hi Hs Hw Hj Hfuel;
    (destruct fuel as [|fuel]; [simpl in Hfuel; lia|]).
  - apply sfx_nil_inv in Hs; [|lia].
    rewrite while_exit by by cases_on_tests.
    rewrite len_nil, sfx_0, Z.add_0_r. simpl.
    by replace i with (len data) by lia.
  - destruct (sfx_run_inv i h _ rest ltac:(lia) Hs) as (Hg & Hsub & Hrest & Hlen).
    pose proof (len_nonneg rest). pose proof (len_nonneg raw).
    rewrite len_app in Hj.
    erewrite while_next; [|by cases_on_tests|].
    2:{ apply expand_body_literal; [lia|done|lia|lia|done|lia]. }
    rewrite <- Hb, Hsub, app_assoc.
    rewrite IH; rewrite ?len_app, ?len_sfx; try lia.
    + rewrite <- !app_assoc, sfx_sfx by (try apply len_nonneg; lia).
      by rewrite Z.add_assoc.
    + done.
    + simpl in Hfuel. rewrite length_app in Hfuel. lia.
  - destruct (sfx_run_inv i h [byte] rest ltac:(lia) Hs) as (Hg & Hsub & Hrest & Hlen).
    rewrite len_cons, len_nil in *. pose proof (len_nonneg rest).
    pose proof (len_nonneg raw). rewrite len_app, len_replicate in Hj.
    assert (get data (i + 1) = Some byte) as Hbyte.
    { destruct (sfx_cons_inv data i h (byte :: rest)) as (_ & Hs1 & _); [lia|done|].
      by destruct (sfx_cons_inv data (i + 1) byte rest) as (? & _); [lia|done|]. }
    erewrite while_next; [|by cases_on_tests|].
    2:{ apply (expand_body_replicate i h byte); [lia|done|done|lia|done|lia]. }
    rewrite app_assoc.
    rewrite IH; rewrite ?len_app, ?len_replicate, ?len_sfx; try lia.
    + rewrite <- !app_assoc, sfx_sfx by (try apply len_nonneg; lia).
      rewrite Z.add_assoc. by rewrite Z2Nat.id by lia.
    + by replace (i + 1 + 1) with (i + 1 + (1 + 0)) by lia.
    + simpl in Hfuel. lia.
  - destruct (sfx_run_inv i 128 [] rest ltac:(lia) Hs) as (Hg & Hsub & Hrest & Hlen).
    rewrite len_nil in *. pose proof (len_nonneg rest).
    erewrite while_next; [|by cases_on_tests|by apply expand_body_noop].
    rewrite IH; try lia; [done | | simpl in Hfuel; lia].
    by replace (i + 1) with (i + 1 + 0) by lia.
Qed.
End StackBasedDecoder.

(** The decoder of the stack-based module returns what a complete stream
    stands for. *)
Lemma stack_decompress_decodes packed raw :
  octets packed -> decodes packed raw -> StackBased.decompress packed = Ret raw.
Proof.
  intros Ho Hd. unfold StackBased.decompress, StackBased.calculateSizeDecompressed.
  pose proof (len_nonneg packed). pose proof (len_nonneg raw).
  rewrite (size_loop_decodes packed packed raw) by (unfold fuel_for; auto; lia).
  run.
  replace (alloc (0 + len raw)) with ([] ++ alloc (len raw)) by done.
  rewrite (expand_loop_decodes packed Ho packed raw)
    by (rewrite ?len_alloc; unfold fuel_for; auto; lia).
  run. f_equal. rewrite sfx_all by (rewrite len_alloc; lia). by rewrite app_nil_r.
Qed.

(** It throws a [PackBitsError] on a truncated stream. *)
Lemma stack_decompress_truncated packed :
  truncated packed -> exists m, StackBased.decompress packed = Throw (PackBitsError m).
Proof.
  intros Ht. unfold StackBased.decompress, StackBased.calculateSizeDecompressed.
  pose proof (len_nonneg packed).
  destruct (size_loop_truncated packed packed Ht 0 0 (fuel_for packed)) as [m Hm];
    [lia | done | unfold fuel_for; lia |].
  rewrite Hm. run. eauto.
Qed.

(** Every stream of octets is either complete or truncated. *)
Lemma decodes_or_truncated packed :
  octets packed -> (exists raw, decodes packed raw) \/ truncated packed.
Proof.
  remember (length packed) as n eqn:Hn. revert packed Hn.
  induction n as [n IH] using lt_wf_ind. intros packed Hn Ho.
  assert (forall rest, (length rest < n)%nat -> octets rest ->
            (exists raw, decodes rest raw) \/ truncated rest) as IH'
    by (intros rest ??; by apply (IH (length rest))).
  clear IH. subst n.
  destruct packed as [|h rest]; [left; eexists; constructor|].
  apply Forall_cons in Ho as [Hh Ho]. simpl in IH'.
  destruct (Z.lt_trichotomy h 128) as [Hlt|[->|Hgt]].
  - destruct (Z.le_gt_cases (h + 1) (len rest)) as [Hle|Hgt].
    + rewrite <- (take_drop (Z.to_nat (h + 1)) rest).
      assert (len (take (Z.to_nat (h + 1)) rest) = h + 1) as Hb
        by (rewrite len_take; lia).
      destruct (IH' (drop (Z.to_nat (h + 1)) rest)) as [[raw Hraw]|Ht];
        [rewrite length_drop; lia | by apply octets_drop |..].
      * left. eexists. apply decodes_literal; [lia|done|done].
      * right. apply truncated_after_literal; [lia|done|done].
    + right. apply truncated_literal; lia.
  - destruct (IH' rest) as [[raw Hraw]|Ht]; [lia | done |..].
    + left. eexists. by apply decodes_noop.
    + right. by apply truncated_after_noop.
  - destruct rest as [|byte rest]; [right; apply truncated_replicate; lia|].
    apply Forall_cons in Ho as [Hb Ho].
    destruct (IH' rest) as [[raw Hraw]|Ht]; [simpl; lia | done |..].
    + left. eexists. apply decodes_replicate; [lia|done].
    + right. apply truncated_after_replicate; [lia|done].
Qed.

(** ** The wire format *)

Lemma serialize_cons r rs : serialize (r :: rs) = header r :: payload r ++ serialize rs.
Proof. reflexivity. Qed.

Lemma serialize_app rs1 rs2 : serialize (rs1 ++ rs2) = serialize rs1 ++ serialize rs2.
Proof. unfold serialize. by rewrite map_app, concat_app. Qed.

Lemma serialize_singleton r : serialize [r] = header r :: payload r.
Proof. unfold serialize. simpl. by rewrite app_nil_r. Qed.

Lemma expand_singleton r : expand [r] = expand_run r.
Proof. unfold expand. simpl. by rewrite app_nil_r. Qed.

Lemma expand_cons r rs : expand (r :: rs) = expand_run r ++ expand rs.
Proof. reflexivity. Qed.

Lemma expand_app rs1 rs2 : expand (rs1 ++ rs2) = expand rs1 ++ expand rs2.
Proof. unfold expand. by rewrite map_app, concat_app. Qed.

Lemma wf_run_header_ok r : wf_run r -> header_ok r.
Proof.
  destruct r as [bytes|n byte]; unfold header_ok; simpl; intros [? ?]; lia.
Qed.

Lemma len_expand_run r : wf_run r -> 1 <= len (expand_run r) <= 128.
Proof.
  destruct r as [bytes|n byte]; simpl; intros [? ?]; [done|].
  rewrite len_replicate. lia.
Qed.

Lemma len_serialize_run r :
  wf_run r -> len (header r :: payload r) <= 2 * len (expand_run r).
Proof.
  destruct r as [bytes|n byte]; simpl; intros [? ?]; rewrite len_cons.
  - lia.
  - rewrite len_cons, len_nil, len_replicate. lia.
Qed.

(** A packed stream of well-formed runs is at most twice as long as what it
    stands for. *)
Lemma len_serialize rs : Forall wf_run rs -> len (serialize rs) <= 2 * len (expand rs).
Proof.
  induction 1 as [|r rs Hr _ IH]; [done|].
  rewrite serialize_cons, expand_cons, app_comm_cons, !len_app.
  pose proof (len_serialize_run r Hr). lia.
Qed.

Lemma octets_serialize rs : Forall wf_run rs -> octets (serialize rs).
Proof.
  induction 1 as [|r rs Hr _ IH]; [constructor|].
  rewrite serialize_cons. apply Forall_cons. split.
  - destruct r as [bytes|n byte]; simpl in *; lia.
  - apply octets_app. split; [|done].
    destruct r as [bytes|n byte]; simpl in *; [tauto|].
    apply Forall_cons. split; [tauto|constructor].
Qed.

Lemma decodes_serialize rs : Forall wf_run rs -> decodes (serialize rs) (expand rs).
Proof.
  induction 1 as [|r rs Hr _ IH]; [constructor|].
  rewrite serialize_cons, expand_cons.
  destruct r as [bytes|n byte]; simpl in *.
  - apply decodes_literal; [lia|lia|done].
  - replace n with (257 - (257 - n)) at 2 by lia.
    apply decodes_replicate; [lia|done].
Qed.

(** ** The decoder of src/src/mod.ts *)

Section BoundaryOnlyDecoder.
Import BoundaryOnly.
Variable data : list Z.

Lemma size_body_literal_1 index size h :
  get data index = Some h -> h < 128 -> index + 1 + (h + 1) <= len data ->
  0 <= h ->
  size_body data (size, index) = Ret (Next (size + (h + 1), index + 1 + (h + 1))).
Proof.
  intros Hg ???. unfold size_body, MAX_RUN_LENGTH. rewrite Hg. by cases_on_tests.
Qed.

Lemma size_body_replicate_1 index size h :
  get data index = Some h -> 128 < h -> index + 1 < len data ->
  size_body data (size, index) = Ret (Next (size + (257 - h), index + 1 + 1)).
Proof.
  intros Hg ??. unfold size_body, MAX_RUN_LENGTH. rewrite Hg. by cases_on_tests.
Qed.

Lemma size_loop_serialize rs :
  Forall wf_run rs ->
  forall i size fuel, 0 <= i <= len data -> sfx data i = serialize rs ->
  (length rs < fuel)%nat ->
  while fuel (fun '(size, index) => index <? len data) (size_body data) (size, i)
  = Ret (size + len (expand rs), len data).
Proof.
  induction 1 as [|r rs Hr _ IH]; intros i size fuel Hi Hs Hfuel;
    (destruct fuel as [|fuel]; [simpl in Hfuel; lia|]).
  - apply sfx_nil_inv in Hs; [|lia].
    rewrite while_exit by by cases_on_tests.
    change (expand []) with (@nil Z). rewrite len_nil, Z.add_0_r.
    by replace i with (len data) by lia.
  - rewrite serialize_cons in Hs.
    destruct (sfx_run_inv data i _ _ _ ltac:(lia) Hs) as (Hg & Hsub & Hrest & Hlen).
    pose proof (len_nonneg (serialize rs)).
    rewrite expand_cons, len_app.
    destruct r as [bytes|n byte]; simpl in Hr, Hg, Hsub, Hrest, Hlen;
      cbn [expand_run].
    + erewrite while_next; [|by cases_on_tests|].
      2:{ apply size_body_literal_1; [done|lia|lia|lia]. }
      rewrite IH; [| |by replace (len bytes - 1 + 1) with (len bytes) by lia
                   |simpl in Hfuel; lia]; [|lia].
      do 2 f_equal. lia.
    + rewrite len_cons, len_nil in *. rewrite len_replicate.
      erewrite while_next; [|by cases_on_tests|].
      2:{ apply size_body_replicate_1; [done|lia|lia]. }
      rewrite IH; [| |by replace (i + 1 + 1) with (i + 1 + (1 + 0)) by lia
                   |simpl in Hfuel; lia]; [|lia].
      do 2 f_equal. lia.
Qed.

Hypothesis data_octets : octets data.

Lemma expand_body_literal_1 i h out junk w :
  0 <= i -> get data i = Some h -> 0 <= h < 128 -> i + 1 + (h + 1) <= len data ->
  w = len out -> h + 1 <= len junk ->
  expand_body data (out ++ junk, w, i)
  = Ret (Next (out ++ sub data (i + 1) (h + 1) ++ sfx junk (h + 1),
               w + (h + 1), i + 1 + (h + 1))).
Proof.
  intros Hi Hg Hh Hlen -> Hj. unfold expand_body, MAX_RUN_LENGTH. rewrite Hg.
  destruct (Z.ltb_spec h 128); [|lia].
  by rewrite copy_range by (try done; lia).
Qed.

Lemma expand_body_replicate_1 i h byte out junk w :
  0 <= i -> get data i = Some h -> get data (i + 1) = Some byte -> 128 < h < 256 ->
  w = len out -> 257 - h <= len junk ->
  expand_body data (out ++ junk, w, i)
  = Ret (Next (out ++ replicate (Z.to_nat (257 - h)) byte ++ sfx junk (257 - h),
               w + (257 - h), i + 1 + 1)).
Proof.
  intros Hi Hg Hb Hh -> Hj. unfold expand_body, MAX_RUN_LENGTH. rewrite Hg, Hb.
  destruct (Z.ltb_spec h 128); [lia|]. destruct (Z.ltb_spec 128 h); [|lia].
  rewrite fill_range by lia.
  by rewrite (ToUint8_octet byte) by eauto using get_octet.
Qed.

Lemma expand_loop_serialize rs :
  Forall wf_run rs ->
  forall i out junk w fuel, 0 <= i <= len data -> sfx data i = serialize rs ->
  w = len out -> len (expand rs) <= len junk -> (length rs < fuel)%nat ->
  while fuel (fun '(result, writeIndex, readIndex) => readIndex <? len data)
    (expand_body data) (out ++ junk, w, i)
  = Ret (out ++ expand rs ++ sfx junk (len (expand rs)), w + len (expand rs), len data).
Proof.
  induction 1 as [|r rs Hr _ IH]; intros i out junk w fuel Hi Hs Hw Hj Hfuel;
    (destruct fuel as [|fuel]; [simpl in Hfuel; lia|]).
  - apply sfx_nil_inv in Hs; [|lia].
    rewrite while_exit by by cases_on_tests.
    change (expand []) with (@nil Z). rewrite len_nil, sfx_0, Z.add_0_r. simpl.
    by replace i with (len data) by lia.
  - rewrite serialize_cons in Hs.
    destruct (sfx_run_inv data i _ _ _ ltac:(lia) Hs) as (Hg & Hsub & Hrest & Hlen).
    pose proof (len_nonneg (serialize rs)). pose proof (len_nonneg (expand rs)).
    rewrite expand_cons, len_app in *.
    destruct r as [bytes|n byte]; simpl in Hr, Hg, Hsub, Hrest, Hlen, Hj;
      cbn [expand_run].
    + erewrite while_next; [|by cases_on_tests|].
      2:{ apply expand_body_literal_1; [lia|done|lia|lia|done|lia]. }
      replace (len bytes - 1 + 1) with (len bytes) by lia.
      rewrite Hsub, app_assoc.
      rewrite IH; rewrite ?len_app, ?len_sfx; try lia; [|done|simpl in Hfuel; lia].
      rewrite <- !app_assoc, sfx_sfx by (try apply len_nonneg; lia).
      by rewrite Z.add_assoc.
    + rewrite len_cons, len_nil in *. rewrite len_replicate in *.
      assert (get data (i + 1) = Some byte) as Hbyte.
      { destruct (sfx_cons_inv data i (257 - n) (byte :: serialize rs))
          as (_ & Hs1 & _); [lia|done|].
        by destruct (sfx_cons_inv data (i + 1) byte (serialize rs)) as (? & _);
          [lia|done|]. }
      erewrite while_next; [|by cases_on_tests|].
      2:{ apply (expand_body_replicate_1 i (257 - n) byte); [lia|done|done|lia|done|lia]. }
      replace (257 - (257 - n)) with n by lia.
      rewrite app_assoc.
      rewrite IH; rewrite ?len_app, ?len_replicate, ?len_sfx; try lia.
      * rewrite <- !app_assoc, sfx_sfx by (try apply len_nonneg; lia).
        rewrite Z.add_assoc. by rewrite Z2Nat.id by lia.
      * by replace (i + 1 + 1) with (i + 1 + (1 + 0)) by lia.
      * simpl in Hfuel. lia.
Qed.
End BoundaryOnlyDecoder.

(** The decoder of src/src/mod.ts returns what a stream of well-formed runs
    stands for. *)
Lemma boundary_decompress_serialize rs :
  Forall wf_run rs -> BoundaryOnly.decompress (serialize rs) = Ret (expand rs).
Proof.
  intros Hrs. unfold BoundaryOnly.decompress, BoundaryOnly.calculateDecompressedSize.
  pose proof (len_nonneg (serialize rs)). pose proof (len_nonneg (expand rs)).
  assert (length rs < fuel_for (serialize rs))%nat as Hfuel.
  { unfold fuel_for. clear -Hrs. induction Hrs as [|r rs _ _ IH]; [simpl; lia|].
    rewrite serialize_cons. simpl length. rewrite length_app. lia. }
  rewrite (size_loop_serialize (serialize rs) rs) by (auto; lia).
  run.
  replace (alloc (0 + len (expand rs))) with ([] ++ alloc (len (expand rs))) by done.
  rewrite (expand_loop_serialize (serialize rs) (octets_serialize rs Hrs) rs)
    by (rewrite ?len_alloc; auto; lia).
  run. f_equal. rewrite sfx_all by (rewrite len_alloc; lia). by rewrite app_nil_r.
Qed.

(** ** The decoder of src/src/mod.ts on arbitrary streams *)

Lemma truncated_nonempty rest : truncated rest -> 1 <= len rest.
Proof.
  destruct 1; rewrite len_cons;
    match goal with |- 1 <= 1 + len ?l => pose proof (len_nonneg l) end; lia.
Qed.

Lemma final_noop_nonempty rest : final_noop rest -> 1 <= len rest.
Proof.
  intros (complete & raw & -> & _). rewrite len_app, len_cons, len_nil.
  pose proof (len_nonneg complete). lia.
Qed.

Lemma final_noop_after_literal h bytes rest :
  0 <= h < 128 -> len bytes = h + 1 -> final_noop rest -> final_noop (h :: bytes ++ rest).
Proof.
  intros Hh Hb (complete & raw & -> & Hc).
  exists (h :: bytes ++ complete), (bytes ++ raw). split.
  - by rewrite <- app_comm_cons, <- app_assoc.
  - by constructor.
Qed.

Lemma final_noop_after_replicate h byte rest :
  128 < h < 256 -> final_noop rest -> final_noop (h :: byte :: rest).
Proof.
  intros Hh (complete & raw & -> & Hc).
  exists (h :: byte :: complete), (replicate (Z.to_nat (257 - h)) byte ++ raw).
  split; [done|]. by constructor.
Qed.

Lemma final_noop_after_noop rest : final_noop rest -> final_noop (128 :: rest).
Proof.
  intros (complete & raw & -> & Hc). exists (128 :: complete), raw.
  split; [done|]. by constructor.
Qed.

Section BoundaryOnlyStreams.
Import BoundaryOnly.
Variable data : list Z.

Lemma size_body_end index size :
  len data <= index + 1 ->
  size_body data (size, index) = Throw (PackBitsError UnexpectedEnd).
Proof. intros ?. unfold size_body. by cases_on_tests. Qed.

Lemma size_body_literal_short_1 index size h :
  get data index = Some h -> h < 128 -> index + 1 < len data ->
  len data < index + 1 + (h + 1) ->
  size_body data (size, index) = Throw (PackBitsError LiteralRunExceeds).
Proof.
  intros Hg ???. unfold size_body, MAX_RUN_LENGTH. rewrite Hg. by cases_on_tests.
Qed.

Lemma size_body_noop_1 index size :
  get data index = Some 128 -> index + 1 < len data ->
  size_body data (size, index) = Ret (Next (size, index + 1)).
Proof.
  intros Hg ?. unfold size_body, MAX_RUN_LENGTH. rewrite Hg. by cases_on_tests.
Qed.

(** The size pass throws on a truncated stream. *)
Lemma size_loop_truncated_1 rest :
  truncated rest ->
  forall i size fuel, 0 <= i <= len data -> sfx data i = rest ->
  (length rest < fuel)%nat ->
  exists m,
    while fuel (fun '(size, index) => index <? len data) (size_body data) (size, i)
    = Throw (PackBitsError m).
Proof.
  induction 1 as [h rest Hh Hl|h Hh|h bytes rest Hh Hb Ht IH|h byte rest Hh Ht IH|rest Ht IH];
    intros i size fuel Hi Hs Hfuel; (destruct fuel as [|fuel]; [simpl in Hfuel; lia|]).
  - destruct (sfx_run_inv data i h [] rest ltac:(lia) Hs) as (Hg & Hsub & Hrest & Hlen).
    rewrite len_nil in *. pose proof (len_nonneg rest).
    destruct (decide (len rest = 0)) as [Hnil|Hne].
    + eexists. apply while_throw; [by cases_on_tests|].
      apply size_body_end. lia.
    + eexists. apply while_throw; [by cases_on_tests|].
      apply (size_body_literal_short_1 _ _ h); [done|lia|lia|lia].
  - destruct (sfx_run_inv data i h [] [] ltac:(lia) Hs) as (Hg & Hsub & Hrest & Hlen).
    rewrite len_nil in *.
    eexists. apply while_throw; [by cases_on_tests|].
    apply size_body_end. lia.
  - destruct (sfx_run_inv data i h _ rest ltac:(lia) Hs) as (Hg & Hsub & Hrest & Hlen).
    pose proof (len_nonneg rest).
    rewrite (while_next _ _ _ _ (size + (h + 1), i + 1 + (h + 1))).
    + apply IH; [lia | by rewrite <- Hb |].
      simpl in Hfuel. rewrite length_app in Hfuel. lia.
    + by cases_on_tests.
    + apply size_body_literal_1; [done|lia|lia|lia].
  - destruct (sfx_run_inv data i h [byte] rest ltac:(lia) Hs) as (Hg & Hsub & Hrest & Hlen).
    rewrite len_cons, len_nil in *. pose proof (len_nonneg rest).
    rewrite (while_next _ _ _ _ (size + (257 - h), i + 1 + 1)).
    + apply IH; [lia | | simpl in Hfuel; lia].
      by replace (i + 1 + 1) with (i + 1 + (1 + 0)) by lia.
    + by cases_on_tests.
    + apply size_body_replicate_1; [done|lia|lia].
  - destruct (sfx_run_inv data i 128 [] rest ltac:(lia) Hs) as (Hg & Hsub & Hrest & Hlen).
    rewrite len_nil in *. pose proof (truncated_nonempty rest Ht).
    rewrite (while_next _ _ _ _ (size, i + 1)).
    + apply IH; [lia | | simpl in Hfuel; lia].
      by replace (i + 1) with (i + 1 + 0) by lia.
    + by cases_on_tests.
    + apply size_body_noop_1; [done|lia].
Qed.

(** The size pass throws when the stream ends in a no-op header. *)
Lemma size_loop_final_noop complete raw :
  decodes complete raw ->
  forall i size fuel, 0 <= i <= len data -> sfx data i = complete ++ [128] ->
  (length complete < fuel)%nat ->
  while fuel (fun '(size, index) => index <? len data) (size_body data) (size, i)
  = Throw (PackBitsError UnexpectedEnd).
Proof.
  induction 1 as [|h bytes rest raw Hh Hb _ IH|h byte rest raw Hh _ IH|rest raw _ IH];
    intros i size fuel Hi Hs Hfuel; (destruct fuel as [|fuel]; [simpl in Hfuel; lia|]).
  - destruct (sfx_run_inv data i 128 [] [] ltac:(lia) Hs) as (Hg & Hsub & Hrest & Hlen).
    rewrite len_nil in *.
    apply while_throw; [by cases_on_tests|]. apply size_body_end. lia.
  - rewrite <- app_comm_cons, <- app_assoc in Hs.
    destruct (sfx_run_inv data i h _ _ ltac:(lia) Hs) as (Hg & Hsub & Hrest & Hlen).
    pose proof (len_nonneg (rest ++ [128])).
    rewrite (while_next _ _ _ _ (size + (h + 1), i + 1 + (h + 1))).
    + apply IH; [lia | by rewrite <- Hb |].
      simpl in Hfuel. rewrite length_app in Hfuel. lia.
    + by cases_on_tests.
    + apply size_body_literal_1; [done|lia|lia|lia].
  - change ((h :: byte :: rest) ++ [128]) with (h :: [byte] ++ (rest ++ [128])) in Hs.
    destruct (sfx_run_inv data i h [byte] _ ltac:(lia) Hs) as (Hg & Hsub & Hrest & Hlen).
    rewrite len_cons, len_nil in *. pose proof (len_nonneg (rest ++ [128])).
    rewrite (while_next _ _ _ _ (size + (257 - h), i + 1 + 1)).
    + apply IH; [lia | | simpl in Hfuel; lia].
      by replace (i + 1 + 1) with (i + 1 + (1 + 0)) by lia.
    + by cases_on_tests.
    + apply size_body_replicate_1; [done|lia|lia].
  - change ((128 :: rest) ++ [128]) with (128 :: [] ++ (rest ++ [128])) in Hs.
    destruct (sfx_run_inv data i 128 [] _ ltac:(lia) Hs) as (Hg & Hsub & Hrest & Hlen).
    rewrite len_nil in *.
    assert (1 <= len (rest ++ [128])) as Hne
      by (rewrite len_app, len_cons, len_nil; pose proof (len_nonneg rest); lia).
    rewrite (while_next _ _ _ _ (size, i + 1)).
    + apply IH; [lia | | simpl in Hfuel; lia].
      by replace (i + 1) with (i + 1 + 0) by lia.
    + by cases_on_tests.
    + apply size_body_noop_1; [done|lia].
Qed.

(** On a complete stream the size pass returns the length of what the
    stream stands for, unless the stream ends in a no-op header. *)
Lemma size_loop_decodes_1 rest raw :
  decodes rest raw ->
  final_noop rest \/
  forall i size fuel, 0 <= i <= len data -> sfx data i = rest ->
    (length rest < fuel)%nat ->
    while fuel (fun '(size, index) => index <? len data) (size_body data) (size, i)
    = Ret (size + len raw, len data).
Proof.
  induction 1 as [|h bytes rest raw Hh Hb Hd IH|h byte rest raw Hh Hd IH|rest raw Hd IH].
  - right. intros i size fuel Hi Hs Hfuel.
    destruct fuel as [|fuel]; [simpl in Hfuel; lia|].
    apply sfx_nil_inv in Hs; [|lia].
    rewrite while_exit by by cases_on_tests.
    rewrite len_nil. do 2 f_equal; lia.
  - destruct IH as [Hfinal|IH]; [left; by apply final_noop_after_literal|right].
    intros i size fuel Hi Hs Hfuel.
    destruct fuel as [|fuel]; [simpl in Hfuel; lia|].
    destruct (sfx_run_inv data i h _ rest ltac:(lia) Hs) as (Hg & Hsub & Hrest & Hlen).
    pose proof (len_nonneg rest).
    rewrite (while_next _ _ _ _ (size + (h + 1), i + 1 + (h + 1))).
    + rewrite IH; rewrite ?len_app; try lia.
      * do 2 f_equal. lia.
      * by rewrite <- Hb.
      * simpl in Hfuel. rewrite length_app in Hfuel. lia.
    + by cases_on_tests.
    + apply size_body_literal_1; [done|lia|lia|lia].
  - destruct IH as [Hfinal|IH]; [left; by apply final_noop_after_replicate|right].
    intros i size fuel Hi Hs Hfuel.
    destruct fuel as [|fuel]; [simpl in Hfuel; lia|].
    destruct (sfx_run_inv data i h [byte] rest ltac:(lia) Hs) as (Hg & Hsub & Hrest & Hlen).
    rewrite len_cons, len_nil in *. pose proof (len_nonneg rest).
    rewrite (while_next _ _ _ _ (size + (257 - h), i + 1 + 1)).
    + rewrite IH; rewrite ?len_app, ?len_replicate; try lia.
      * do 2 f_equal. lia.
      * by replace (i + 1 + 1) with (i + 1 + (1 + 0)) by lia.
      * simpl in Hfuel. lia.
    + by cases_on_tests.
    + apply size_body_replicate_1; [done|lia|lia].
  - destruct IH as [Hfinal|IH]; [left; by apply final_noop_after_noop|].
    destruct rest as [|x rest].
    { left. exists [], []. split; [done|constructor]. }
    right. intros i size fuel Hi Hs Hfuel.
    destruct fuel as [|fuel]; [simpl in Hfuel; lia|].
    destruct (sfx_run_inv data i 128 [] (x :: rest) ltac:(lia) Hs)
      as (Hg & Hsub & Hrest & Hlen).
    rewrite len_nil, len_cons in *. pose proof (len_nonneg rest).
    rewrite (while_next _ _ _ _ (size, i + 1)).
    + rewrite IH; try lia; [done | | simpl in Hfuel; simpl; lia].
      by replace (i + 1) with (i + 1 + 0) by lia.
    + by cases_on_tests.
    + apply size_body_noop_1; [done|lia].
Qed.

Hypothesis data_octets : octets data.

Lemma expand_body_noop_1 i result w :
  get data i = Some 128 ->
  expand_body data (result, w, i) = Ret (Next (result, w, i + 1)).
Proof. intros Hg. unfold expand_body. by rewrite Hg. Qed.

(** The expansion pass writes what a complete stream stands for. *)
Lemma expand_loop_decodes_1 rest raw :
  decodes rest raw ->
  forall i out junk w fuel, 0 <= i <= len data -> sfx data i = rest ->
  w = len out -> len raw <= len junk -> (length rest < fuel)%nat ->
  while fuel (fun '(result, writeIndex, readIndex) => readIndex <? len data)
    (expand_body data) (out ++ junk, w, i)
  = Ret (out ++ raw ++ sfx junk (len raw), w + len raw, len data).
Proof.
  induction 1 as [|h bytes rest raw Hh Hb _ IH|h byte rest raw Hh _ IH|rest raw _ IH];
    intros i out junk w fuel Hi Hs Hw Hj Hfuel;
    (destruct fuel as [|fuel]; [simpl in Hfuel; lia|]).
  - apply sfx_nil_inv in Hs; [|lia].
    rewrite while_exit by by cases_on_tests.
    rewrite len_nil, sfx_0, Z.add_0_r. simpl.
    by replace i with (len data) by lia.
  - destruct (sfx_run_inv data i h _ rest ltac:(lia) Hs) as (Hg & Hsub & Hrest & Hlen).
    pose proof (len_nonneg rest). pose proof (len_nonneg raw).
    rewrite len_app in Hj.
    erewrite while_next; [|by cases_on_tests|].
    2:{ apply expand_body_literal_1; [done|lia|done|lia|lia|done|lia]. }
    rewrite <- Hb, Hsub, app_assoc.
    rewrite IH; rewrite ?len_app, ?len_sfx; try lia.
    + rewrite <- !app_assoc, sfx_sfx by (try apply len_nonneg; lia).
      by rewrite Z.add_assoc.
    + done.
    + simpl in Hfuel. rewrite length_app in Hfuel. lia.
  - destruct (sfx_run_inv data i h [byte] rest ltac:(lia) Hs) as (Hg & Hsub & Hrest & Hlen).
    rewrite len_cons, len_nil in *. pose proof (len_nonneg rest).
    pose proof (len_nonneg raw). rewrite len_app, len_replicate in Hj.
    assert (get data (i + 1) = Some byte) as Hbyte.
    { destruct (sfx_cons_inv data i h (byte :: rest)) as (_ & Hs1 & _); [lia|done|].
      by destruct (sfx_cons_inv data (i + 1) byte rest) as (? & _); [lia|done|]. }
    erewrite while_next; [|by cases_on_tests|].
    2:{ apply (expand_body_replicate_1 data data_octets i h byte);
          [lia|done|done|lia|done|lia]. }
    rewrite app_assoc.
    rewrite IH; rewrite ?len_app, ?len_replicate, ?len_sfx; try lia.
    + rewrite <- !app_assoc, sfx_sfx by (try apply len_nonneg; lia).
      rewrite Z.add_assoc. by rewrite Z2Nat.id by lia.
    + by replace (i + 1 + 1) with (i + 1 + (1 + 0)) by lia.
    + simpl in Hfuel. lia.
  - destruct (sfx_run_inv data i 128 [] rest ltac:(lia) Hs) as (Hg & Hsub & Hrest & Hlen).
    rewrite len_nil in *. pose proof (len_nonneg rest).
    erewrite while_next; [|by cases_on_tests|by apply expand_body_noop_1].
    rewrite IH; try lia; [done | | simpl in Hfuel; lia].
    by replace (i + 1) with (i + 1 + 0) by lia.
Qed.
End BoundaryOnlyStreams.

(** The decoder of src/src/mod.ts throws on a truncated stream. *)
Lemma boundary_decompress_truncated packed :
  truncated packed -> exists m, BoundaryOnly.decompress packed = Throw (PackBitsError m).
Proof.
  intros Ht. unfold BoundaryOnly.decompress, BoundaryOnly.calculateDecompressedSize.
  pose proof (len_nonneg packed).
  destruct (size_loop_truncated_1 packed packed Ht 0 0 (fuel_for packed)) as [m Hm];
    [lia | done | unfold fuel_for; lia |].
  rewrite Hm. run. eauto.
Qed.

(** It throws as well on a stream that ends in the no-op header, truncated or
    not. *)
Lemma boundary_decompress_final_noop packed :
  final_noop packed -> BoundaryOnly.decompress packed = Throw (PackBitsError UnexpectedEnd).
Proof.
  intros (complete & raw & -> & Hc).
  unfold BoundaryOnly.decompress, BoundaryOnly.calculateDecompressedSize.
  pose proof (len_nonneg (complete ++ [128])).
  rewrite (size_loop_final_noop (complete ++ [128]) complete raw Hc 0 0);
    [by run | lia | done |].
  unfold fuel_for. rewrite length_app. simpl. lia.
Qed.

(** On every other complete stream it returns what the stream stands for. *)
Lemma boundary_decompress_decodes packed raw :
  octets packed -> decodes packed raw ->
  final_noop packed \/ BoundaryOnly.decompress packed = Ret raw.
Proof.
  intros Ho Hd. destruct (size_loop_decodes_1 packed packed raw Hd) as [?|Hsize];
    [by left|right].
  unfold BoundaryOnly.decompress, BoundaryOnly.calculateDecompressedSize.
  pose proof (len_nonneg packed). pose proof (len_nonneg raw).
  rewrite Hsize by (unfold fuel_for; auto; lia).
  run.
  replace (alloc (0 + len raw)) with ([] ++ alloc (len raw)) by done.
  rewrite (expand_loop_decodes_1 packed Ho packed raw)
    by (rewrite ?len_alloc; unfold fuel_for; auto; lia).
  run. f_equal. rewrite sfx_all by (rewrite len_alloc; lia). by rewrite app_nil_r.
Qed.

(** The decoder of src/src/mod.ts fails exactly on the truncated streams and
    on the streams that end in the no-op header. *)
Lemma boundary_decompress_fails_iff packed :
  octets packed ->
  (exists m, BoundaryOnly.decompress packed = Throw (PackBitsError m))
  <-> truncated packed \/ final_noop packed.
Proof.
  intros Ho. split.
  - intros [m Hm]. destruct (decodes_or_truncated packed Ho) as [[raw Hraw]|Ht]; [|by left].
    destruct (boundary_decompress_decodes packed raw Ho Hraw) as [?|Hret]; [by right|].
    rewrite Hret in Hm. discriminate.
  - intros [Ht|Hf]; [by apply boundary_decompress_truncated|].
    eexists. by apply boundary_decompress_final_noop.
Qed.

(** * Repeats and single bytes of the input *)

Section Runs.
Variable data : list Z.

Lemma is_run_1_single r : 0 <= r < len data -> is_run data r 1 <-> single data r.
Proof.
  intros Hr. unfold is_run, single, MAX_RUN_LENGTH. split.
  - intros (_ & _ & _ & [?|[?|?]]); [lia|left; lia|right; congruence].
  - intros Hs. repeat split; try lia.
    + intros i ?. by replace i with r by lia.
    + destruct Hs; [right; left; lia|right; right; congruence].
Qed.

Lemma is_run_unique r k k' : is_run data r k -> is_run data r k' -> k = k'.
Proof.
  unfold is_run, MAX_RUN_LENGTH.
  intros (Hk & Hn & Hall & Hstop) (Hk' & Hn' & Hall' & Hstop').
  destruct (Z.lt_trichotomy k k') as [Hlt|[?|Hgt]]; [|done|].
  - destruct Hstop as [?|[?|Hne]]; [lia|lia|].
    destruct Hne. apply Hall'. lia.
  - destruct Hstop' as [?|[?|Hne]]; [lia|lia|].
    destruct Hne. apply Hall. lia.
Qed.

(** Look for repeated bytes (src/src/mod.ts). *)
Lemma lookForRepeated_spec r :
  0 <= r < len data ->
  exists k, is_run data r k /\ BoundaryOnly.lookForRepeated data r r = Ret (r + k - 1).
Proof.
  intros Hr. unfold BoundaryOnly.lookForRepeated.
  while_inv
    (fun readIndex => r <= readIndex < len data /\ readIndex - r <= 127 /\
       forall i, r <= i <= readIndex -> get data i = get data r)
    (fun readIndex => is_run data r (readIndex - r + 1))
    (fun readIndex => Z.to_nat (len data - readIndex)) Hloop;
    [| |split; [|split]| |destruct Hloop as (e & He & Hrun)].
  - intros readIndex (Hri & Hcap & Hall) Hc.
    unfold is_run, MAX_RUN_LENGTH in *. repeat split; try lia.
    + intros i ?. apply Hall. lia.
    + apply andb_false_iff in Hc as [Hc|Hc]; [apply andb_false_iff in Hc as [Hc|Hc]|].
      * right; left. apply Z.ltb_ge in Hc. lia.
      * right; right. apply bool_decide_eq_false in Hc.
        replace (r + (readIndex - r + 1)) with (readIndex + 1) by lia.
        rewrite <- (Hall readIndex) by lia. congruence.
      * left. apply Z.ltb_ge in Hc. lia.
  - intros readIndex (Hri & Hcap & Hall) Hc. left.
    apply andb_true_iff in Hc as [Hc Hc3]. apply andb_true_iff in Hc as [Hc1 Hc2].
    apply Z.ltb_lt in Hc1, Hc3. apply bool_decide_eq_true in Hc2.
    unfold MAX_RUN_LENGTH in *.
    eexists. split; [done|]. split; [|lia]. repeat split; try lia.
    intros i ?. destruct (decide (i = readIndex + 1)) as [->|]; [|apply Hall; lia].
    rewrite <- Hc2. apply Hall. lia.
  - lia.
  - lia.
  - intros i ?. by replace i with r by lia.
  - unfold fuel_for, len in *. lia.
  - exists (e - r + 1). split; [done|]. rewrite He. f_equal. lia.
Qed.

(** Count consecutive repeated bytes (part_000, first module). *)
Lemma countRepeated_spec r :
  0 <= r < len data ->
  exists k, is_run data r k /\ ContextAware.countRepeated data r = Ret k.
Proof.
  intros Hr. unfold ContextAware.countRepeated.
  while_inv
    (fun repeatCount => 1 <= repeatCount <= 128 /\ r + repeatCount <= len data /\
       forall i, r <= i < r + repeatCount -> get data i = get data r)
    (fun repeatCount => is_run data r repeatCount)
    (fun repeatCount => Z.to_nat (len data - repeatCount)) Hloop;
    [| |split; [|split]| |destruct Hloop as (k & Hk & Hrun)].
  - intros k (Hk & Hn & Hall) Hc.
    unfold is_run, MAX_RUN_LENGTH in *. repeat split; try lia; [done|].
    apply andb_false_iff in Hc as [Hc|Hc]; [apply andb_false_iff in Hc as [Hc|Hc]|].
    + right; left. apply Z.ltb_ge in Hc. lia.
    + right; right. by apply bool_decide_eq_false in Hc.
    + left. apply Z.ltb_ge in Hc. lia.
  - intros k (Hk & Hn & Hall) Hc. left.
    apply andb_true_iff in Hc as [Hc Hc3]. apply andb_true_iff in Hc as [Hc1 Hc2].
    apply Z.ltb_lt in Hc1, Hc3. apply bool_decide_eq_true in Hc2.
    unfold MAX_RUN_LENGTH in *.
    eexists. split; [done|]. split; [|lia]. repeat split; try lia.
    intros i ?. destruct (decide (i = r + k)) as [->|]; [done|apply Hall; lia].
  - lia.
  - lia.
  - intros i ?. by replace i with r by lia.
  - unfold fuel_for, len in *. lia.
  - eauto.
Qed.

(** Collect literal bytes (src/src/mod.ts). *)
Lemma collectLiteral_spec r :
  0 <= r < len data -> single data r ->
  exists c, is_literal data r c /\ BoundaryOnly.collectLiteral data r 0 = Ret (r + c, c).
Proof.
  intros Hr Hs. unfold BoundaryOnly.collectLiteral.
  while_inv
    (fun s : Z * Z => let '(readIndex, literalCount) := s in
       readIndex = r + literalCount /\ 0 <= literalCount <= 128 /\
       readIndex <= len data /\ (literalCount = 0 -> single data r) /\
       forall i, r <= i < readIndex -> single data i)
    (fun s : Z * Z => let '(readIndex, literalCount) := s in
       readIndex = r + literalCount /\ is_literal data r literalCount)
    (fun s : Z * Z => Z.to_nat (len data - s.1)) Hloop;
    [| |split; [|split; [|split; [|split]]]|
     |destruct Hloop as ([e c] & He & -> & Hlit)].
  - intros [readIndex c] (-> & Hc & Hn & H0 & Hall) Hcond. split; [done|].
    assert (c <> 0) as Hc0.
    { intros ->. specialize (H0 eq_refl). unfold single in H0.
      rewrite Z.add_0_r in Hcond.
      destruct (Z.ltb_spec r (len data)); [|lia]. simpl in Hcond.
      destruct (Z.eqb_spec r (len data - 1)); [done|]. simpl in Hcond.
      apply negb_false_iff, bool_decide_eq_true in Hcond. by destruct H0. }
    unfold is_literal, MAX_RUN_LENGTH in *. repeat split; try lia; [done|].
    apply andb_false_iff in Hcond as [Hcond|Hcond];
      [apply andb_false_iff in Hcond as [Hcond|Hcond]|].
    + right; left. apply Z.ltb_ge in Hcond. lia.
    + left. apply Z.ltb_ge in Hcond. lia.
    + right; right. apply orb_false_iff in Hcond as [Hc1 Hc2].
      apply Z.eqb_neq in Hc1. apply negb_false_iff, bool_decide_eq_true in Hc2.
      unfold single. intros [?|?]; [lia|done].
  - intros [readIndex c] (-> & Hc & Hn & H0 & Hall) Hcond. left.
    apply andb_true_iff in Hcond as [Hcond Hc3].
    apply andb_true_iff in Hcond as [Hc1 Hc2].
    apply Z.ltb_lt in Hc1, Hc2. unfold MAX_RUN_LENGTH in *.
    eexists. split; [done|]. split; [|simpl; lia].
    split; [lia|]. split; [lia|]. split; [lia|]. split; [lia|].
    intros i ?. destruct (decide (i = r + c)) as [->|]; [|apply Hall; lia].
    apply orb_true_iff in Hc3 as [Hc3|Hc3].
    + left. by apply Z.eqb_eq in Hc3.
    + right. by apply negb_true_iff, bool_decide_eq_false in Hc3.
  - lia.
  - lia.
  - lia.
  - done.
  - intros i ?. lia.
  - unfold fuel_for, len in *. simpl. lia.
  - eauto.
Qed.
End Runs.

(** * The maximal repeats of the input *)

Lemma groups_cons x l :
  groups (x :: l)
  = match groups l with
    | (y, k) :: gs =>
        if bool_decide (x = y) then (x, k + 1) :: gs else (x, 1) :: (y, k) :: gs
    | [] => [(x, 1)]
    end.
Proof. reflexivity. Qed.

Lemma groups_head l :
  match l, groups l with
  | [], [] => True
  | x :: _, (y, k) :: _ => x = y /\ 1 <= k
  | _, _ => False
  end.
Proof.
  induction l as [|x l IH]; [done|]. rewrite groups_cons.
  destruct l as [|x' l]; [done|].
  destruct (groups (x' :: l)) as [|[y k] gs]; [done|]. destruct IH as [_ ?].
  case_bool_decide; (split; [done|lia]).
Qed.

Lemma groups_cons_ne x l :
  head l <> Some x -> groups (x :: l) = (x, 1) :: groups l.
Proof.
  intros Hne. rewrite groups_cons. pose proof (groups_head l) as Hh.
  destruct l as [|x' l]; [done|].
  destruct (groups (x' :: l)) as [|[y k] gs]; [done|]. destruct Hh as [-> _].
  rewrite bool_decide_false; [done|]. intros ->. by destruct Hne.
Qed.

Lemma groups_cons_eq x l k gs :
  groups l = (x, k) :: gs -> groups (x :: l) = (x, k + 1) :: gs.
Proof. intros Hg. simpl. rewrite Hg. by rewrite bool_decide_true. Qed.

Lemma groups_replicate (m : nat) v l :
  head l <> Some v ->
  groups (replicate (S m) v ++ l) = (v, Z.of_nat (S m)) :: groups l.
Proof.
  intros Hne. induction m as [|m IH].
  - by apply groups_cons_ne.
  - change (replicate (S (S m)) v ++ l) with (v :: (replicate (S m) v ++ l)).
    rewrite (groups_cons_eq _ _ _ _ IH). do 2 f_equal. lia.
Qed.

Section RunsAndGroups.
Variable data : list Z.

Lemma is_run_sub r k v :
  0 <= r -> is_run data r k -> get data r = Some v ->
  sub data r k = replicate (Z.to_nat k) v.
Proof.
  intros Hr (Hk & Hn & Hall & _) Hv. apply sub_const; [lia|lia|].
  intros j ?. rewrite <- Hv. by apply Hall.
Qed.

Lemma is_run_sfx r k v :
  0 <= r -> is_run data r k -> get data r = Some v ->
  sfx data r = replicate (Z.to_nat k) v ++ sfx data (r + k).
Proof.
  intros Hr Hrun Hv. rewrite <- (is_run_sub r k v) by done.
  rewrite <- sfx_sfx by (destruct Hrun; lia). by rewrite sub_sfx.
Qed.

Lemma head_sfx i : 0 <= i -> head (sfx data i) = get data i.
Proof.
  intros Hi. unfold sfx, get. destruct (Z.leb_spec 0 i); [|lia].
  by rewrite head_lookup, lookup_drop, Nat.add_0_r.
Qed.

(** On an input of at most 128 bytes a repeat found by the scan is a
    maximal repeat of the rest of the input. *)
Lemma is_run_groups r k v :
  len data <= 128 -> 0 <= r -> is_run data r k -> get data r = Some v ->
  groups (sfx data r) = (v, k) :: groups (sfx data (r + k)).
Proof.
  intros Hlen Hr Hrun Hv. rewrite (is_run_sfx r k v) by done.
  destruct Hrun as (Hk & Hn & Hall & Hstop). unfold MAX_RUN_LENGTH in *.
  replace (Z.to_nat k) with (S (Z.to_nat (k - 1))) by lia.
  rewrite groups_replicate.
  - do 2 f_equal. lia.
  - rewrite head_sfx by lia. destruct Hstop as [->|[Heq|Hne]].
    + rewrite get_None; [done|lia].
    + rewrite get_None; [done|lia].
    + congruence.
Qed.

Lemma single_groups i v :
  len data <= 128 -> 0 <= i < len data -> single data i -> get data i = Some v ->
  groups (sfx data i) = (v, 1) :: groups (sfx data (i + 1)).
Proof.
  intros ?? Hs Hv. apply is_run_groups; [done|lia| |done].
  by apply is_run_1_single.
Qed.

(** The single bytes of a literal stretch are repeats of one byte each. *)
Lemma is_literal_groups r c :
  len data <= 128 -> 0 <= r -> is_literal data r c ->
  groups (sfx data r)
  = map (fun v => (v, 1)) (sub data r c) ++ groups (sfx data (r + c)).
Proof.
  intros Hlen Hr (Hc & Hn & Hall & _).
  assert (forall (m : nat) r', r <= r' -> r' + Z.of_nat m <= r + c ->
            groups (sfx data r')
            = map (fun v => (v, 1)) (sub data r' (Z.of_nat m))
                ++ groups (sfx data (r' + Z.of_nat m))) as Hgen.
  { induction m as [|m IH]; intros r' Hr' Hm.
    - change (Z.of_nat 0) with 0. by rewrite sub_0, Z.add_0_r.
    - destruct (get_lt_is_Some data r') as [v Hv]; [lia|].
      rewrite (single_groups r' v) by (try done; try apply Hall; lia).
      rewrite (sub_cons _ _ _ v) by (try done; lia).
      replace (Z.of_nat (S m) - 1) with (Z.of_nat m) by lia.
      rewrite IH by lia. simpl.
      by replace (r' + 1 + Z.of_nat m) with (r' + Z.of_nat (S m)) by lia. }
  specialize (Hgen (Z.to_nat c) r). rewrite Z2Nat.id in Hgen by lia.
  apply Hgen; lia.
Qed.

(** After a literal stretch the input ends or a repeat of two or more bytes
    starts. *)
Lemma is_literal_next r c :
  len data <= 128 -> 0 <= r -> is_literal data r c ->
  match groups (sfx data (r + c)) with
  | [] => True
  | (_, k) :: _ => 2 <= k
  end.
Proof.
  intros Hlen Hr (Hc & Hn & Hall & Hstop). unfold MAX_RUN_LENGTH in *.
  destruct (decide (r + c = len data)) as [Heq|Hne].
  { by rewrite sfx_all by lia. }
  destruct Hstop as [->|[?|Hns]]; [lia|lia|].
  destruct (countRepeated_spec data (r + c)) as (k & Hrun & _); [lia|].
  destruct (get_lt_is_Some data (r + c)) as [v Hv]; [lia|].
  rewrite (is_run_groups _ k v) by (try done; lia).
  destruct (decide (k = 1)) as [->|]; [|destruct Hrun; lia].
  destruct Hns. apply is_run_1_single; [lia|done].
Qed.
End RunsAndGroups.

(** ** The two segmentations *)

Lemma boundary_runs_singles vs : forall open gs,
  boundary_runs open (map (fun v => (v, 1)) vs ++ gs) = boundary_runs (open ++ vs) gs.
Proof.
  induction vs as [|v vs IH]; intros open gs; [by rewrite app_nil_r|].
  simpl. rewrite IH. by rewrite <- app_assoc.
Qed.

Lemma boundary_runs_closed open gs :
  match gs with [] => True | (_, k) :: _ => 2 <= k end ->
  boundary_runs open gs = flush open ++ boundary_runs [] gs.
Proof.
  destruct gs as [|[v k] gs]; simpl; [by rewrite app_nil_r|].
  intros ?. destruct (Z.eqb_spec k 1); [lia|done].
Qed.

Lemma context_runs_singles vs : forall open gs,
  context_runs open (map (fun v => (v, 1)) vs ++ gs) = context_runs (open ++ vs) gs.
Proof.
  induction vs as [|v vs IH]; intros open gs; [by rewrite app_nil_r|].
  simpl. rewrite IH. by rewrite <- app_assoc.
Qed.

(** * The encoder of src/src/mod.ts *)

Lemma write_two out junk w (a b : Z) :
  w = len out -> 2 <= len junk -> 0 <= a < 256 -> 0 <= b < 256 ->
  set (set (out ++ junk) w (Some a)) (w + 1) (Some b) = out ++ [a; b] ++ sfx junk 2.
Proof.
  intros -> Hj Ha Hb.
  destruct junk as [|x [|y junk]]; rewrite ?len_cons, ?len_nil in Hj; try lia.
  rewrite set_app_len, (ToUint8_octet a) by done.
  replace (out ++ a :: y :: junk) with ((out ++ [a]) ++ y :: junk)
    by by rewrite <- app_assoc.
  replace (len out + 1) with (len (out ++ [a]))
    by (rewrite len_app, len_cons, len_nil; lia).
  rewrite set_app_len, (ToUint8_octet b) by done.
  by rewrite <- app_assoc.
Qed.

Lemma write_literal data out junk w r c :
  octets data -> 0 <= r -> 1 <= c <= 128 -> r + c <= len data ->
  w = len out -> c + 1 <= len junk ->
  BoundaryOnly.writeLiteral data (out ++ junk) w r c
  = (out ++ (c - 1) :: sub data r c ++ sfx junk (c + 1), w + 1 + c).
Proof.
  intros Hd Hr Hc Hn -> Hj. unfold BoundaryOnly.writeLiteral.
  destruct junk as [|x junk]; rewrite ?len_cons, ?len_nil in Hj; try lia.
  rewrite set_app_len, (ToUint8_octet (c - 1)) by lia.
  replace (out ++ c - 1 :: junk) with ((out ++ [c - 1]) ++ junk)
    by by rewrite <- app_assoc.
  replace (len out + 1) with (len (out ++ [c - 1]))
    by (rewrite len_app, len_cons, len_nil; lia).
  rewrite copy_range by (try done; lia).
  rewrite <- app_assoc. simpl. f_equal.
  unfold sfx. by replace (Z.to_nat (c + 1)) with (S (Z.to_nat c)) by lia.
Qed.

Section BoundaryOnlyEncoder.
Import BoundaryOnly.
Variable data : list Z.
Hypothesis data_octets : octets data.

Lemma compress_body_replicate out junk w r k v :
  0 <= r -> is_run data r k -> 2 <= k -> get data r = Some v ->
  w = len out -> 2 <= len junk ->
  compress_body data (out ++ junk, w, r)
  = Ret (Next (out ++ [257 - k; v] ++ sfx junk 2, w + 2, r + k)).
Proof.
  intros Hr Hrun Hk Hv Hw Hj. unfold compress_body.
  destruct (lookForRepeated_spec data r) as (k' & Hrun' & ->);
    [destruct Hrun; lia|].
  rewrite (is_run_unique _ _ _ _ Hrun' Hrun). run.
  destruct (Z.ltb_spec 1 (r + k - 1 - r + 1)); [|lia].
  replace (r + k - 1 - r + 1) with k by lia. rewrite Hv.
  rewrite write_two; [|done|done|destruct Hrun; unfold MAX_RUN_LENGTH in *; lia
                       |eauto using get_octet].
  replace (w + 1 + 1) with (w + 2) by lia.
  by replace (r + k - 1 + 1) with (r + k) by lia.
Qed.

Lemma compress_body_literal out junk w r :
  0 <= r < len data -> single data r ->
  w = len out -> 2 * (len data - r) <= len junk ->
  exists c, is_literal data r c /\
    compress_body data (out ++ junk, w, r)
    = Ret (Next (out ++ (c - 1) :: sub data r c ++ sfx junk (c + 1), w + 1 + c, r + c)).
Proof.
  intros Hr Hs Hw Hj. unfold compress_body.
  destruct (lookForRepeated_spec data r) as (k' & Hrun' & ->); [done|].
  apply is_run_1_single in Hs as Hrun; [|done].
  rewrite (is_run_unique _ _ _ _ Hrun' Hrun). run.
  destruct (Z.ltb_spec 1 (r + 1 - 1 - r + 1)); [lia|].
  replace (r + 1 - 1) with r by lia.
  destruct (collectLiteral_spec data r Hr Hs) as (c & Hlit & ->). run.
  exists c. split; [done|].
  destruct Hlit as (Hc & Hn & _). unfold MAX_RUN_LENGTH in *.
  by rewrite write_literal by (try done; lia).
Qed.

Lemma compress_body_inv s :
  encoder_inv data (boundary_runs []) s -> s.2 < len data ->
  exists s', compress_body data s = Ret (Next s') /\
    encoder_inv data (boundary_runs []) s' /\ s.2 < s'.2.
Proof.
  destruct s as [[result w] r]. cbn [snd].
  intros (Hr & rs & junk & Hwf & -> & -> & Hexp & Hcap & Hexact) Hlt.
  destruct (get_lt_is_Some data r) as [v Hv]; [lia|].
  destruct (countRepeated_spec data r) as (k & Hrun & _); [lia|].
  pose proof Hrun as (Hk & Hn & _). unfold MAX_RUN_LENGTH in *.
  destruct (decide (k = 1)) as [->|Hk1].
  - apply is_run_1_single in Hrun as Hs; [|lia].
    destruct (compress_body_literal (serialize rs) junk (len (serialize rs)) r)
      as (c & Hlit & ->);
      [lia|done|done|lia|].
    pose proof Hlit as (Hc & Hnc & _). unfold MAX_RUN_LENGTH in *.
    eexists. split; [done|]. split; [|cbn [snd]; lia]. split; [lia|].
    exists (rs ++ [Literal (sub data r c)]), (sfx junk (c + 1)).
    assert (len (sub data r c) = c) as Hlen by (apply len_sub; lia).
    split; [|split; [|split; [|split; [|split]]]].
    + apply Forall_app. split; [done|]. apply Forall_singleton. simpl.
      split; [lia|by apply octets_sub].
    + rewrite serialize_app, serialize_singleton, <- app_assoc. simpl.
      by rewrite Hlen.
    + rewrite serialize_app, serialize_singleton, len_app. simpl.
      rewrite len_cons, Hlen. lia.
    + by rewrite expand_app, expand_singleton, Hexp, pre_extend by lia.
    + rewrite len_sfx by (pose proof (len_nonneg junk); lia). lia.
    + intros Hshort. rewrite <- Hexact by done.
      rewrite (is_literal_groups data r c) by (try done; lia).
      rewrite boundary_runs_singles, app_nil_l.
      rewrite (boundary_runs_closed (sub data r c))
        by (apply is_literal_next; try done; lia).
      rewrite <- app_assoc. simpl.
      destruct (sub data r c) eqn:Hsub; [rewrite len_nil in Hlen; lia|done].
  - rewrite (compress_body_replicate (serialize rs) junk (len (serialize rs)) r k v)
      by (try done; lia).
    eexists. split; [done|]. split; [|cbn [snd]; lia]. split; [lia|].
    exists (rs ++ [Replicate k v]), (sfx junk 2).
    split; [|split; [|split; [|split; [|split]]]].
    + apply Forall_app. split; [done|]. apply Forall_singleton. simpl.
      split; [lia|eauto using get_octet].
    + by rewrite serialize_app, serialize_singleton, <- app_assoc.
    + rewrite serialize_app, serialize_singleton, len_app. simpl.
      rewrite !len_cons, len_nil. lia.
    + rewrite expand_app, expand_singleton, Hexp, pre_extend by lia. simpl.
      by rewrite (is_run_sub data r k v) by (try done; lia).
    + rewrite len_sfx by (pose proof (len_nonneg junk); lia). lia.
    + intros Hshort. rewrite <- Hexact by done.
      rewrite (is_run_groups data r k v) by (try done; lia).
      simpl. destruct (Z.eqb_spec k 1); [lia|]. by rewrite <- app_assoc.
Qed.
End BoundaryOnlyEncoder.

(** [compress] of src/src/mod.ts returns a stream of well-formed runs that
    stands for the input; on an input of at most 128 bytes the runs are those
    of [boundary_runs]. *)
Lemma boundary_compress_runs data :
  octets data ->
  exists rs, BoundaryOnly.compress data = Ret (serialize rs) /\
    Forall wf_run rs /\ expand rs = data /\
    (len data <= 128 -> rs = boundary_runs [] (groups data)).
Proof.
  intros Hd. unfold BoundaryOnly.compress, BoundaryOnly.compress_loop.
  pose proof (len_nonneg data) as Hlen.
  while_inv (encoder_inv data (boundary_runs []))
    (fun s : list Z * Z * Z => encoder_inv data (boundary_runs []) s /\ s.2 = len data)
    (fun s : list Z * Z * Z => Z.to_nat (len data - s.2)) Hloop.
  - intros [[result w] r] Hinv Hc. split; [done|]. simpl.
    apply Z.ltb_ge in Hc. destruct Hinv as [? _]. lia.
  - intros [[result w] r] Hinv Hc. left. apply Z.ltb_lt in Hc.
    destruct (compress_body_inv data Hd _ Hinv Hc) as (s' & Hs' & Hinv' & Hlt).
    exists s'. split; [done|]. split; [done|]. simpl in *.
    destruct s' as [[? ?] r']. simpl in *. destruct Hinv' as [? _]. lia.
  - split; [lia|]. exists [], (alloc (2 * len data)).
    split; [constructor|]. split; [done|]. split; [done|]. split; [done|].
    split; [rewrite len_alloc; lia|]. intros _. by rewrite sfx_0.
  - simpl. unfold fuel_for, len. lia.
  - destruct Hloop as ([[result w] r] & -> & Hinv & Hr). simpl in Hr. subst r.
    destruct Hinv as (_ & rs & junk & Hwf & -> & -> & Hexp & _ & Hexact). run.
    exists rs. rewrite slice_prefix. split; [done|]. split; [done|].
    split; [by rewrite Hexp, pre_all by lia|].
    intros Hshort. specialize (Hexact Hshort).
    rewrite sfx_all in Hexact by lia. simpl in Hexact. by rewrite app_nil_r in Hexact.
Qed.

(** * The context-aware encoder (part_000, first module) *)

Lemma sub_extend a i c k :
  0 <= i -> 0 <= c -> 0 <= k -> sub a i (c + k) = sub a i c ++ sub a (i + c) k.
Proof.
  intros. unfold sub. rewrite <- sfx_sfx by lia. unfold sfx at 3.
  rewrite take_take_drop. f_equal. lia.
Qed.

Lemma context_write_literal data out junk w r c :
  octets data -> 0 <= r -> 0 <= c <= 128 -> r + c <= len data ->
  w = len out -> c + 1 <= len junk ->
  ContextAware.writeLiteral data (out ++ junk) w r c
  = (out ++ serialize (flush (sub data r c)) ++ sfx junk (len (serialize (flush (sub data r c)))),
     w + len (serialize (flush (sub data r c)))).
Proof.
  intros Hd Hr Hc Hn Hw Hj. unfold ContextAware.writeLiteral.
  destruct (Z.ltb_spec 0 c).
  - pose proof (write_literal data out junk w r c Hd Hr ltac:(lia) Hn Hw Hj) as Hwl.
    unfold BoundaryOnly.writeLiteral in Hwl. rewrite Hwl.
    assert (len (sub data r c) = c) as Hlen by (apply len_sub; lia).
    destruct (sub data r c) as [|x l] eqn:Hsub; [rewrite len_nil in Hlen; lia|].
    unfold flush. rewrite serialize_singleton. simpl header. simpl payload.
    rewrite Hlen, !len_cons. rewrite len_cons in Hlen.
    replace (1 + (1 + len l)) with (c + 1) by lia.
    replace (w + (c + 1)) with (w + 1 + c) by lia. done.
  - replace c with 0 by lia. rewrite sub_0. simpl.
    by rewrite sfx_0, Z.add_0_r.
Qed.

Section ContextAwareEncoder.
Import ContextAware.
Variable data : list Z.
Hypothesis data_octets : octets data.

(** What the literal-collecting loop returns: the bytes absorbed, and
    whether a replicate run follows. *)
Lemma absorb_spec r :
  0 <= r < len data ->
  exists r' c,
    absorb data r 0 = Ret (r', c) /\
    r' = r + c /\ 0 <= c <= 128 /\ r' <= len data /\
    (len data <= 128 ->
     context_runs (sub data r c) (groups (sfx data r'))
     = context_runs [] (groups (sfx data r))) /\
    ((0 < c /\ (len data <= r' \/ c = 128)) \/
     (r' < len data /\ c < 128 /\
      exists k, is_run data r' k /\ (3 <= k \/ (k = 2 /\ c = 0)))).
Proof.
  intros Hr. unfold absorb.
  set (I := fun s : Z * Z => let '(r', c) := s in
    r' = r + c /\ 0 <= c <= 128 /\ r' <= len data /\
    (len data <= 128 ->
     context_runs (sub data r c) (groups (sfx data r'))
     = context_runs [] (groups (sfx data r)))).
  while_inv I
    (fun s : Z * Z => I s /\ let '(r', c) := s in
       ((0 < c /\ (len data <= r' \/ c = 128)) \/
        (r' < len data /\ c < 128 /\
         exists k, is_run data r' k /\ (3 <= k \/ (k = 2 /\ c = 0)))))
    (fun s : Z * Z => Z.to_nat (len data - s.1)) Hloop.
  - intros [r' c] HI Hc. split; [done|]. left.
    destruct HI as (-> & Hc' & Hn & _). unfold MAX_RUN_LENGTH in *.
    apply andb_false_iff in Hc as [Hc|Hc]; apply Z.ltb_ge in Hc; lia.
  - intros [r' c] HI Hc. pose proof HI as (-> & Hc' & Hn & Hexact).
    apply andb_true_iff in Hc as [Hc1 Hc2]. apply Z.ltb_lt in Hc1, Hc2.
    unfold MAX_RUN_LENGTH in *. unfold absorb_body.
    destruct (countRepeated_spec data (r + c)) as (k & Hrun & ->); [lia|]. run.
    pose proof Hrun as (Hk & Hnk & _). unfold MAX_RUN_LENGTH in *.
    destruct (get_lt_is_Some data (r + c)) as [v Hv]; [lia|].
    destruct ((3 <=? k) || (k =? 2) && (c =? 0)) eqn:Hstart.
    + right. eexists. split; [done|]. split; [done|]. right.
      split; [lia|]. split; [lia|]. exists k. split; [done|].
      apply orb_true_iff in Hstart as [Hs|Hs]; [left; by apply Z.leb_le|].
      apply andb_true_iff in Hs as [Hs1 Hs2]. right. split; lia.
    + left. apply orb_false_iff in Hstart as [Hs1 Hs2]. apply Z.leb_gt in Hs1.
      eexists. split; [done|]. split; [|cbn [fst]; lia].
      split; [lia|]. split; [lia|]. split; [lia|].
      intros Hshort. rewrite <- Hexact by done.
      rewrite Z.min_l by lia.
      rewrite sub_extend, (is_run_sub data (r + c) k v) by (try done; lia).
      rewrite (is_run_groups data (r + c) k v) by (try done; lia).
      replace (r + c + k) with (r + (c + k)) by lia.
      destruct (decide (k = 1)) as [->|]; [done|].
      assert (k = 2) as -> by lia. simpl.
      assert (c <> 0) as Hc0
        by (intros ->; by rewrite Z.eqb_refl in Hs2).
      rewrite bool_decide_false; [done|].
      intros Hnil. apply (f_equal len) in Hnil.
      rewrite len_sub, len_nil in Hnil; lia.
  - unfold I. split; [lia|]. split; [lia|]. split; [lia|]. intros _.
    by rewrite sub_0.
  - cbn [fst]. unfold fuel_for, len in *. lia.
  - destruct Hloop as ([r' c] & Hl & (? & ? & ? & ?) & ?).
    exists r', c. repeat (split; [done|]). done.
Qed.

Lemma context_body_inv s :
  encoder_inv data (context_runs []) s -> s.2 < len data ->
  exists s', compress_body data s = Ret (Next s') /\
    encoder_inv data (context_runs []) s' /\ s.2 < s'.2.
Proof.
  destruct s as [[result w] r]. cbn [snd].
  intros (Hr & rs & junk & Hwf & -> & -> & Hexp & Hcap & Hexact) Hlt.
  unfold compress_body.
  destruct (absorb_spec r) as (r' & c & -> & -> & Hc & Hn & Hruns & Hcase); [lia|].
  run.
  rewrite context_write_literal by (try done; lia).
  set (lit := flush (sub data r c)).
  assert (Forall wf_run lit /\ expand lit = sub data r c /\
          len (serialize lit) <= c + 1 /\ (0 < c -> len (serialize lit) = c + 1))
    as (Hwf_lit & Hexp_lit & Hlen_lit & Hlen_lit').
  { unfold lit. assert (len (sub data r c) = c) as Hlen by (apply len_sub; lia).
    destruct (sub data r c) as [|x l] eqn:Hsub.
    - rewrite len_nil in Hlen. simpl. unfold serialize. simpl.
      rewrite len_nil. repeat split; [constructor|lia|lia].
    - unfold flush. rewrite serialize_singleton, expand_singleton.
      assert (0 < c) by (rewrite len_cons in Hlen; pose proof (len_nonneg l); lia).
      cbn [header payload expand_run]. rewrite <- Hsub in *.
      rewrite len_cons, Hlen.
      split; [|split; [done|lia]].
      apply Forall_singleton. simpl. split; [lia|by apply octets_sub]. }
  pose proof (len_nonneg (serialize lit)). pose proof (len_nonneg junk).
  destruct Hcase as [(Hc0 & Hend)|(Hlt' & Hc128 & k & Hrun & Hk)].
  - (* the literal run ends the round *)
    replace ((r + c <? len data) && (c <? MAX_RUN_LENGTH)) with false.
    2:{ symmetry. apply andb_false_iff. unfold MAX_RUN_LENGTH.
        destruct Hend; [left; apply Z.ltb_ge|right; apply Z.ltb_ge]; lia. }
    eexists. split; [done|]. split; [|cbn [snd]; lia]. split; [lia|].
    exists (rs ++ lit), (sfx junk (len (serialize lit))).
    split; [|split; [|split; [|split; [|split]]]].
    + by apply Forall_app.
    + by rewrite serialize_app, <- app_assoc.
    + by rewrite serialize_app, len_app.
    + by rewrite expand_app, Hexp, Hexp_lit, pre_extend by lia.
    + rewrite len_sfx by lia. lia.
    + intros Hshort. rewrite <- Hexact, <- Hruns by done.
      rewrite sfx_all by lia. simpl. by rewrite <- app_assoc, app_nil_r.
  - (* a replicate run follows *)
    replace ((r + c <? len data) && (c <? MAX_RUN_LENGTH)) with true.
    2:{ symmetry. apply andb_true_iff. unfold MAX_RUN_LENGTH.
        split; apply Z.ltb_lt; lia. }
    destruct (countRepeated_spec data (r + c)) as (k' & Hrun' & ->); [lia|].
    rewrite (is_run_unique _ _ _ _ Hrun' Hrun). run.
    pose proof Hrun as (Hk' & Hnk & _). unfold MAX_RUN_LENGTH in *.
    destruct (get_lt_is_Some data (r + c)) as [v Hv]; [lia|].
    rewrite Hv, app_assoc.
    rewrite write_two;
      [|by rewrite len_app|rewrite len_sfx by lia; lia|lia|eauto using get_octet].
    eexists. split; [done|]. split; [|cbn [snd]; lia]. split; [lia|].
    exists (rs ++ lit ++ [Replicate k v]), (sfx (sfx junk (len (serialize lit))) 2).
    split; [|split; [|split; [|split; [|split]]]].
    + apply Forall_app. split; [done|]. apply Forall_app. split; [done|].
      apply Forall_singleton. simpl. split; [lia|eauto using get_octet].
    + rewrite !serialize_app, serialize_singleton, <- !app_assoc. done.
    + rewrite !serialize_app, serialize_singleton, !len_app. simpl.
      rewrite !len_cons, len_nil. lia.
    + rewrite !expand_app, expand_singleton, Hexp, Hexp_lit. simpl.
      rewrite <- (is_run_sub data (r + c) k v) by (try done; lia).
      by rewrite app_assoc, <- !pre_extend by lia.
    + rewrite !len_sfx by (rewrite ?len_sfx by lia; lia). lia.
    + intros Hshort. rewrite <- Hexact, <- Hruns by done.
      rewrite (is_run_groups data (r + c) k v) by (try done; lia).
      cbn [context_runs].
      destruct (Z.eqb_spec k 1); [lia|].
      replace ((k =? 2) && negb (bool_decide (sub data r c = []))) with false.
      * rewrite <- !app_assoc. done.
      * symmetry. apply andb_false_iff. destruct Hk as [?|[-> ->]].
        -- left. apply Z.eqb_neq. lia.
        -- right. by rewrite sub_0.
Qed.
End ContextAwareEncoder.

(** [compress] of the context-aware module returns a stream of well-formed
    runs that stands for the input; on an input of at most 128 bytes the runs
    are those of [context_runs]. *)
Lemma context_compress_runs data :
  octets data ->
  exists rs, ContextAware.compress data = Ret (serialize rs) /\
    Forall wf_run rs /\ expand rs = data /\
    (len data <= 128 -> rs = context_runs [] (groups data)).
Proof.
  intros Hd. unfold ContextAware.compress, ContextAware.compress_loop.
  pose proof (len_nonneg data) as Hlen.
  while_inv (encoder_inv data (context_runs []))
    (fun s : list Z * Z * Z => encoder_inv data (context_runs []) s /\ s.2 = len data)
    (fun s : list Z * Z * Z => Z.to_nat (len data - s.2)) Hloop.
  - intros [[result w] r] Hinv Hc. split; [done|]. simpl.
    apply Z.ltb_ge in Hc. destruct Hinv as [? _]. lia.
  - intros [[result w] r] Hinv Hc. left. apply Z.ltb_lt in Hc.
    destruct (context_body_inv data Hd _ Hinv Hc) as (s' & Hs' & Hinv' & Hlt).
    exists s'. split; [done|]. split; [done|]. simpl in *.
    destruct s' as [[? ?] r']. simpl in *. destruct Hinv' as [? _]. lia.
  - split; [lia|]. exists [], (alloc (2 * len data)).
    split; [constructor|]. split; [done|]. split; [done|]. split; [done|].
    split; [rewrite len_alloc; lia|]. intros _. by rewrite sfx_0.
  - simpl. unfold fuel_for, len. lia.
  - destruct Hloop as ([[result w] r] & -> & Hinv & Hr). simpl in Hr. subst r.
    destruct Hinv as (_ & rs & junk & Hwf & -> & -> & Hexp & _ & Hexact). run.
    exists rs. rewrite slice_prefix. split; [done|]. split; [done|].
    split; [by rewrite Hexp, pre_all by lia|].
    intros Hshort. specialize (Hexact Hshort).
    rewrite sfx_all in Hexact by lia. simpl in Hexact. by rewrite app_nil_r in Hexact.
Qed.

(** * Output sizes of the two segmentations *)

Lemma len_flush open :
  len (serialize (flush open)) = if bool_decide (open = []) then 0 else 1 + len open.
Proof.
  destruct open as [|x l]; [done|].
  unfold flush. rewrite serialize_singleton. simpl. by rewrite len_cons.
Qed.

Lemma app_not_nil {A} (l1 l2 : list A) : l2 <> [] -> l1 ++ l2 <> [].
Proof. intros ? [_ ?]%app_eq_nil. done. Qed.

Lemma boundary_runs_cost gs : forall open,
  len (serialize (boundary_runs open gs))
  = len (serialize (flush open)) + boundary_cost (negb (bool_decide (open = []))) gs.
Proof.
  induction gs as [|[v k] gs IH]; intros open; [simpl; lia|].
  simpl. destruct (Z.eqb_spec k 1).
  - rewrite IH, !len_flush. rewrite (bool_decide_false (open ++ [v] = []))
      by by apply app_not_nil.
    rewrite len_app, len_cons, len_nil.
    destruct open as [|x l]; [rewrite len_nil|rewrite len_cons]; simpl; lia.
  - rewrite serialize_app, len_app, serialize_cons, len_cons. simpl payload.
    rewrite len_app, len_cons, len_nil, IH.
    rewrite (len_flush []), !bool_decide_true by done. simpl. lia.
Qed.

Lemma context_runs_cost gs : forall open,
  len (serialize (context_runs open gs))
  = len (serialize (flush open)) + context_cost (negb (bool_decide (open = []))) gs.
Proof.
  induction gs as [|[v k] gs IH]; intros open; [simpl; lia|].
  simpl. destruct (Z.eqb_spec k 1).
  - rewrite IH, !len_flush. rewrite (bool_decide_false (open ++ [v] = []))
      by by apply app_not_nil.
    rewrite len_app, len_cons, len_nil.
    destruct open as [|x l]; [rewrite len_nil|rewrite len_cons]; simpl; lia.
  - destruct (Z.eqb_spec k 2); simpl; [case_bool_decide; simpl|].
    + rewrite serialize_app, len_app, serialize_cons, len_cons. simpl payload.
      rewrite len_app, len_cons, len_nil, IH.
      rewrite (len_flush []), !bool_decide_true by done. simpl. lia.
    + rewrite IH, !len_flush. rewrite (bool_decide_false (open ++ [v; v] = []))
        by by apply app_not_nil.
      rewrite len_app, !len_cons, len_nil. rewrite bool_decide_false by done.
      simpl. lia.
    + rewrite serialize_app, len_app, serialize_cons, len_cons. simpl payload.
      rewrite len_app, len_cons, len_nil, IH.
      rewrite (len_flush []), !bool_decide_true by done. simpl. lia.
Qed.

Lemma context_cost_open gs : context_cost true gs <= context_cost false gs.
Proof.
  induction gs as [|[v k] gs IH]; [done|]. simpl.
  destruct (k =? 1); [lia|]. destruct (k =? 2); simpl; lia.
Qed.

Lemma context_cost_le_boundary gs : forall open,
  context_cost open gs <= boundary_cost open gs.
Proof.
  induction gs as [|[v k] gs IH]; intros open; [done|]. simpl.
  destruct (k =? 1).
  - specialize (IH true). lia.
  - pose proof (IH false). pose proof (context_cost_open gs).
    destruct (k =? 2), open; simpl; lia.
Qed.

(** * Headers of a packed stream *)

Lemma announced_header r : wf_run r -> announced (header r) = len (payload r).
Proof.
  destruct r as [bytes|n byte]; unfold announced; simpl; intros [? ?].
  - destruct (Z.ltb_spec (len bytes - 1) 128); lia.
  - rewrite len_cons, len_nil.
    destruct (Z.ltb_spec (257 - n) 128); [lia|].
    destruct (Z.ltb_spec 128 (257 - n)); lia.
Qed.

Lemma headers_from_serialize rs :
  Forall wf_run rs ->
  forall fuel, (length rs <= fuel)%nat -> headers_from fuel (serialize rs) = map header rs.
Proof.
  induction 1 as [|r rs Hr _ IH]; intros fuel Hfuel; [by destruct fuel|].
  destruct fuel as [|fuel]; [simpl in Hfuel; lia|].
  rewrite serialize_cons. simpl. f_equal.
  rewrite (announced_header r Hr). unfold len. rewrite Nat2Z.id, drop_app_length.
  apply IH. simpl in Hfuel. lia.
Qed.

Lemma length_serialize rs : Forall wf_run rs -> (length rs <= length (serialize rs))%nat.
Proof.
  induction 1 as [|r rs _ _ IH]; [done|].
  rewrite serialize_cons. simpl. rewrite length_app. lia.
Qed.

(** Walking a stream of well-formed runs finds the header of each run. *)
Lemma headers_serialize rs : Forall wf_run rs -> headers (serialize rs) = map header rs.
Proof.
  intros Hrs. apply headers_from_serialize; [done|]. by apply length_serialize.
Qed.

Lemma header_ok_emitted r : header_ok r -> emitted_header (header r).
Proof. destruct r; unfold header_ok, emitted_header; simpl; lia. Qed.

(** * The stack-based encoder (part_000, second module) *)

Lemma length_le_expand rs : Forall wf_run rs -> Z.of_nat (length rs) <= len (expand rs).
Proof.
  induction 1 as [|r rs Hr _ IH]; [done|].
  rewrite expand_cons, len_app. pose proof (len_expand_run r Hr). simpl length. lia.
Qed.

Lemma len_map_header stack : len (map header stack) = Z.of_nat (length stack).
Proof. unfold len. by rewrite length_map. Qed.

Lemma header_octet r : wf_run r -> 0 <= header r < 256.
Proof. destruct r; simpl; intros [? ?]; lia. Qed.

Lemma pairs_ok_tail r stack : pairs_ok (r :: stack) -> pairs_ok stack.
Proof. destruct stack; [done|]. by intros [_ ?]. Qed.

Lemma pairs_ok_push r stack :
  pairs_ok stack -> match stack with a :: _ => follows_ok a r | [] => True end ->
  pairs_ok (r :: stack).
Proof. destruct stack; [done|]. by split. Qed.

Lemma pairs_ok_grow bytes more stack :
  pairs_ok (Literal bytes :: stack) -> pairs_ok (Literal (bytes ++ more) :: stack).
Proof.
  destruct stack as [|a stack]; [done|]. intros [Hf Hp]. split; [|done].
  destruct a as [bytes0|n b]; [|done]. simpl in *. rewrite len_app.
  pose proof (len_nonneg more). lia.
Qed.

Section Stack.
Import StackBased.
Variable data : list Z.
Variable B : Z.
Hypothesis data_octets : octets data.

Lemma depth_le_cov stack s cov : stack_shape data B stack s cov -> depth stack <= cov.
Proof.
  intros (_ & _ & _ & _ & Hwf & _ & Hcov & Hexp).
  pose proof (length_le_expand (rev stack)) as Hle.
  rewrite Hexp, length_rev, len_pre in Hle by done.
  apply Hle. by apply Forall_rev.
Qed.

(** [buffer[iStack--] = header r] puts a run on the stack. *)
Lemma push_shape stack s cov r k h c :
  stack_shape data B stack s cov -> h = header r ->
  wf_run r -> expand_run r = sub data cov k -> 1 <= k -> cov + k <= len data ->
  match stack with a :: _ => follows_ok a r | [] => True end ->
  stack_shape data B (r :: stack) (push s h c) (cov + k).
Proof.
  intros Hs -> Hr Hexp_r Hk Hn Hf. pose proof (depth_le_cov _ _ _ Hs) as Hdepth.
  destruct Hs as (HB & HnB & Hi & (pfx & Hbuf) & Hwf & Hp & Hcov & Hexp).
  unfold depth in *.
  assert (len pfx = B - Z.of_nat (length stack)) as Hpfx.
  { apply (f_equal len) in Hbuf. rewrite len_app, HB, len_map_header in Hbuf. lia. }
  destruct (rev pfx) as [|x xfp] eqn:Hrev.
  { apply (f_equal (@rev Z)) in Hrev. rewrite rev_involutive in Hrev.
    simpl in Hrev. subst pfx. rewrite len_nil in Hpfx. lia. }
  apply (f_equal (@rev Z)) in Hrev. rewrite rev_involutive in Hrev. simpl in Hrev.
  subst pfx. rewrite len_app, len_cons, len_nil in Hpfx.
  repeat split.
  - cbn [push buffer]. by rewrite len_set.
  - done.
  - cbn [push iStack]. unfold depth. simpl length. lia.
  - exists (rev xfp). cbn [push buffer]. rewrite Hbuf, Hi, <- app_assoc. simpl.
    replace (B - 1 - Z.of_nat (length stack)) with (len (rev xfp)) by lia.
    by rewrite set_app_len, (ToUint8_octet (header r)) by by apply header_octet.
  - by apply Forall_cons.
  - by apply pairs_ok_push.
  - lia.
  - lia.
  - simpl rev. by rewrite expand_app, expand_singleton, Hexp, Hexp_r, pre_extend by lia.
Qed.

(** [countLastLiteral += k; buffer[iStack + 1] = countLastLiteral - 1] makes
    the literal run on top [k] bytes longer. *)
Lemma merge_inv bytes stack s cov k :
  stack_inv data B (Literal bytes :: stack) s cov ->
  1 <= k -> len bytes + k <= 128 -> cov + k <= len data ->
  stack_inv data B (Literal (bytes ++ sub data cov k) :: stack) (merge s k) (cov + k).
Proof.
  intros [Hs Hc] Hk Hfit Hn.
  destruct Hs as (HB & HnB & Hi & (pfx & Hbuf) & Hwf & Hp & Hcov & Hexp).
  unfold depth in *. simpl in Hc.
  assert (len pfx = B - Z.of_nat (length (Literal bytes :: stack))) as Hpfx.
  { apply (f_equal len) in Hbuf. rewrite len_app, HB, len_map_header in Hbuf. lia. }
  apply Forall_cons in Hwf as [[Hlen Hoct] Hwf].
  assert (len (sub data cov k) = k) as Hsub by (apply len_sub; lia).
  split; [repeat split|].
  - cbn [merge buffer]. by rewrite len_set.
  - done.
  - cbn [merge iStack]. unfold depth. simpl length in *. lia.
  - exists pfx. cbn [merge buffer]. rewrite Hbuf, Hi, Hc. simpl map.
    replace (B - 1 - Z.of_nat (length (Literal bytes :: stack)) + 1) with (len pfx)
      by lia.
    rewrite set_app_len, ToUint8_octet by lia. simpl header.
    rewrite len_app, Hsub. do 2 f_equal.
  - apply Forall_cons. split; [|done]. simpl. rewrite len_app, Hsub.
    split; [lia|]. apply octets_app. split; [done|by apply octets_sub].
  - by apply pairs_ok_grow.
  - lia.
  - lia.
  - simpl rev in *. rewrite expand_app, expand_singleton in *. simpl expand_run in *.
    by rewrite app_assoc, Hexp, pre_extend by lia.
  - cbn [merge countLastLiteral]. simpl. rewrite len_app, Hsub. lia.
Qed.

Lemma top_literal_pos stack c :
  Forall wf_run stack -> top_literal stack = c -> 0 < c ->
  exists bytes below, stack = Literal bytes :: below /\ len bytes = c.
Proof.
  intros _ Htop Hc. destruct stack as [|[bytes|n b] below]; simpl in Htop; try lia.
  eauto.
Qed.

(** The three places that add a literal run of [k] bytes: it is merged into
    the literal run on top when the sum fits, and pushed otherwise. *)
Lemma add_literal stack s cov k t h c :
  stack_inv data B stack s cov -> 1 <= k <= 128 -> cov + k <= len data ->
  t = countLastLiteral s + k -> h = k - 1 ->
  exists stack',
    let s' := if (0 <? countLastLiteral s) && (t <=? 128)
              then merge s k else push s h c in
    stack_shape data B stack' s' (cov + k) /\
    (c = k -> stack_inv data B stack' s' (cov + k)).
Proof.
  intros Hinv Hk Hn -> ->. pose proof Hinv as [Hs Hc].
  pose proof Hs as (_ & _ & _ & _ & Hwf & _ & Hcov & _).
  destruct ((0 <? countLastLiteral s) && (countLastLiteral s + k <=? 128)) eqn:Hm.
  - apply andb_true_iff in Hm as [Hm1 Hm2]. apply Z.ltb_lt in Hm1. apply Z.leb_le in Hm2.
    destruct (top_literal_pos stack _ Hwf (eq_sym Hc) Hm1) as (bytes & below & -> & Hlen).
    eexists. split; [|intros _]; [apply merge_inv|apply merge_inv]; try done; lia.
  - assert (len (sub data cov k) = k) as Hsub by (apply len_sub; lia).
    assert (stack_shape data B (Literal (sub data cov k) :: stack)
              (push s (k - 1) c) (cov + k)) as Hshape.
    { apply push_shape; try done; try lia.
      - simpl. lia.
      - simpl. rewrite Hsub. split; [lia|by apply octets_sub].
      - destruct stack as [|[bytes|n b] below]; [done| |done]. simpl in *.
        rewrite Hsub. apply Forall_cons in Hwf as [[? ?] _].
        apply andb_false_iff in Hm as [Hm|Hm];
          [apply Z.ltb_ge in Hm|apply Z.leb_gt in Hm]; lia. }
    eexists. split; [done|]. intros ->. split; [done|].
    cbn [push countLastLiteral]. simpl. lia.
Qed.

(** Lines 264-270 and 276-282: a repeat of [257 - n] bytes. *)
Lemma close_replicate_inv stack s cov n v :
  stack_inv data B stack s cov -> 129 <= n <= 255 -> cov + (257 - n) <= len data ->
  (forall i, cov <= i < cov + (257 - n) -> get data i = Some v) ->
  exists stack', stack_inv data B stack' (close_replicate s n) (cov + (257 - n)).
Proof.
  intros Hinv Hn Hlen Hall. pose proof Hinv as [Hs Hc].
  pose proof Hs as (_ & _ & _ & _ & Hwf & _ & Hcov & _).
  unfold close_replicate.
  destruct ((n =? 255) && (0 <? countLastLiteral s) && (countLastLiteral s + 2 <=? 128))
    eqn:Hm.
  - apply andb_true_iff in Hm as [Hm Hm3]. apply andb_true_iff in Hm as [Hm1 Hm2].
    apply Z.eqb_eq in Hm1. apply Z.ltb_lt in Hm2. apply Z.leb_le in Hm3. subst n.
    destruct (top_literal_pos stack _ Hwf (eq_sym Hc) Hm2) as (bytes & below & -> & Hb).
    eexists. apply merge_inv; try done; lia.
  - assert (sub data cov (257 - n) = replicate (Z.to_nat (257 - n)) v) as Hsub
      by (apply sub_const; [lia|lia|done]).
    exists (Replicate (257 - n) v :: stack). split.
    + apply push_shape; try done; try lia.
      * simpl. lia.
      * simpl. split; [lia|]. apply (get_octet data cov); [done|]. apply Hall. lia.
      * destruct stack as [|[bytes|n' b] below]; [done| |done]. simpl in *.
        apply Forall_cons in Hwf as [[? ?] _].
        apply andb_false_iff in Hm as [Hm|Hm];
          [apply andb_false_iff in Hm as [Hm|Hm]|].
        -- apply Z.eqb_neq in Hm. lia.
        -- apply Z.ltb_ge in Hm. lia.
        -- apply Z.leb_gt in Hm. lia.
    + done.
Qed.

(** Reading ahead leaves the stack as it is. *)
Lemma stack_inv_ext stack s s' cov :
  buffer s' = buffer s -> iStack s' = iStack s ->
  countLastLiteral s' = countLastLiteral s ->
  stack_inv data B stack s cov -> stack_inv data B stack s' cov.
Proof.
  unfold stack_inv, stack_shape. intros -> -> ->. done.
Qed.

Lemma stack_shape_ext stack s s' cov :
  buffer s' = buffer s -> iStack s' = iStack s ->
  stack_shape data B stack s cov -> stack_shape data B stack s' cov.
Proof.
  unfold stack_shape. intros -> ->. done.
Qed.
End Stack.

(** * The run-collecting loop of the stack-based encoder *)

Section Collect.
Import StackBased.
Variable data : list Z.
Variable B : Z.
Hypothesis data_octets : octets data.

(** The [do ... while] of a replicate run: [257 - n] equal bytes have been
    read from [cov] on. *)
Lemma replicate_run_spec fuel : forall s n cov stack v,
  stack_inv data B stack s cov ->
  iRead s = cov + (257 - n) -> 130 <= n <= 255 -> iRead s <= len data ->
  anchor s = Some v -> (forall i, cov <= i < iRead s -> get data i = Some v) ->
  (Z.to_nat (len data - iRead s) < fuel)%nat ->
  exists l, replicate_run fuel data s n = Ret l /\
    match l with
    | BreakLoop s' => exists stack', stack_inv data B stack' s' (len data)
    | AfterAnchor s' => (exists stack', at_after data B stack' s') /\ iRead s < iRead s'
    | Through s' n' =>
        n' = 129 /\ stack_inv data B stack s' cov /\ iRead s' = cov + 128 /\
        iRead s < iRead s' <= len data /\
        (forall i, cov <= i < iRead s' -> get data i = Some v)
    | ContinueLoop _ => False
    end.
Proof.
  induction fuel as [|fuel IH]; intros s n cov stack v Hinv Hi Hn Hlen Ha Hall Hfuel;
    [lia|].
  pose proof Hinv as [(_ & _ & _ & _ & _ & _ & Hcov & _) _].
  cbn [replicate_run]. destruct (Z.leb_spec (len data) (iRead s)).
  - destruct (close_replicate_inv data B data_octets stack s cov n v)
      as [stack' Hinv']; [done|lia|lia|intros; apply Hall; lia|].
    eexists. split; [done|]. exists stack'.
    by replace (len data) with (cov + (257 - n)) by lia.
  - set (s1 := read_crnt data s).
    assert (stack_inv data B stack s1 cov) as Hinv1
      by by apply (stack_inv_ext data B stack s).
    destruct (bool_decide (crnt s1 = anchor s1)) eqn:Heq; cbn [negb].
    + apply bool_decide_eq_true in Heq. cbn [s1 read_crnt crnt anchor] in Heq.
      rewrite Ha in Heq.
      assert (forall i, cov <= i < iRead s1 -> get data i = Some v) as Hall1.
      { intros i ?. cbn [s1 read_crnt iRead] in *.
        destruct (decide (i = iRead s)) as [->|]; [done|apply Hall; lia]. }
      destruct (Z.ltb_spec 129 (n - 1)).
      * destruct (IH s1 (n - 1) cov stack v) as (l & Hl & Hpost); try done.
        -- cbn [s1 read_crnt iRead]. lia.
        -- lia.
        -- cbn [s1 read_crnt iRead]. lia.
        -- cbn [s1 read_crnt iRead]. lia.
        -- exists l. split; [done|]. cbn [s1 read_crnt iRead] in Hpost.
           destruct l as [s'|s'|s'|s' n']; try done.
           ++ split; [tauto|lia].
           ++ destruct Hpost as (? & ? & ? & ? & ?).
              split; [done|]. split; [done|]. split; [done|]. split; [lia|done].
      * eexists. split; [done|]. cbn [s1 read_crnt iRead] in *.
        split; [lia|]. split; [done|]. split; [lia|]. split; [lia|done].
    + apply bool_decide_eq_false in Heq.
      destruct (close_replicate_inv data B data_octets stack s1 cov n v)
        as [stack' Hinv']; [done|lia|lia|intros; apply Hall; lia|].
      eexists. split; [done|]. split; [|cbn [with_anchor iRead close_replicate];
        unfold close_replicate; destruct (_ && _); cbn [merge push iRead s1 read_crnt]; lia].
      exists stack'.
      assert (iRead (close_replicate s1 n) = iRead s + 1) as Hir
        by (unfold close_replicate; destruct (_ && _);
            cbn [merge push iRead s1 read_crnt]; done).
      assert (crnt (close_replicate s1 n) = get data (iRead s)) as Hcr
        by (unfold close_replicate; destruct (_ && _);
            cbn [merge push crnt s1 read_crnt]; done).
      split; [|split].
      * apply (stack_inv_ext data B stack' (close_replicate s1 n)); try done.
        cbn [with_anchor iRead]. rewrite Hir.
        by replace (iRead s + 1 - 1) with (cov + (257 - n)) by lia.
      * cbn [with_anchor iRead]. lia.
      * cbn [with_anchor iRead anchor]. rewrite Hir, Hcr. f_equal. lia.
Qed.

(** The [do ... while] of a literal run: [n + 1] bytes have been read from
    [cov] on, the last of them [prev]. *)
Lemma literal_run_spec fuel : forall s n prev cov stack,
  stack_inv data B stack s cov ->
  iRead s = cov + n + 1 -> 1 <= n <= 126 -> iRead s <= len data ->
  prev = get data (iRead s - 1) ->
  (Z.to_nat (len data - iRead s) < fuel)%nat ->
  exists l, literal_run fuel data s n prev = Ret l /\
    match l with
    | BreakLoop s' => exists stack', stack_inv data B stack' s' (len data)
    | ContinueLoop s' => (exists stack', at_head data B stack' s') /\ iRead s < iRead s'
    | Through s' n' =>
        n' = 127 /\ stack_inv data B stack s' cov /\ iRead s' = cov + 128 /\
        iRead s < iRead s' <= len data
    | AfterAnchor _ => False
    end.
Proof.
  induction fuel as [|fuel IH]; intros s n prev cov stack Hinv Hi Hn Hlen Hprev Hfuel;
    [lia|].
  pose proof Hinv as [(_ & _ & _ & _ & _ & _ & Hcov & _) _].
  cbn [literal_run]. destruct (Z.leb_spec (len data) (iRead s)).
  - destruct (add_literal data B data_octets stack s cov (n + 1)
                (countLastLiteral s + n + 1) n (n + 1))
      as (stack' & _ & Hinv'); [done|lia|lia|lia|lia|].
    eexists. split; [done|]. exists stack'. unfold close_literal.
    replace (len data) with (cov + (n + 1)) by lia. by apply Hinv'.
  - set (s1 := read_crnt data s).
    assert (stack_inv data B stack s1 cov) as Hinv1
      by by apply (stack_inv_ext data B stack s).
    destruct (bool_decide (crnt s1 = prev)) eqn:Heq.
    + destruct (add_literal data B data_octets stack s1 cov n
                  (countLastLiteral s1 + n) (n - 1) n)
        as (stack' & _ & Hinv'); [done|lia|lia|lia|lia|].
      specialize (Hinv' eq_refl). cbv zeta in Hinv'.
      set (s2 := if (0 <? countLastLiteral s1) && (countLastLiteral s1 + n <=? 128)
                 then merge s1 n else push s1 (n - 1) n) in *.
      assert (iRead s2 = iRead s + 1 /\ crnt s2 = get data (iRead s)) as [Hir Hcr]
        by (unfold s2; destruct (_ && _); cbn [merge push iRead crnt s1 read_crnt]; done).
      eexists. split; [done|]. cbn [with_anchor iRead]. split; [|lia].
      exists stack'. split; [|split; [|split]].
      * apply (stack_inv_ext data B stack' s2); try done.
        cbn [with_anchor iRead]. rewrite Hir.
        by replace (iRead s + 1 - 2) with (cov + n) by lia.
      * cbn [with_anchor iRead]. lia.
      * cbn [with_anchor iRead anchor]. rewrite Hir, Hprev. f_equal. lia.
      * cbn [with_anchor iRead crnt]. rewrite Hir, Hcr. f_equal. lia.
    + destruct (Z.ltb_spec (n + 1) 127).
      * destruct (IH s1 (n + 1) (crnt s1) cov stack) as (l & Hl & Hpost); try done.
        -- cbn [s1 read_crnt iRead]. lia.
        -- lia.
        -- cbn [s1 read_crnt iRead]. lia.
        -- cbn [s1 read_crnt iRead crnt]. f_equal. lia.
        -- cbn [s1 read_crnt iRead]. lia.
        -- exists l. split; [done|]. cbn [s1 read_crnt iRead] in Hpost.
           destruct l as [s'|s'|s'|s' n']; try done.
           ++ split; [tauto|lia].
           ++ destruct Hpost as (? & ? & ? & ?).
              split; [done|]. split; [done|]. split; [done|]. lia.
      * eexists. split; [done|]. cbn [s1 read_crnt iRead] in *.
        split; [lia|]. split; [done|]. split; lia.
Qed.

(** The labelled block. *)
Lemma block_spec stack s :
  at_head data B stack s ->
  exists l, block data s = Ret l /\
    match l with
    | BreakLoop s' => exists stack', stack_shape data B stack' s' (len data)
    | ContinueLoop s' => (exists stack', at_head data B stack' s') /\ iRead s < iRead s'
    | AfterAnchor s' => (exists stack', at_after data B stack' s') /\ iRead s < iRead s'
    | Through _ _ => False
    end.
Proof.
  intros (Hinv & Hi & Ha & Hc). unfold block.
  assert (Z.to_nat (len data - iRead s) < fuel_for data)%nat as Hfuel
    by (unfold fuel_for, len in *; lia).
  destruct (get_lt_is_Some data (iRead s - 2)) as [v Hv]; [lia|].
  destruct (bool_decide (anchor s = crnt s)) eqn:Heq.
  - (* replicate run *)
    apply bool_decide_eq_true in Heq.
    destruct (replicate_run_spec (fuel_for data) s 255 (iRead s - 2) stack v)
      as (l & -> & Hpost); try done; try lia.
    { congruence. }
    { intros i ?. destruct (decide (i = iRead s - 2)) as [->|]; [done|].
      replace i with (iRead s - 1) by lia. congruence. }
    run. destruct l as [s'|s'|s'|s' n']; [|done| |].
    + run. eexists. split; [done|]. destruct Hpost as [stack' [? _]]. eauto.
    + run. eauto.
    + run. destruct Hpost as (-> & Hinv' & Hi' & Hlt & Hall).
      assert (stack_inv data B (Replicate 128 v :: stack) (push s' 129 0)
                (iRead s - 2 + 128)) as Hpush.
      { pose proof Hinv' as [Hs' Hc'].
        pose proof Hs' as (_ & _ & _ & _ & Hwf & _ & Hcov & _).
        split; [|done].
        apply (push_shape data B stack s' (iRead s - 2)
                 (Replicate 128 v) 128 129 0); try done; try lia.
        - split; [lia|]. apply (get_octet data (iRead s - 2)); done.
        - cbn [expand_run]. symmetry. apply sub_const; [lia|lia|].
          intros j ?. apply Hall. lia.
        - destruct stack as [|[bytes|n b] below]; [done|cbn [follows_ok]; lia|exact I]. }
      cbn [push iRead]. destruct (Z.leb_spec (len data) (iRead s')).
      * eexists. split; [done|]. exists (Replicate 128 v :: stack).
        destruct Hpush as [Hpush _].
        by replace (len data) with (iRead s - 2 + 128) by lia.
      * eexists. split; [done|]. cbn [read_anchor push iRead]. split; [|lia].
        exists (Replicate 128 v :: stack). split; [|split].
        -- apply (stack_inv_ext data B _ (push s' 129 0)); try done.
           cbn [read_anchor push iRead].
           by replace (iRead s' + 1 - 1) with (iRead s - 2 + 128) by lia.
        -- cbn [read_anchor push iRead]. lia.
        -- cbn [read_anchor push iRead anchor]. f_equal. lia.
  - (* literal run *)
    destruct (literal_run_spec (fuel_for data) s 1 (crnt s) (iRead s - 2) stack)
      as (l & -> & Hpost); try done; try lia.
    run. destruct l as [s'|s'|s'|s' n']; [| |done|].
    + run. eexists. split; [done|]. destruct Hpost as [stack' [? _]]. eauto.
    + run. eauto.
    + run. destruct Hpost as (-> & Hinv' & Hi' & Hlt).
      pose proof Hinv' as [(_ & _ & _ & _ & _ & _ & Hcov & _) _].
      destruct (add_literal data B data_octets stack s' (iRead s - 2) 128
                  (countLastLiteral s' + 127 + 1) 127 (127 + 1))
        as (stack' & _ & Hinv''); [done|lia|lia|lia|lia|].
      specialize (Hinv'' eq_refl). cbv zeta in Hinv''.
      fold (close_literal s' 127) in Hinv''.
      assert (iRead (close_literal s' 127) = iRead s') as Hir
        by (unfold close_literal; destruct (_ && _); done).
      rewrite Hir. destruct (Z.leb_spec (len data) (iRead s')).
      * eexists. split; [done|]. exists stack'. destruct Hinv'' as [? _].
        by replace (len data) with (iRead s - 2 + 128) by lia.
      * eexists. split; [done|]. cbn [read_anchor iRead]. rewrite Hir.
        split; [|lia]. exists stack'. split; [|split].
        -- apply (stack_inv_ext data B _ (close_literal s' 127)); try done.
           cbn [read_anchor iRead]. rewrite Hir.
           by replace (iRead s' + 1 - 1) with (iRead s - 2 + 128) by lia.
        -- cbn [read_anchor iRead]. lia.
        -- cbn [read_anchor iRead anchor]. rewrite Hir. f_equal. lia.
Qed.

(** [loop: while (true)]: from the head of the loop the whole input gets
    covered by the runs on the stack. *)
Lemma collect_runs_spec fuel : forall s stack,
  at_head data B stack s -> (Z.to_nat (len data - iRead s) < fuel)%nat ->
  exists s' stack', collect_runs fuel data s = Ret s' /\
    stack_shape data B stack' s' (len data).
Proof.
  induction fuel as [|fuel IH]; intros s stack Hhead Hfuel; [lia|].
  cbn [collect_runs]. pose proof Hhead as (_ & Hi & _).
  destruct (block_spec stack s Hhead) as (l & -> & Hpost). run.
  destruct l as [s'|s'|s'|s' n']; [| | |done].
  - destruct Hpost as [stack' ?]. eauto.
  - destruct Hpost as [[stack' Hhead'] Hlt]. pose proof Hhead' as (_ & Hi' & _).
    apply (IH s' stack'); [done|lia].
  - destruct Hpost as [[stack' (Hinv' & Hi' & Ha')] Hlt].
    destruct (Z.leb_spec (len data) (iRead s')).
    + (* Try merge last byte into previous L *)
      destruct (add_literal data B data_octets stack' s' (iRead s' - 1) 1
                  (countLastLiteral s' + 1) 0 (countLastLiteral s'))
        as (stack'' & Hshape & _); [done|lia|lia|lia|lia|].
      cbv zeta in Hshape.
      replace (iRead s' - 1 + 1) with (len data) in Hshape by lia.
      destruct ((0 <? countLastLiteral s') && (countLastLiteral s' + 1 <=? 128)); eauto.
    + apply (IH (read_crnt data s') stack'); [|cbn [read_crnt iRead]; lia].
      split; [|split; [|split]].
      * apply (stack_inv_ext data B _ s'); try done. cbn [read_crnt iRead].
        by replace (iRead s' + 1 - 2) with (iRead s' - 1) by lia.
      * cbn [read_crnt iRead]. lia.
      * cbn [read_crnt iRead anchor]. rewrite Ha'. f_equal. lia.
      * cbn [read_crnt iRead crnt]. f_equal. lia.
Qed.
End Collect.

(** * Room in the scratch buffer *)

Lemma excess_literal bytes : excess (Literal bytes) = 4 - len bytes.
Proof. unfold excess. simpl. rewrite len_cons. lia. Qed.

Lemma excess_replicate n byte : 0 <= n -> excess (Replicate n byte) = 6 - 3 * n.
Proof.
  intros. unfold excess. simpl. rewrite !len_cons, len_nil, len_replicate. lia.
Qed.

(** The excess of a stack is at most that of a short literal run on top. *)
Lemma excess_bound stack :
  Forall wf_run stack -> pairs_ok stack ->
  total_excess stack
  <= match stack with
     | Literal bytes :: _ => Z.max 0 (4 - len bytes)
     | _ => 0
     end.
Proof.
  induction 1 as [|r stack Hr Hwf IH]; intros Hp; [done|].
  specialize (IH (pairs_ok_tail _ _ Hp)).
  change (total_excess (r :: stack)) with (excess r + total_excess stack).
  destruct stack as [|a stack].
  - change (total_excess []) with 0.
    destruct r as [bytes|n byte]; simpl in Hr.
    + rewrite excess_literal. lia.
    + rewrite excess_replicate; lia.
  - destruct Hp as [Hf _]. apply Forall_cons in Hwf as [Ha _].
    destruct a as [bytes_a|n_a byte_a], r as [bytes|n byte];
      simpl in Hr, Ha, Hf;
      rewrite ?excess_literal, ?excess_replicate by lia; lia.
Qed.

Lemma total_excess_eq stack :
  total_excess stack
  = 2 * (len (serialize (rev stack)) + depth stack) - 3 * len (expand (rev stack)).
Proof.
  induction stack as [|r stack IH]; [done|].
  change (total_excess (r :: stack)) with (excess r + total_excess stack).
  simpl rev. rewrite serialize_app, expand_app, serialize_singleton, expand_singleton,
    !len_app, IH.
  unfold excess, depth. simpl length. lia.
Qed.

(** Below the top of the stack: the packed form of the runs and the whole
    stack fit in the buffer side by side. *)
Lemma room_below_top top below B :
  Forall wf_run (top :: below) -> pairs_ok (top :: below) ->
  ceil_1_5_len (expand (rev (top :: below))) <= B ->
  len (serialize (rev below)) + depth (top :: below) <= B.
Proof.
  intros Hwf Hp HB. apply Forall_cons in Hwf as [Htop Hwf].
  pose proof (excess_bound below Hwf (pairs_ok_tail _ _ Hp)) as Hbound.
  pose proof (len_expand_run top Htop) as Hin.
  rewrite total_excess_eq in Hbound.
  unfold ceil_1_5_len, StackBased.ceil_1_5 in HB. simpl rev in HB.
  rewrite expand_app, expand_singleton, len_app in HB.
  unfold depth in *. simpl length.
  assert (2 * (len (serialize (rev below)) + Z.of_nat (length below)) + 2
          <= 3 * (len (expand (rev below)) + len (expand_run top))) as Hroom.
  { destruct below as [|a below].
    - simpl in *. lia.
    - destruct Hp as [Hf _]. apply Forall_cons in Hwf as [Ha _].
      destruct a as [bytes_a|n_a byte_a], top as [bytes|n byte];
        simpl in Htop, Ha, Hf; cbn [expand_run] in *; cbv beta iota in Hbound;
        rewrite ?len_replicate in *; lia. }
  assert (len (serialize (rev below)) + Z.of_nat (S (length below))
          <= (3 * (len (expand (rev below)) + len (expand_run top)) + 1) / 2)
    by (apply Z.div_le_lower_bound; lia).
  lia.
Qed.

(** The packed form of all runs fits in the buffer. *)
Lemma room_for_all stack B :
  Forall wf_run stack -> pairs_ok stack ->
  ceil_1_5_len (expand (rev stack)) <= B ->
  len (serialize (rev stack)) <= B.
Proof.
  intros Hwf Hp HB. pose proof (excess_bound stack Hwf Hp) as Hbound.
  rewrite total_excess_eq in Hbound.
  unfold ceil_1_5_len, StackBased.ceil_1_5 in HB. unfold depth in *.
  assert (2 * len (serialize (rev stack)) <= 3 * len (expand (rev stack)) + 1) as Hroom.
  { destruct stack as [|[bytes|n byte] stack]; simpl length in *;
      cbv beta iota in Hbound.
    - by vm_compute.
    - apply Forall_cons in Hwf as [[? ?] _]. lia.
    - lia. }
  pose proof (len_nonneg (expand (rev stack))).
  assert (len (serialize (rev stack)) <= (3 * len (expand (rev stack)) + 1) / 2)
    by (apply Z.div_le_lower_bound; lia).
  lia.
Qed.

(** * The run-writing loop of the stack-based encoder *)

Lemma get_unwritten out new junk p :
  len new <= len junk -> len out + len new <= p ->
  get (out ++ new ++ sfx junk (len new)) p = get (out ++ junk) p.
Proof.
  intros Hk Hp. pose proof (len_nonneg out). pose proof (len_nonneg new).
  rewrite !get_app_r by lia. rewrite get_sfx by lia. f_equal. lia.
Qed.

Lemma sub_middle (a b c : list Z) : sub (a ++ b ++ c) (len a) (len b) = b.
Proof.
  unfold sub, sfx, len. rewrite !Nat2Z.id, drop_app_length. apply take_app_length.
Qed.

Lemma sub_head a i k x l : sub a i k = x :: l -> 0 <= i -> get a i = Some x.
Proof.
  intros Hs Hi. rewrite <- head_sfx by done. unfold sub in Hs.
  destruct (sfx a i) as [|y l'], (Z.to_nat k); simpl in Hs; try done. by simplify_eq.
Qed.

Section Write.
Import StackBased.
Variable data : list Z.
Hypothesis data_octets : octets data.

(** One round writes the packed form of the run whose header it reads. *)
Lemma write_body_run out junk iRead iStackRead iWrite r :
  wf_run r -> 0 <= iRead -> iRead + len (expand_run r) <= len data ->
  sub data iRead (len (expand_run r)) = expand_run r ->
  get (out ++ junk) iStackRead = Some (header r) ->
  iWrite = len out -> len (header r :: payload r) <= len junk ->
  write_body data (out ++ junk, iRead, iStackRead, iWrite)
  = Ret (Next (out ++ (header r :: payload r) ++ sfx junk (len (header r :: payload r)),
               iRead + len (expand_run r), iStackRead - 1,
               iWrite + len (header r :: payload r))).
Proof.
  intros Hr Hi Hn Hsub Hget -> Hj. unfold write_body. rewrite Hget.
  destruct r as [bytes|n v]; simpl in Hr, Hn, Hsub, Hj |- *; destruct Hr as [Hr1 Hr2].
  - rewrite len_cons in Hj.
    destruct (Z.ltb_spec 128 (len bytes - 1)); [lia|].
    destruct (Z.ltb_spec (len bytes - 1) 128); [|lia].
    destruct junk as [|x junk]; rewrite ?len_nil, ?len_cons in Hj; [lia|].
    rewrite set_app_len, ToUint8_octet by lia.
    replace (out ++ len bytes - 1 :: junk) with ((out ++ [len bytes - 1]) ++ junk)
      by by rewrite <- app_assoc.
    replace (len out + 1) with (len (out ++ [len bytes - 1]))
      by (rewrite len_app, len_cons, len_nil; lia).
    replace (len bytes - 1 + 1) with (len bytes) by lia.
    assert (sfx (x :: junk) (len (len bytes - 1 :: bytes)) = sfx junk (len bytes)) as ->.
    { rewrite len_cons. unfold sfx.
      by replace (Z.to_nat (1 + len bytes)) with (S (Z.to_nat (len bytes))) by lia. }
    destruct (Z.leb_spec COPY_THRESHOLD (len bytes)).
    + rewrite slice_sub, Hsub by lia.
      rewrite set_from_fits by (try done; lia). run.
      rewrite len_app, !len_cons, len_nil, <- !app_assoc. simpl.
      by replace (len out + (1 + 0) + len bytes) with (len out + (1 + len bytes)) by lia.
    + unfold for_range. rewrite Z.sub_0_r.
      rewrite copy_counted by (rewrite ?Z2Nat.id by lia; try done; lia).
      rewrite Z2Nat.id, Hsub by lia.
      rewrite len_app, !len_cons, len_nil, <- !app_assoc. simpl.
      unfold sfx.
      by replace (len out + (1 + 0) + len bytes) with (len out + (1 + len bytes)) by lia.
  - rewrite len_replicate in *. rewrite !len_cons, len_nil in *.
    destruct (Z.ltb_spec 128 (257 - n)); [|lia].
    assert (get data iRead = Some v) as Hv.
    { apply (sub_head data iRead n v (replicate (Z.to_nat (n - 1)) v)); [|done].
      rewrite Z2Nat.id in Hsub by lia. rewrite Hsub.
      by replace (Z.to_nat n) with (S (Z.to_nat (n - 1))) by lia. }
    rewrite Hv, write_two by (try done; try lia; eauto using get_octet).
    rewrite Z2Nat.id by lia.
    replace (257 - (257 - n)) with n by lia.
    replace (len out + 1 + 1) with (len out + (1 + (1 + 0))) by lia. done.
Qed.

Lemma len_serialize_rev_app upper lower :
  len (serialize (rev (upper ++ lower)))
  = len (serialize (rev lower)) + len (serialize (rev upper)).
Proof. by rewrite rev_app_distr, serialize_app, len_app. Qed.

Lemma depth_app upper lower : depth (upper ++ lower) = depth upper + depth lower.
Proof. unfold depth. rewrite length_app. lia. Qed.

(** The run-writing loop puts the packed form of the runs, bottom first, at
    the start of the buffer. *)
Lemma write_runs_spec B stack s :
  stack_shape data B stack s (len data) -> ceil_1_5 (len data) <= B ->
  exists junk,
    write_runs data (buffer s) (iStack s)
    = Ret (serialize (rev stack) ++ junk, len (serialize (rev stack))).
Proof.
  intros (HB & HnB & Hi & (pfx & Hbuf) & Hwf & Hp & Hcov & Hexp) Hroom.
  rewrite pre_all in Hexp by lia.
  assert (ceil_1_5_len (expand (rev stack)) <= B) as Hroom'
    by (unfold ceil_1_5_len; by rewrite Hexp).
  pose proof (room_for_all stack B Hwf Hp Hroom') as Hall.
  assert (len pfx = B - depth stack) as Hpfx.
  { apply (f_equal len) in Hbuf. rewrite len_app, HB, len_map_header in Hbuf.
    unfold depth. lia. }
  unfold write_runs.
  while_inv
    (fun st : list Z * Z * Z * Z =>
       let '(buffer, iRead, iStackRead, iWrite) := st in
       exists upper lower junk,
         stack = upper ++ lower /\ iStackRead = B - 1 - depth lower /\
         iRead = len (expand (rev lower)) /\ iWrite = len (serialize (rev lower)) /\
         buffer = serialize (rev lower) ++ junk /\ len buffer = B /\
         forall t, 0 <= t < depth upper ->
           get buffer (B - depth stack + t) = get (map header upper) t)
    (fun st : list Z * Z * Z * Z =>
       exists junk, st.1.1.1 = serialize (rev stack) ++ junk /\
         st.2 = len (serialize (rev stack)))
    (fun st : list Z * Z * Z * Z => Z.to_nat (st.1.2 - iStack s)) Hloop.
  - intros [[[buffer iRead] iStackRead] iWrite]
      (upper & lower & junk & Hst & -> & -> & -> & -> & HlenB & Hup) Hc.
    apply Z.ltb_ge in Hc. rewrite Hi, Hst, depth_app in Hc.
    assert (upper = []) as ->.
    { destruct upper; [done|]. unfold depth in Hc. simpl in Hc. lia. }
    simpl in Hst. subst lower. exists junk. done.
  - intros [[[buffer iRead] iStackRead] iWrite]
      (upper & lower & junk & Hst & -> & -> & -> & -> & HlenB & Hup) Hc. left.
    apply Z.ltb_lt in Hc. rewrite Hi, Hst, depth_app in Hc.
    destruct (rev upper) as [|r reppu] eqn:Hrev.
    { apply (f_equal (@rev run)) in Hrev. rewrite rev_involutive in Hrev.
      simpl in Hrev. subst upper. unfold depth in Hc. simpl in Hc. lia. }
    apply (f_equal (@rev run)) in Hrev. rewrite rev_involutive in Hrev.
    simpl in Hrev. set (upper' := rev reppu) in *. subst upper.
    rewrite <- app_assoc in Hst. simpl in Hst.
    assert (wf_run r) as Hr.
    { rewrite Hst in Hwf. apply Forall_app in Hwf as [_ Hwf].
      by apply Forall_cons in Hwf as [? _]. }
    pose proof (len_expand_run r Hr) as Hin.
    assert (data = expand (rev lower) ++ expand_run r ++ expand (rev upper')) as Hdata.
    { rewrite <- Hexp, Hst, rev_app_distr. simpl rev.
      by rewrite !expand_app, expand_singleton, <- app_assoc. }
    assert (len (serialize (rev (r :: lower))) <= B) as Hfit.
    { rewrite Hst, len_serialize_rev_app in Hall.
      pose proof (len_nonneg (serialize (rev upper'))). lia. }
    simpl rev in Hfit. rewrite serialize_app, serialize_singleton, len_app in Hfit.
    rewrite len_app in HlenB.
    rewrite (write_body_run (serialize (rev lower)) junk _ _ _ r); try done.
    + eexists. split; [done|]. split.
      * exists upper', (r :: lower),
          (sfx junk (len (header r :: payload r))).
        split; [done|]. split; [unfold depth; simpl length; lia|].
        simpl rev. rewrite expand_app, expand_singleton, serialize_app,
          serialize_singleton, !len_app.
        split; [done|]. split; [done|]. split; [by rewrite <- app_assoc|].
        split; [rewrite ?len_app, len_sfx by (pose proof (len_nonneg (header r :: payload r)); lia); lia|].
        intros t Ht.
        rewrite get_unwritten; [rewrite Hup|lia|].
        -- rewrite map_app, get_app_l; [done|]. rewrite len_map_header.
           unfold depth in Ht. lia.
        -- rewrite depth_app. unfold depth in *. simpl length. lia.
        -- destruct upper' as [|top above] eqn:Hupper;
             [unfold depth in Ht; simpl in Ht; lia|].
           pose proof (room_below_top top (above ++ r :: lower) B) as Hbelow.
           change (top :: above ++ r :: lower) with ((top :: above) ++ r :: lower) in Hbelow.
           rewrite <- Hst in Hbelow.
           specialize (Hbelow Hwf Hp Hroom').
           rewrite len_serialize_rev_app in Hbelow. simpl rev in Hbelow.
           rewrite serialize_app, serialize_singleton, len_app in Hbelow.
           pose proof (len_nonneg (serialize (rev above))). clear - Hbelow H Ht. destruct Ht as [Ht _].
           revert Hbelow H. generalize (len (serialize (rev above))), (depth stack),
             (len (header r :: payload r)), (len (serialize (rev lower))). lia.
      * cbn [fst snd]. rewrite Hi, Hst, depth_app. unfold depth. simpl length. lia.
    + pose proof (len_nonneg (expand (rev lower))). lia.
    + rewrite Hdata at 1. rewrite !len_app.
      pose proof (len_nonneg (expand (rev upper'))). lia.
    + rewrite Hdata at 1. apply sub_middle.
    + replace (B - 1 - depth lower)
        with (B - depth stack + (depth (upper' ++ [r]) - 1))
        by (rewrite Hst, !depth_app; unfold depth; simpl length; lia).
      rewrite Hup by (rewrite depth_app; unfold depth; simpl length; lia).
      rewrite map_app, get_app_r by (rewrite len_map_header, depth_app; unfold depth; simpl length; lia).
      rewrite len_map_header, depth_app.
      replace (depth upper' + depth [r] - 1 - Z.of_nat (length upper')) with 0
        by (unfold depth; simpl length; lia).
      done.
    + lia.
  - exists stack, [], (buffer s). rewrite app_nil_r. simpl.
    split; [done|]. split; [unfold depth; simpl; lia|].
    split; [done|]. split; [done|]. split; [done|]. split; [done|].
    intros t Ht. rewrite Hbuf, get_app_r by lia. f_equal. lia.
  - cbn [fst snd]. unfold fuel_for.
    pose proof (length_le_expand (rev stack)) as Hle.
    rewrite Hexp, length_rev in Hle. specialize (Hle (Forall_rev Hwf)).
    rewrite HB, Hi. unfold depth, len in *. lia.
  - destruct Hloop as ([[[buffer iRead] iStackRead] iWrite] & -> & junk & Hb & Hw).
    cbn [fst snd] in *. run. subst. eauto.
Qed.
End Write.

Lemma ceil_1_5_ge n : 0 <= n -> n <= StackBased.ceil_1_5 n.
Proof.
  intros ?. unfold StackBased.ceil_1_5. apply Z.div_le_lower_bound; lia.
Qed.

(** With room for [ceil_1_5 (len data)] bytes in [buffer], the encoder of
    part_000 (lines 231-382) returns a stream of well-formed runs that stands
    for the input. *)
Lemma stack_compress_buffer data buffer :
  octets data -> StackBased.ceil_1_5 (len data) <= len buffer ->
  exists rs, StackBased.compress data (Some buffer) = Ret (serialize rs) /\
    Forall wf_run rs /\ expand rs = data.
Proof.
  intros Hd Hroom. pose proof (len_nonneg data) as Hlen.
  pose proof (ceil_1_5_ge (len data) Hlen) as Hge.
  unfold StackBased.compress.
  destruct (Z.ltb_spec (len buffer) (StackBased.ceil_1_5 (len data))); [lia|]. run.
  destruct (Z.eqb_spec (len data) 0) as [H0|H0].
  { exists []. destruct data; [|rewrite len_cons in H0; pose proof (len_nonneg data); lia].
    split; [|done]. f_equal. apply (slice_prefix [] buffer). }
  destruct (Z.eqb_spec (len data) 1) as [H1|H1].
  { destruct data as [|v [|v' data]];
      rewrite ?len_cons, ?len_nil in H1; try (pose proof (len_nonneg data)); try lia.
    exists [Literal [v]]. pose proof (proj1 (Forall_singleton _ _) Hd) as Hv.
    split; [|split; [|done]].
    - f_equal. rewrite get_cons_0.
      change (StackBased.ceil_1_5 (len [v])) with 2 in Hroom.
      pose proof (write_two [] buffer 0 0 v) as Hw.
      change (0 + 1) with 1 in Hw. rewrite !app_nil_l in Hw.
      rewrite Hw; [|done|lia|lia|apply Hv].
      apply (slice_prefix [0; v] (sfx buffer 2)).
    - apply Forall_singleton. simpl. split; [by rewrite len_cons, len_nil|done]. }
  destruct (collect_runs_spec data (len buffer) Hd (fuel_for data)
              (StackBased.mkState buffer (get data 0) (get data 1) 2 (len buffer - 1) 0) [])
    as (s' & stack & -> & Hshape).
  - split; [split; [|done]|]; cbn [StackBased.iRead StackBased.anchor StackBased.crnt].
    + split; [done|]. split; [lia|]. split; [unfold depth; simpl; lia|].
      split; [exists buffer; by rewrite app_nil_r|]. split; [done|]. split; [done|].
      split; [lia|]. simpl. by rewrite pre_0.
    + split; [lia|done].
  - cbn [StackBased.iRead]. unfold fuel_for, len. lia.
  - run. destruct (write_runs_spec data Hd _ _ _ Hshape Hroom) as (junk & ->). run.
    exists (rev stack). rewrite slice_prefix. split; [done|].
    destruct Hshape as (_ & _ & _ & _ & Hwf & _ & _ & Hexp).
    split; [by apply Forall_rev|]. by rewrite Hexp, pre_all by lia.
Qed.

(** Without a scratch buffer the encoder allocates one that is large enough. *)
Lemma stack_compress_runs data :
  octets data ->
  exists rs, StackBased.compress data None = Ret (serialize rs) /\
    Forall wf_run rs /\ expand rs = data.
Proof.
  intros Hd. pose proof (len_nonneg data) as Hlen.
  pose proof (ceil_1_5_ge (len data) Hlen) as Hge.
  destruct (stack_compress_buffer data (alloc (StackBased.ceil_1_5 (len data))) Hd)
    as (rs & Hrs & Hwf & Hexp); [rewrite len_alloc; lia|].
  exists rs. split; [|done]. rewrite <- Hrs. unfold StackBased.compress.
  destruct (Z.ltb_spec (len (alloc (StackBased.ceil_1_5 (len data))))
              (StackBased.ceil_1_5 (len data))); [|done].
  rewrite len_alloc in *. lia.
Qed.

(** * The properties of the specification *)

(** ** Helper lemmas *)

Lemma eqb_result_true m expected : eqb_result m expected = true -> m = Ret expected.
Proof. destruct m; simpl; try done. intros ?%bool_decide_eq_true. by subst. Qed.

Lemma repeats_ok_split compress b : repeats_ok compress b = true -> repeats_split compress b.
Proof.
  unfold repeats_ok. intros [H128 H129]%andb_prop.
  split; by apply eqb_result_true.
Qed.

Lemma all_repeats_checked : forallb all_repeats_ok (seqZ 0 256) = true.
Proof. vm_compute. reflexivity. Qed.

Lemma octets_L_R2_L : octets L_R2_L.
Proof. unfold octets, L_R2_L. repeat (constructor; [lia|]). constructor. Qed.

Lemma runs_round_trip rs :
  Forall wf_run rs -> StackBased.decompress (serialize rs) = Ret (expand rs).
Proof.
  intros Hwf. apply stack_decompress_decodes;
    [by apply octets_serialize|by apply decodes_serialize].
Qed.

Lemma runs_emit_no_noop rs result :
  result = Ret (serialize rs) -> Forall wf_run rs -> emits_no_noop result.
Proof.
  intros -> Hwf. exists rs. split; [done|].
  rewrite headers_serialize by done. split; [done|].
  split.
  - eapply Forall_impl; [exact Hwf|]. apply wf_run_header_ok.
  - apply Forall_map. eapply Forall_impl; [exact Hwf|].
    intros r Hr. by apply header_ok_emitted, wf_run_header_ok.
Qed.

Lemma runs_at_most_twice rs result x :
  result = Ret (serialize rs) -> Forall wf_run rs -> expand rs = x ->
  at_most_twice result x.
Proof.
  intros -> Hwf <-. exists (serialize rs). split; [done|]. by apply len_serialize.
Qed.

Lemma decodes_app a b ra rb :
  decodes a ra -> decodes b rb -> decodes (a ++ b) (ra ++ rb).
Proof.
  induction 1 as [|h bytes rest raw Hh Hlen _ IH|h byte rest raw Hh _ IH|rest raw _ IH];
    intros Hb; simpl.
  - done.
  - rewrite <- !app_assoc. by constructor; [..|apply IH].
  - rewrite <- app_assoc. by constructor; [|apply IH].
  - by constructor; apply IH.
Qed.

(** [Math.ceil(1.5*n)] is the least integer that is at least [1.5*n]. *)
Lemma ceil_1_5_spec n m : StackBased.ceil_1_5 n <= m <-> 3 * n <= 2 * m.
Proof.
  unfold StackBased.ceil_1_5. split; intros Hle.
  - assert (0 < 2) as Hpos by lia.
    pose proof (Z.mod_pos_bound (3 * n + 1) 2 Hpos).
    pose proof (Z_div_mod_eq_full (3 * n + 1) 2). lia.
  - enough ((3 * n + 1) / 2 < m + 1) by lia. apply Z.div_lt_upper_bound; lia.
Qed.

(** ** The decoder of part_000, lines 394-459 *)

(** It fails exactly on the streams with a run that is cut short. *)
Lemma stack_decompress_fails_iff_truncated packed :
  octets packed ->
  (exists m, StackBased.decompress packed = Throw (PackBitsError m)) <-> truncated packed.
Proof.
  intros Hp. split.
  - intros [m Hm]. destruct (decodes_or_truncated packed Hp) as [[raw Hraw]|Ht]; [|done].
    rewrite (stack_decompress_decodes packed raw Hp Hraw) in Hm. discriminate.
  - apply stack_decompress_truncated.
Qed.

(** A result, or an error and no bytes at all. *)
Lemma stack_decompress_all_or_nothing packed :
  octets packed ->
  (exists raw, StackBased.decompress packed = Ret raw /\ decodes packed raw) \/
  (exists m, StackBased.decompress packed = Throw (PackBitsError m)).
Proof.
  intros Hp. destruct (decodes_or_truncated packed Hp) as [[raw Hraw]|Ht].
  - left. exists raw. split; [|done]. by apply stack_decompress_decodes.
  - right. by apply stack_decompress_truncated.
Qed.

(** Header 128 is skipped wherever it stands, also at the end. *)
Lemma stack_decompress_skips_noop a b ra rb :
  octets a -> octets b -> decodes a ra -> decodes b rb ->
  StackBased.decompress (a ++ 128 :: b) = Ret (ra ++ rb).
Proof.
  intros Ha Hb Hra Hrb. apply stack_decompress_decodes.
  - apply Forall_app. split; [done|]. apply Forall_cons. split; [lia|done].
  - apply decodes_app; [done|]. by constructor.
Qed.

(** The encoder of src/src/mod.ts keeps the repeat of two of `L-R2-L` as a
    run of its own. *)
Lemma boundary_only_keeps_repeat_of_two :
  BoundaryOnly.compress L_R2_L = Ret [0x00; 0x54; 0xFF; 0xAA; 0x01; 0x80; 0x00].
Proof. vm_compute. reflexivity. Qed.

(** ** The properties, one by one *)

(** C1: for every byte sequence [x], the empty one included, decompressing
    what [compress] returns gives exactly [x]; for the encoder and decoder of
    src/src/mod.ts, for the context-aware encoder of part_000 (lines 32-103)
    and for the stack-based pair of part_000 (lines 231-459). *)
Theorem round_trip x :
  octets x ->
  round_trips BoundaryOnly.compress BoundaryOnly.decompress x /\
  round_trips ContextAware.compress ContextAware.decompress x /\
  round_trips (fun data => StackBased.compress data None) StackBased.decompress x.
Proof.
  intros Hx. unfold round_trips.
  destruct (boundary_compress_runs x Hx) as (rs1 & -> & Hwf1 & Hexp1 & _).
  destruct (context_compress_runs x Hx) as (rs2 & -> & Hwf2 & Hexp2 & _).
  destruct (stack_compress_runs x Hx) as (rs3 & -> & Hwf3 & Hexp3).
  run. unfold ContextAware.decompress.
  rewrite !boundary_decompress_serialize, runs_round_trip by done.
  by rewrite Hexp1, Hexp2, Hexp3.
Qed.

(** The round trip on the input of the test case `L-R2-L`. *)
Lemma round_trip_witness :
  octets L_R2_L /\
  round_trips BoundaryOnly.compress BoundaryOnly.decompress L_R2_L /\
  round_trips ContextAware.compress ContextAware.decompress L_R2_L /\
  round_trips (fun data => StackBased.compress data None) StackBased.decompress L_R2_L.
Proof. split; [exact octets_L_R2_L|exact (round_trip L_R2_L octets_L_R2_L)]. Defined.

(** C2: [decompress] is to fail exactly when a run is cut short.  In
    src/src/mod.ts the size pass throws on the stream [0x80], in which no run
    is cut short: after every header it asks for one more byte, also after the
    no-op header 128. *)
Theorem boundary_decompress_fails_untruncated :
  ~ truncated [0x80] /\
  decodes [0x80] [] /\
  BoundaryOnly.calculateDecompressedSize [0x80] = Throw (PackBitsError UnexpectedEnd) /\
  BoundaryOnly.decompress [0x80] = Throw (PackBitsError UnexpectedEnd).
Proof.
  split; [|split; [repeat constructor|split; reflexivity]].
  intros Ht. inversion Ht as [h rest Hh Hlen|h Hh|h bytes rest Hh Hlen Hrest Heq
                              |h byte rest Hh Hrest|rest Hrest]; subst; try lia.
  inversion Hrest.
Qed.

(** C3: header 128 is to be accepted at every place, the last byte included.
    The decoder of src/src/mod.ts skips it in front of a run and throws when it
    is the last byte; the decoder of part_000 (lines 394-459) accepts both. *)
Theorem boundary_decompress_rejects_final_noop :
  BoundaryOnly.decompress [0x80; 0x00; 0x41] = Ret [0x41] /\
  BoundaryOnly.decompress [0x00; 0x41; 0x80] = Throw (PackBitsError UnexpectedEnd) /\
  BoundaryOnly.decompress [0x80] = Throw (PackBitsError UnexpectedEnd) /\
  StackBased.decompress [0x00; 0x41; 0x80] = Ret [0x41] /\
  StackBased.decompress [0x80] = Ret [].
Proof. repeat split; reflexivity. Qed.

(** C4, for inputs of at most 128 bytes: on such an input the output of the
    context-aware encoder (part_000, lines 32-103) is no longer than the output
    of the boundary-only encoder (src/src/mod.ts). *)
Theorem context_aware_no_longer x :
  octets x -> len x <= 128 ->
  exists boundary context,
    BoundaryOnly.compress x = Ret boundary /\
    ContextAware.compress x = Ret context /\
    len context <= len boundary.
Proof.
  intros Hx Hlen.
  destruct (boundary_compress_runs x Hx) as (rs1 & -> & _ & _ & Hrs1).
  destruct (context_compress_runs x Hx) as (rs2 & -> & _ & _ & Hrs2).
  exists (serialize rs1), (serialize rs2). split; [done|]. split; [done|].
  rewrite (Hrs1 Hlen), (Hrs2 Hlen), boundary_runs_cost, context_runs_cost.
  pose proof (context_cost_le_boundary (groups x) (negb (bool_decide (@nil Z = [])))).
  lia.
Qed.

(** The comparison on the input of the test case `L-R2-L`. *)
Lemma context_aware_no_longer_witness :
  octets L_R2_L /\ len L_R2_L <= 128 /\
  exists boundary context,
    BoundaryOnly.compress L_R2_L = Ret boundary /\
    ContextAware.compress L_R2_L = Ret context /\
    len context <= len boundary.
Proof.
  split; [exact octets_L_R2_L|]. split; [vm_compute; discriminate|].
  apply (context_aware_no_longer L_R2_L octets_L_R2_L). vm_compute. discriminate.
Defined.

(** C4 does not hold on longer inputs.  On 127 different bytes followed by a
    repeat of two the boundary-only encoder returns 130 bytes (a literal run of
    127 and a replicate run of 2), the context-aware encoder 131 (literal runs
    of 128 and of 1: the absorbed repeat is cut at the 128th byte). *)
Lemma context_aware_longer_at_129 :
  octets L127_R2 /\ len L127_R2 = 129 /\
  exists boundary context,
    BoundaryOnly.compress L127_R2 = Ret boundary /\
    ContextAware.compress L127_R2 = Ret context /\
    len boundary = 130 /\ len context = 131 /\ len boundary < len context.
Proof.
  split; [|split; [reflexivity|]].
  - apply Forall_forall. intros b Hb. unfold L127_R2 in Hb.
    apply elem_of_app in Hb as [Hb|Hb].
    + apply elem_of_seqZ in Hb. lia.
    + apply elem_of_cons in Hb as [->|Hb]; [lia|].
      apply list_elem_of_singleton in Hb as ->. lia.
  - eexists _, _. split; [vm_compute; reflexivity|].
    split; [vm_compute; reflexivity|]. vm_compute. by repeat split.
Qed.

(** The stack-based encoder returns 131 bytes on that input as well. *)
Lemma stack_based_longer_at_129 :
  exists packed, StackBased.compress L127_R2 None = Ret packed /\ len packed = 131.
Proof. eexists. split; vm_compute; reflexivity. Qed.

(** The case `L-R2-R2-R2-L` of src/src/mod.test.ts: the encoder of
    src/src/mod.ts returns twelve bytes where the test expects the eleven of
    one literal run. *)
Lemma boundary_only_keeps_three_repeats_of_two :
  BoundaryOnly.compress [0x10; 0x20; 0x30; 0x30; 0x40; 0x40; 0x50; 0x50; 0x60; 0x70]
  = Ret [0x01; 0x10; 0x20; 0xFF; 0x30; 0xFF; 0x40; 0xFF; 0x50; 0x01; 0x60; 0x70] /\
  StackBased.compress [0x10; 0x20; 0x30; 0x30; 0x40; 0x40; 0x50; 0x50; 0x60; 0x70] None
  = Ret [0x09; 0x10; 0x20; 0x30; 0x30; 0x40; 0x40; 0x50; 0x50; 0x60; 0x70].
Proof. split; vm_compute; reflexivity. Qed.


(** C6: no header of the output of [compress] is 128: each one is in [0,127]
    and stands for a literal run of header+1 bytes, or in [129,255] and stands
    for a replicate run of 257-header bytes. *)
Theorem never_emits_noop x :
  octets x ->
  emits_no_noop (BoundaryOnly.compress x) /\
  emits_no_noop (ContextAware.compress x) /\
  emits_no_noop (StackBased.compress x None).
Proof.
  intros Hx.
  destruct (boundary_compress_runs x Hx) as (rs1 & Hrs1 & Hwf1 & _).
  destruct (context_compress_runs x Hx) as (rs2 & Hrs2 & Hwf2 & _).
  destruct (stack_compress_runs x Hx) as (rs3 & Hrs3 & Hwf3 & _).
  split; [|split]; eapply runs_emit_no_noop; eassumption.
Qed.

(** The headers emitted on the input of the test case `L-R2-L`. *)
Lemma never_emits_noop_witness :
  octets L_R2_L /\
  emits_no_noop (BoundaryOnly.compress L_R2_L) /\
  emits_no_noop (ContextAware.compress L_R2_L) /\
  emits_no_noop (StackBased.compress L_R2_L None).
Proof. split; [exact octets_L_R2_L|exact (never_emits_noop L_R2_L octets_L_R2_L)]. Defined.

(** C7: for every byte [b], 128 copies of [b] are packed as [0x81, b], and
    129 copies as a replicate run of 128 followed by a literal run of the one
    byte left. *)
Theorem repeats_of_128_and_129 b :
  0 <= b < 256 ->
  repeats_split BoundaryOnly.compress b /\
  repeats_split ContextAware.compress b /\
  repeats_split (fun data => StackBased.compress data None) b /\
  [0x81; b] = serialize [Replicate 128 b] /\
  [0x81; b; 0x00; b] = serialize [Replicate 128 b; Literal [b]].
Proof.
  intros Hb. pose proof all_repeats_checked as Hall.
  rewrite forallb_forall in Hall. specialize (Hall b).
  assert (all_repeats_ok b = true) as Hok.
  { apply Hall, list_elem_of_In, elem_of_seqZ. lia. }
  unfold all_repeats_ok in Hok.
  apply andb_prop in Hok as [[H1 H2]%andb_prop H3].
  split; [by apply repeats_ok_split|]. split; [by apply repeats_ok_split|].
  split; [by apply repeats_ok_split|]. split; reflexivity.
Qed.

(** The repeats of the byte 0xAA. *)
Lemma repeats_of_128_and_129_witness :
  0 <= 0xAA < 256 /\
  repeats_split BoundaryOnly.compress 0xAA /\
  repeats_split ContextAware.compress 0xAA /\
  repeats_split (fun data => StackBased.compress data None) 0xAA /\
  [0x81; 0xAA] = serialize [Replicate 128 0xAA] /\
  [0x81; 0xAA; 0x00; 0xAA] = serialize [Replicate 128 0xAA; Literal [0xAA]].
Proof. split; [lia|apply (repeats_of_128_and_129 0xAA); lia]. Defined.

(** C8: for every input [x] the output of [compress] has at most
    [2 * len x] bytes, with the scratch buffer of part_000 (lines 231-241) as
    well. *)
Theorem compress_at_most_twice x :
  octets x ->
  at_most_twice (BoundaryOnly.compress x) x /\
  at_most_twice (ContextAware.compress x) x /\
  at_most_twice (StackBased.compress x None) x /\
  (forall buffer, StackBased.ceil_1_5 (len x) <= len buffer ->
     at_most_twice (StackBased.compress x (Some buffer)) x).
Proof.
  intros Hx.
  destruct (boundary_compress_runs x Hx) as (rs1 & Hrs1 & Hwf1 & Hexp1 & _).
  destruct (context_compress_runs x Hx) as (rs2 & Hrs2 & Hwf2 & Hexp2 & _).
  destruct (stack_compress_runs x Hx) as (rs3 & Hrs3 & Hwf3 & Hexp3).
  split; [|split; [|split]]; try (eapply runs_at_most_twice; eassumption).
  intros buffer Hroom.
  destruct (stack_compress_buffer x buffer Hx Hroom) as (rs4 & Hrs4 & Hwf4 & Hexp4).
  eapply runs_at_most_twice; eassumption.
Qed.

(** The bound on the input of the test case `L-R2-L`. *)
Lemma compress_at_most_twice_witness :
  octets L_R2_L /\
  at_most_twice (BoundaryOnly.compress L_R2_L) L_R2_L /\
  at_most_twice (ContextAware.compress L_R2_L) L_R2_L /\
  at_most_twice (StackBased.compress L_R2_L None) L_R2_L /\
  (forall buffer, StackBased.ceil_1_5 (len L_R2_L) <= len buffer ->
     at_most_twice (StackBased.compress L_R2_L (Some buffer)) L_R2_L).
Proof.
  split; [exact octets_L_R2_L|exact (compress_at_most_twice L_R2_L octets_L_R2_L)].
Defined.

(** C9: with a scratch buffer, [compress] (part_000, lines 231-382) throws
    the buffer-too-small error exactly when the buffer is shorter than the
    ceiling of 1.5 times the input length; otherwise it returns the packed
    input. *)
Theorem scratch_buffer_threshold x buffer :
  octets x ->
  (len buffer < StackBased.ceil_1_5 (len x) <->
   exists expected got,
     StackBased.compress x (Some buffer)
     = Throw (PackBitsError (BufferTooSmall expected got))) /\
  (len buffer < StackBased.ceil_1_5 (len x) ->
   StackBased.compress x (Some buffer)
   = Throw (PackBitsError (BufferTooSmall (StackBased.ceil_1_5 (len x)) (len buffer)))) /\
  (StackBased.ceil_1_5 (len x) <= len buffer ->
   exists packed,
     StackBased.compress x (Some buffer) = Ret packed /\
     StackBased.decompress packed = Ret x) /\
  (len buffer < StackBased.ceil_1_5 (len x) <-> 2 * len buffer < 3 * len x).
Proof.
  intros Hx.
  assert (len buffer < StackBased.ceil_1_5 (len x) ->
          StackBased.compress x (Some buffer)
          = Throw (PackBitsError (BufferTooSmall (StackBased.ceil_1_5 (len x)) (len buffer))))
    as Hsmall.
  { intros Hlt. unfold StackBased.compress.
    by destruct (Z.ltb_spec (len buffer) (StackBased.ceil_1_5 (len x))); [|lia]. }
  assert (StackBased.ceil_1_5 (len x) <= len buffer ->
          exists packed, StackBased.compress x (Some buffer) = Ret packed /\
            StackBased.decompress packed = Ret x) as Hroom.
  { intros Hle. destruct (stack_compress_buffer x buffer Hx Hle) as (rs & -> & Hwf & Hexp).
    exists (serialize rs). split; [done|]. by rewrite runs_round_trip, Hexp. }
  split; [|split; [done|split; [done|]]].
  - split; [eauto|]. intros (expected & got & Hthrow).
    destruct (Z.lt_ge_cases (len buffer) (StackBased.ceil_1_5 (len x))) as [|Hle]; [done|].
    destruct (Hroom Hle) as (packed & Hret & _). rewrite Hret in Hthrow. discriminate.
  - pose proof (ceil_1_5_spec (len x) (len buffer)). lia.
Qed.

(** The threshold on the input of the test case `L-R2-L` with a
    scratch buffer of 8 bytes. *)
Lemma scratch_buffer_threshold_witness :
  octets L_R2_L /\
  (len (alloc 8) < StackBased.ceil_1_5 (len L_R2_L) <->
   exists expected got,
     StackBased.compress L_R2_L (Some (alloc 8))
     = Throw (PackBitsError (BufferTooSmall expected got))) /\
  (len (alloc 8) < StackBased.ceil_1_5 (len L_R2_L) ->
   StackBased.compress L_R2_L (Some (alloc 8))
   = Throw (PackBitsError
              (BufferTooSmall (StackBased.ceil_1_5 (len L_R2_L)) (len (alloc 8))))) /\
  (StackBased.ceil_1_5 (len L_R2_L) <= len (alloc 8) ->
   exists packed,
     StackBased.compress L_R2_L (Some (alloc 8)) = Ret packed /\
     StackBased.decompress packed = Ret L_R2_L) /\
  (len (alloc 8) < StackBased.ceil_1_5 (len L_R2_L) <-> 2 * len (alloc 8) < 3 * len L_R2_L).
Proof.
  split; [exact octets_L_R2_L|exact (scratch_buffer_threshold L_R2_L (alloc 8) octets_L_R2_L)].
Defined.

(** C10: [decompress] of the empty sequence returns the empty sequence. *)
Theorem decompress_empty :
  BoundaryOnly.decompress [] = Ret [] /\
  ContextAware.decompress [] = Ret [] /\
  StackBased.decompress [] = Ret [].
Proof. repeat split; reflexivity. Qed.

(** * More on the decoders *)

(** A complete stream stands for at most 64 times its own length: two bytes
    of a replicate run stand for 128 bytes at most. *)
Lemma decodes_len_bound packed raw : decodes packed raw -> len raw <= 64 * len packed.
Proof.
  induction 1 as [|h bytes rest raw Hh Hb _ IH|h byte rest raw Hh _ IH|rest raw _ IH];
    rewrite ?len_cons, ?len_app, ?len_replicate, ?len_nil; lia.
Qed.

(** ** The decoder of part_000 *)

Lemma stack_decompress_sound packed raw :
  octets packed -> StackBased.decompress packed = Ret raw -> decodes packed raw.
Proof.
  intros Ho Hret. destruct (decodes_or_truncated packed Ho) as [[raw' Hraw]|Ht].
  - rewrite (stack_decompress_decodes packed raw' Ho Hraw) in Hret. by simplify_eq.
  - destruct (stack_decompress_truncated packed Ht) as [m Hm]. congruence.
Qed.

Lemma stack_size_decodes packed raw :
  decodes packed raw -> StackBased.calculateSizeDecompressed packed = Ret (len raw).
Proof.
  intros Hd. unfold StackBased.calculateSizeDecompressed.
  pose proof (len_nonneg packed).
  rewrite (size_loop_decodes packed packed raw) by (unfold fuel_for; auto; lia).
  by run.
Qed.

Section StackBasedErrors.
Import StackBased.
Variable data : list Z.

(** The size pass walks over the complete runs in front of the place where
    it throws. *)
Lemma size_loop_skip complete raw :
  decodes complete raw -> forall tail e,
  (forall i size fuel, 0 <= i <= len data -> sfx data i = tail ->
     (length tail < fuel)%nat ->
     while fuel (fun '(i, size) => i <? len data) (size_body data) (i, size) = Throw e) ->
  forall i size fuel, 0 <= i <= len data -> sfx data i = complete ++ tail ->
    (length (complete ++ tail) < fuel)%nat ->
    while fuel (fun '(i, size) => i <? len data) (size_body data) (i, size) = Throw e.
Proof.
  induction 1 as [|h bytes rest raw Hh Hb _ IH|h byte rest raw Hh _ IH|rest raw _ IH];
    intros tail e Htail i size fuel Hi Hs Hfuel.
  - by apply Htail.
  - destruct fuel as [|fuel]; [simpl in Hfuel; lia|].
    rewrite <- app_comm_cons, <- app_assoc in Hs.
    destruct (sfx_run_inv data i h _ _ ltac:(lia) Hs) as (Hg & Hsub & Hrest & Hlen).
    pose proof (len_nonneg (rest ++ tail)).
    rewrite (while_next _ _ _ _ (i + 1 + (h + 1), size + (h + 1))).
    + apply (IH tail e Htail); [lia | by rewrite <- Hb |].
      simpl in Hfuel. rewrite !length_app in *. lia.
    + by cases_on_tests.
    + apply size_body_literal; [done|lia|lia].
  - destruct fuel as [|fuel]; [simpl in Hfuel; lia|].
    change ((h :: byte :: rest) ++ tail) with (h :: [byte] ++ (rest ++ tail)) in Hs.
    destruct (sfx_run_inv data i h [byte] _ ltac:(lia) Hs) as (Hg & Hsub & Hrest & Hlen).
    rewrite len_cons, len_nil in *. pose proof (len_nonneg (rest ++ tail)).
    rewrite (while_next _ _ _ _ (i + 1 + 1, size + (257 - h))).
    + apply (IH tail e Htail); [lia | | simpl in Hfuel; lia].
      by replace (i + 1 + 1) with (i + 1 + (1 + 0)) by lia.
    + by cases_on_tests.
    + apply size_body_replicate; [done|lia|lia].
  - destruct fuel as [|fuel]; [simpl in Hfuel; lia|].
    change ((128 :: rest) ++ tail) with (128 :: [] ++ (rest ++ tail)) in Hs.
    destruct (sfx_run_inv data i 128 [] _ ltac:(lia) Hs) as (Hg & Hsub & Hrest & Hlen).
    rewrite len_nil in *. pose proof (len_nonneg (rest ++ tail)).
    rewrite (while_next _ _ _ _ (i + 1, size)).
    + apply (IH tail e Htail); [lia | | simpl in Hfuel; lia].
      by replace (i + 1) with (i + 1 + 0) by lia.
    + by cases_on_tests.
    + by apply size_body_noop.
Qed.

Lemma size_loop_literal_short h rest i size fuel :
  0 <= h < 128 -> len rest < h + 1 ->
  0 <= i <= len data -> sfx data i = h :: rest -> (length (h :: rest) < fuel)%nat ->
  while fuel (fun '(i, size) => i <? len data) (size_body data) (i, size)
  = Throw (PackBitsError (ExpectedMoreBytes (h + 1 - len rest))).
Proof.
  intros Hh Hl Hi Hs Hfuel. destruct fuel as [|fuel]; [simpl in Hfuel; lia|].
  destruct (sfx_run_inv data i h [] rest ltac:(lia) Hs) as (Hg & Hsub & Hrest & Hlen).
  rewrite len_nil in *. pose proof (len_nonneg rest).
  apply while_throw; [by cases_on_tests|].
  rewrite (size_body_literal_short data i size h) by (try done; lia).
  do 3 f_equal. lia.
Qed.

Lemma size_loop_replicate_short h i size fuel :
  128 < h ->
  0 <= i <= len data -> sfx data i = [h] -> (length [h] < fuel)%nat ->
  while fuel (fun '(i, size) => i <? len data) (size_body data) (i, size)
  = Throw (PackBitsError ExpectedOneMoreByte).
Proof.
  intros Hh Hi Hs Hfuel. destruct fuel as [|fuel]; [simpl in Hfuel; lia|].
  destruct (sfx_run_inv data i h [] [] ltac:(lia) Hs) as (Hg & Hsub & Hrest & Hlen).
  rewrite len_nil in *.
  apply while_throw; [by cases_on_tests|].
  apply (size_body_replicate_short _ _ _ h); [done|lia|lia].
Qed.
End StackBasedErrors.

(** A literal run that is cut short: the error tells how many bytes are
    missing. *)
Lemma stack_decompress_literal_short complete raw h rest :
  decodes complete raw -> 0 <= h < 128 -> len rest < h + 1 ->
  StackBased.decompress (complete ++ h :: rest)
  = Throw (PackBitsError (ExpectedMoreBytes (h + 1 - len rest))).
Proof.
  intros Hc Hh Hl. unfold StackBased.decompress, StackBased.calculateSizeDecompressed.
  pose proof (len_nonneg (complete ++ h :: rest)).
  rewrite (size_loop_skip _ complete raw Hc (h :: rest)
             (PackBitsError (ExpectedMoreBytes (h + 1 - len rest)))); [by run| |lia|done|].
  - intros i size fuel ???. by apply (size_loop_literal_short _ h rest).
  - unfold fuel_for. lia.
Qed.

(** A replicate header at the very end: one more byte is expected. *)
Lemma stack_decompress_replicate_short complete raw h :
  decodes complete raw -> 128 < h ->
  StackBased.decompress (complete ++ [h]) = Throw (PackBitsError ExpectedOneMoreByte).
Proof.
  intros Hc Hh. unfold StackBased.decompress, StackBased.calculateSizeDecompressed.
  pose proof (len_nonneg (complete ++ [h])).
  rewrite (size_loop_skip _ complete raw Hc [h] (PackBitsError ExpectedOneMoreByte));
    [by run| |lia|done|].
  - intros i size fuel ???. by apply (size_loop_replicate_short _ h).
  - unfold fuel_for. lia.
Qed.

(** ** The decoder of src/src/mod.ts *)

Lemma boundary_decompress_sound packed raw :
  octets packed -> BoundaryOnly.decompress packed = Ret raw ->
  decodes packed raw /\ ~ final_noop packed.
Proof.
  intros Ho Hret. split.
  - destruct (decodes_or_truncated packed Ho) as [[raw' Hraw]|Ht].
    + destruct (boundary_decompress_decodes packed raw' Ho Hraw) as [Hf|Hret'].
      * rewrite (boundary_decompress_final_noop packed Hf) in Hret. discriminate.
      * rewrite Hret' in Hret. by simplify_eq.
    + destruct (boundary_decompress_truncated packed Ht) as [m Hm]. congruence.
  - intros Hf. rewrite (boundary_decompress_final_noop packed Hf) in Hret. discriminate.
Qed.

Lemma boundary_size_decodes packed raw :
  decodes packed raw ->
  final_noop packed \/ BoundaryOnly.calculateDecompressedSize packed = Ret (len raw).
Proof.
  intros Hd. destruct (size_loop_decodes_1 packed packed raw Hd) as [?|Hsize];
    [by left|right].
  unfold BoundaryOnly.calculateDecompressedSize. pose proof (len_nonneg packed).
  rewrite Hsize by (unfold fuel_for; auto; lia). by run.
Qed.

Section BoundaryOnlyErrors.
Import BoundaryOnly.
Variable data : list Z.

Lemma size_loop_skip_1 complete raw :
  decodes complete raw -> forall tail e, 1 <= len tail ->
  (forall i size fuel, 0 <= i <= len data -> sfx data i = tail ->
     (length tail < fuel)%nat ->
     while fuel (fun '(size, index) => index <? len data) (size_body data) (size, i)
     = Throw e) ->
  forall i size fuel, 0 <= i <= len data -> sfx data i = complete ++ tail ->
    (length (complete ++ tail) < fuel)%nat ->
    while fuel (fun '(size, index) => index <? len data) (size_body data) (size, i)
    = Throw e.
Proof.
  induction 1 as [|h bytes rest raw Hh Hb _ IH|h byte rest raw Hh _ IH|rest raw _ IH];
    intros tail e Hne Htail i size fuel Hi Hs Hfuel.
  - by apply Htail.
  - destruct fuel as [|fuel]; [simpl in Hfuel; lia|].
    rewrite <- app_comm_cons, <- app_assoc in Hs.
    destruct (sfx_run_inv data i h _ _ ltac:(lia) Hs) as (Hg & Hsub & Hrest & Hlen).
    pose proof (len_nonneg (rest ++ tail)).
    rewrite (while_next _ _ _ _ (size + (h + 1), i + 1 + (h + 1))).
    + apply (IH tail e Hne Htail); [lia | by rewrite <- Hb |].
      simpl in Hfuel. rewrite !length_app in *. lia.
    + by cases_on_tests.
    + apply size_body_literal_1; [done|lia|lia|lia].
  - destruct fuel as [|fuel]; [simpl in Hfuel; lia|].
    change ((h :: byte :: rest) ++ tail) with (h :: [byte] ++ (rest ++ tail)) in Hs.
    destruct (sfx_run_inv data i h [byte] _ ltac:(lia) Hs) as (Hg & Hsub & Hrest & Hlen).
    rewrite len_cons, len_nil in *. pose proof (len_nonneg (rest ++ tail)).
    rewrite (while_next _ _ _ _ (size + (257 - h), i + 1 + 1)).
    + apply (IH tail e Hne Htail); [lia | | simpl in Hfuel; lia].
      by replace (i + 1 + 1) with (i + 1 + (1 + 0)) by lia.
    + by cases_on_tests.
    + apply size_body_replicate_1; [done|lia|lia].
  - destruct fuel as [|fuel]; [simpl in Hfuel; lia|].
    change ((128 :: rest) ++ tail) with (128 :: [] ++ (rest ++ tail)) in Hs.
    destruct (sfx_run_inv data i 128 [] _ ltac:(lia) Hs) as (Hg & Hsub & Hrest & Hlen).
    rewrite len_nil in *.
    assert (1 <= len (rest ++ tail)) as Hne'
      by (rewrite len_app; pose proof (len_nonneg rest); lia).
    rewrite (while_next _ _ _ _ (size, i + 1)).
    + apply (IH tail e Hne Htail); [lia | | simpl in Hfuel; lia].
      by replace (i + 1) with (i + 1 + 0) by lia.
    + by cases_on_tests.
    + apply size_body_noop_1; [done|lia].
Qed.

Lemma size_loop_last_byte h i size fuel :
  0 <= i <= len data -> sfx data i = [h] -> (length [h] < fuel)%nat ->
  while fuel (fun '(size, index) => index <? len data) (size_body data) (size, i)
  = Throw (PackBitsError UnexpectedEnd).
Proof.
  intros Hi Hs Hfuel. destruct fuel as [|fuel]; [simpl in Hfuel; lia|].
  destruct (sfx_run_inv data i h [] [] ltac:(lia) Hs) as (Hg & Hsub & Hrest & Hlen).
  rewrite len_nil in *.
  apply while_throw; [by cases_on_tests|]. apply size_body_end. lia.
Qed.

Lemma size_loop_literal_exceeds h rest i size fuel :
  0 <= h < 128 -> 1 <= len rest < h + 1 ->
  0 <= i <= len data -> sfx data i = h :: rest -> (length (h :: rest) < fuel)%nat ->
  while fuel (fun '(size, index) => index <? len data) (size_body data) (size, i)
  = Throw (PackBitsError LiteralRunExceeds).
Proof.
  intros Hh Hl Hi Hs Hfuel. destruct fuel as [|fuel]; [simpl in Hfuel; lia|].
  destruct (sfx_run_inv data i h [] rest ltac:(lia) Hs) as (Hg & Hsub & Hrest & Hlen).
  rewrite len_nil in *.
  apply while_throw; [by cases_on_tests|].
  apply (size_body_literal_short_1 _ _ _ h); [done|lia|lia|lia].
Qed.
End BoundaryOnlyErrors.

(** Whatever the last byte of a stream is, if it stands where a header is
    expected the decoder reports the end of the data. *)
Lemma boundary_decompress_last_byte complete raw h :
  decodes complete raw ->
  BoundaryOnly.decompress (complete ++ [h]) = Throw (PackBitsError UnexpectedEnd).
Proof.
  intros Hc. unfold BoundaryOnly.decompress, BoundaryOnly.calculateDecompressedSize.
  pose proof (len_nonneg (complete ++ [h])).
  rewrite (size_loop_skip_1 _ complete raw Hc [h] (PackBitsError UnexpectedEnd));
    [by run|by rewrite len_cons, len_nil| |lia|done|].
  - intros i size fuel ???. by apply (size_loop_last_byte _ h).
  - unfold fuel_for. lia.
Qed.

(** A literal run with some of its bytes, but not all of them. *)
Lemma boundary_decompress_literal_exceeds complete raw h rest :
  decodes complete raw -> 0 <= h < 128 -> 1 <= len rest < h + 1 ->
  BoundaryOnly.decompress (complete ++ h :: rest)
  = Throw (PackBitsError LiteralRunExceeds).
Proof.
  intros Hc Hh Hl. unfold BoundaryOnly.decompress, BoundaryOnly.calculateDecompressedSize.
  pose proof (len_nonneg (complete ++ h :: rest)).
  rewrite (size_loop_skip_1 _ complete raw Hc (h :: rest) (PackBitsError LiteralRunExceeds));
    [by run|rewrite len_cons; lia| |lia|done|].
  - intros i size fuel ???. by apply (size_loop_literal_exceeds _ h rest).
  - unfold fuel_for. lia.
Qed.

(** * More on the encoders *)

(** ** Inputs without repeats, and inputs that are one repeat *)

Lemma no_repeat_tail x l : no_repeat (x :: l) -> no_repeat l.
Proof.
  intros Hn i Hi Hlt. specialize (Hn (i + 1)).
  rewrite len_cons in Hn. rewrite !get_cons_pos in Hn by lia.
  replace (i + 1 - 1) with i in Hn by lia.
  replace (i + 1 + 1 - 1) with (i + 1) in Hn by lia. apply Hn; lia.
Qed.

Lemma groups_no_repeat data :
  no_repeat data -> groups data = map (fun v => (v, 1)) data.
Proof.
  induction data as [|x l IH]; intros Hn; [done|].
  rewrite groups_cons_ne.
  - simpl. f_equal. apply IH. by eapply no_repeat_tail.
  - destruct l as [|y l]; [done|]. simpl. intros [= ->].
    apply (Hn 0); [lia|rewrite !len_cons; pose proof (len_nonneg l); lia|].
    rewrite get_cons_0, get_cons_pos by lia. by rewrite get_cons_0.
Qed.

Lemma groups_constant (m : nat) v :
  groups (replicate (S m) v) = [(v, Z.of_nat (S m))].
Proof.
  pose proof (groups_replicate m v []) as Hg. rewrite app_nil_r in Hg. by apply Hg.
Qed.

(** Where no repeat has exactly two bytes the two segmentations agree. *)
Lemma context_runs_boundary gs :
  Forall (fun g : Z * Z => g.2 <> 2) gs ->
  forall open, context_runs open gs = boundary_runs open gs.
Proof.
  induction 1 as [|[v k] gs Hk _ IH]; intros open; [done|].
  simpl in *. destruct (Z.eqb_spec k 1); [apply IH|].
  destruct (Z.eqb_spec k 2); [done|]. simpl. by rewrite IH.
Qed.

(** ** The runs of the stack-based encoder *)

Lemma adjacent_ok_snoc l a b :
  adjacent_ok (l ++ [a]) -> follows_ok a b -> adjacent_ok ((l ++ [a]) ++ [b]).
Proof.
  induction l as [|x l IH]; intros Hl Hab; [by simpl|].
  destruct l as [|y l]; simpl in *; [tauto|].
  destruct Hl as [Hxy Hl]. split; [done|]. by apply IH.
Qed.

Lemma pairs_ok_rev stack : pairs_ok stack -> adjacent_ok (rev stack).
Proof.
  induction stack as [|b stack IH]; [done|].
  destruct stack as [|a below]; [done|].
  intros [Hab Hp]. specialize (IH Hp). simpl in IH |- *.
  by apply adjacent_ok_snoc.
Qed.

(** The runs the encoder of part_000 returns, top of the stack first. *)
Lemma stack_compress_stack data buffer :
  octets data -> StackBased.ceil_1_5 (len data) <= len buffer ->
  exists stack, StackBased.compress data (Some buffer) = Ret (serialize (rev stack)) /\
    Forall wf_run stack /\ pairs_ok stack /\ expand (rev stack) = data.
Proof.
  intros Hd Hroom. pose proof (len_nonneg data) as Hlen.
  pose proof (ceil_1_5_ge (len data) Hlen) as Hge.
  unfold StackBased.compress.
  destruct (Z.ltb_spec (len buffer) (StackBased.ceil_1_5 (len data))); [lia|]. run.
  destruct (Z.eqb_spec (len data) 0) as [H0|H0].
  { exists []. destruct data; [|rewrite len_cons in H0; pose proof (len_nonneg data); lia].
    split; [|done]. f_equal. apply (slice_prefix [] buffer). }
  destruct (Z.eqb_spec (len data) 1) as [H1|H1].
  { destruct data as [|v [|v' data]];
      rewrite ?len_cons, ?len_nil in H1; try (pose proof (len_nonneg data)); try lia.
    exists [Literal [v]]. pose proof (proj1 (Forall_singleton _ _) Hd) as Hv.
    split; [|split; [|done]].
    - f_equal. rewrite get_cons_0.
      change (StackBased.ceil_1_5 (len [v])) with 2 in Hroom.
      pose proof (write_two [] buffer 0 0 v) as Hw.
      change (0 + 1) with 1 in Hw. rewrite !app_nil_l in Hw.
      rewrite Hw; [|done|lia|lia|apply Hv].
      apply (slice_prefix [0; v] (sfx buffer 2)).
    - apply Forall_singleton. simpl. split; [by rewrite len_cons, len_nil|done]. }
  destruct (collect_runs_spec data (len buffer) Hd (fuel_for data)
              (StackBased.mkState buffer (get data 0) (get data 1) 2 (len buffer - 1) 0) [])
    as (s' & stack & -> & Hshape).
  - split; [split; [|done]|]; cbn [StackBased.iRead StackBased.anchor StackBased.crnt].
    + split; [done|]. split; [lia|]. split; [unfold depth; simpl; lia|].
      split; [exists buffer; by rewrite app_nil_r|]. split; [done|]. split; [done|].
      split; [lia|]. simpl. by rewrite pre_0.
    + split; [lia|done].
  - cbn [StackBased.iRead]. unfold fuel_for, len. lia.
  - run. destruct (write_runs_spec data Hd _ _ _ Hshape Hroom) as (junk & ->). run.
    exists stack. rewrite slice_prefix. split; [done|].
    destruct Hshape as (_ & _ & _ & _ & Hwf & Hp & _ & Hexp).
    split; [done|]. split; [done|]. by rewrite Hexp, pre_all by lia.
Qed.

(** The packed form and one byte for each run fit in [ceil_1_5 (len data)]
    bytes. *)
Lemma stack_runs_fit stack :
  Forall wf_run stack -> pairs_ok stack ->
  len (serialize (rev stack)) <= ceil_1_5_len (expand (rev stack)).
Proof. intros Hwf Hp. by apply room_for_all. Qed.

(** ** Runs that stand for an input without repeats *)

Lemma no_repeat_app_r a b : no_repeat (a ++ b) -> no_repeat b.
Proof.
  induction a as [|x a IH]; [done|]. intros Hn. apply IH.
  by apply (no_repeat_tail x).
Qed.

Lemma no_repeat_head x y l : no_repeat (x :: y :: l) -> x <> y.
Proof.
  intros Hn ->. apply (Hn 0); [lia|rewrite !len_cons; pose proof (len_nonneg l); lia|].
  rewrite get_cons_0, get_cons_pos by lia. by rewrite get_cons_0.
Qed.

(** Such an input of at most 128 bytes has one way to be cut into runs that
    the stack-based encoder leaves side by side: one literal run. *)
Lemma runs_without_repeats rs x :
  Forall wf_run rs -> adjacent_ok rs -> expand rs = x ->
  no_repeat x -> 1 <= len x <= 128 -> rs = [Literal x].
Proof.
  intros Hwf Hadj Hexp Hn Hlen.
  assert (forall r rest, wf_run r -> no_repeat (expand_run r ++ rest) ->
            exists bytes, r = Literal bytes) as Hlit.
  { intros [bytes|n v] rest Hr Hnr; [eauto|]. simpl in Hr, Hnr.
    destruct (Z.to_nat n) as [|[|m]] eqn:Hm; [lia|lia|].
    simpl in Hnr. by apply no_repeat_head in Hnr. }
  destruct rs as [|r1 rs].
  { subst x. change (expand []) with (@nil Z) in Hlen. rewrite len_nil in Hlen. lia. }
  apply Forall_cons in Hwf as [Hr1 Hwf]. rewrite expand_cons in Hexp.
  destruct (Hlit r1 (expand rs) Hr1) as [b1 ->]; [by rewrite Hexp|].
  destruct rs as [|r2 rs].
  { change (expand []) with (@nil Z) in Hexp. rewrite app_nil_r in Hexp.
    simpl in Hexp. by subst. }
  apply Forall_cons in Hwf as [Hr2 Hwf]. rewrite expand_cons in Hexp.
  destruct (Hlit r2 (expand rs) Hr2) as [b2 ->].
  { apply (no_repeat_app_r (expand_run (Literal b1))). by rewrite Hexp. }
  destruct Hadj as [Hfollows _]. simpl in Hfollows, Hexp.
  apply (f_equal len) in Hexp. rewrite !len_app in Hexp.
  pose proof (len_nonneg (expand rs)). lia.
Qed.

(** * The scratch buffer does not change the result *)

Lemma get_set_eq a i v : 0 <= i < len a -> get (set a i v) i = Some (ToUint8 v).
Proof.
  intros Hi. unfold get, set, len in *. destruct (Z.leb_spec 0 i); [|lia].
  apply list_lookup_insert_eq. lia.
Qed.

Lemma get_set_ne a i j v : i <> j -> get (set a i v) j = get a j.
Proof.
  intros Hne. unfold get, set.
  destruct (Z.leb_spec 0 i), (Z.leb_spec 0 j); try done.
  apply list_lookup_insert_ne. lia.
Qed.

(** A write at the same distance from the end of both buffers. *)
Lemma get_set_sim b1 b2 i1 i2 v t :
  len b1 - i1 = len b2 - i2 -> 0 <= i1 -> 0 <= i2 -> 0 <= t ->
  (forall t, 1 <= t -> get b1 (i1 + t) = get b2 (i2 + t)) ->
  get (set b1 i1 v) (i1 + t) = get (set b2 i2 v) (i2 + t).
Proof.
  intros Hoff H1 H2 Ht Htop. destruct (decide (t = 0)) as [->|Hne].
  - rewrite !Z.add_0_r. destruct (Z.lt_ge_cases i1 (len b1)).
    + by rewrite !get_set_eq by lia.
    + rewrite !set_out_of_range by lia. by rewrite !get_None by lia.
  - rewrite !get_set_ne by lia. apply Htop. lia.
Qed.

Section Simulation.
Import StackBased.
Variable data : list Z.

Lemma push_sim s1 s2 n c :
  sim s1 s2 -> 0 <= iStack s1 -> 0 <= iStack s2 -> sim (push s1 n c) (push s2 n c).
Proof.
  intros (Ha & Hc & Hr & Hl & Hoff & Hm1 & Hm2 & Htop) H1 H2.
  unfold sim, push. cbn [anchor crnt iRead countLastLiteral buffer iStack].
  rewrite !len_set. repeat (split; [done || lia|]).
  intros t Ht.
  replace (iStack s1 - 1 + t) with (iStack s1 + (t - 1)) by lia.
  replace (iStack s2 - 1 + t) with (iStack s2 + (t - 1)) by lia.
  apply get_set_sim; (done || lia).
Qed.

Lemma merge_sim s1 s2 k : sim s1 s2 -> sim (merge s1 k) (merge s2 k).
Proof.
  intros (Ha & Hc & Hr & Hl & Hoff & Hm1 & Hm2 & Htop).
  unfold sim, merge. cbn [anchor crnt iRead countLastLiteral buffer iStack].
  rewrite !len_set, Hl. repeat (split; [done || lia|]).
  intros t Ht.
  replace (iStack s1 + t) with (iStack s1 + 1 + (t - 1)) by lia.
  replace (iStack s2 + t) with (iStack s2 + 1 + (t - 1)) by lia.
  apply get_set_sim; try lia.
  intros t' Ht'. rewrite <- !Z.add_assoc. apply Htop. lia.
Qed.

Lemma read_crnt_sim s1 s2 : sim s1 s2 -> sim (read_crnt data s1) (read_crnt data s2).
Proof.
  intros (Ha & Hc & Hr & Hl & Hoff & Hm1 & Hm2 & Htop).
  unfold sim, read_crnt. cbn [anchor crnt iRead countLastLiteral buffer iStack].
  rewrite Hr. repeat (split; [done || lia|]). done.
Qed.

Lemma read_anchor_sim s1 s2 : sim s1 s2 -> sim (read_anchor data s1) (read_anchor data s2).
Proof.
  intros (Ha & Hc & Hr & Hl & Hoff & Hm1 & Hm2 & Htop).
  unfold sim, read_anchor. cbn [anchor crnt iRead countLastLiteral buffer iStack].
  rewrite Hr. repeat (split; [done || lia|]). done.
Qed.

Lemma with_anchor_sim s1 s2 v : sim s1 s2 -> sim (with_anchor s1 v) (with_anchor s2 v).
Proof.
  intros (Ha & Hc & Hr & Hl & Hoff & Hm1 & Hm2 & Htop).
  unfold sim, with_anchor. cbn [anchor crnt iRead countLastLiteral buffer iStack].
  repeat (split; [done || lia|]). done.
Qed.

Lemma close_replicate_sim s1 s2 n :
  sim s1 s2 -> 0 <= iStack s1 -> 0 <= iStack s2 ->
  sim (close_replicate s1 n) (close_replicate s2 n).
Proof.
  intros Hs H1 H2. unfold close_replicate.
  destruct Hs as (Ha & Hc & Hr & Hl & Hrest). rewrite Hl.
  assert (sim s1 s2) as Hs by (unfold sim; rewrite Hl; done).
  destruct ((n =? 255) && (0 <? countLastLiteral s2)
            && (countLastLiteral s2 + 2 <=? 128));
    [by apply merge_sim|by apply push_sim].
Qed.

Lemma close_literal_sim s1 s2 n :
  sim s1 s2 -> 0 <= iStack s1 -> 0 <= iStack s2 ->
  sim (close_literal s1 n) (close_literal s2 n).
Proof.
  intros Hs H1 H2. unfold close_literal.
  destruct Hs as (Ha & Hc & Hr & Hl & Hrest). rewrite Hl.
  assert (sim s1 s2) as Hs by (unfold sim; rewrite Hl; done).
  destruct ((0 <? countLastLiteral s2) && (countLastLiteral s2 + n + 1 <=? 128));
    [by apply merge_sim|by apply push_sim].
Qed.

Lemma sim_iRead s1 s2 : sim s1 s2 -> iRead s1 = iRead s2.
Proof. by intros (_ & _ & ? & _). Qed.

Lemma replicate_run_sim fuel : forall s1 s2 n,
  sim s1 s2 -> 0 <= iStack s1 -> 0 <= iStack s2 ->
  result_sim leave_sim (replicate_run fuel data s1 n) (replicate_run fuel data s2 n).
Proof.
  induction fuel as [|fuel IH]; intros s1 s2 n Hs H1 H2; [done|].
  cbn [replicate_run]. rewrite (sim_iRead _ _ Hs).
  destruct (len data <=? iRead s2).
  { by apply close_replicate_sim. }
  pose proof (read_crnt_sim _ _ Hs) as Hs'.
  pose proof Hs' as (Ha & Hc & _). rewrite Ha, Hc.
  destruct (negb (bool_decide (crnt (read_crnt data s2) = anchor (read_crnt data s2)))).
  { simpl.
    assert (sim (close_replicate (read_crnt data s1) n)
              (close_replicate (read_crnt data s2) n)) as Hcs
      by by apply close_replicate_sim.
    pose proof Hcs as (_ & -> & _). by apply with_anchor_sim. }
  destruct (129 <? n - 1); [by apply IH|]. simpl. done.
Qed.

Lemma literal_run_sim fuel : forall s1 s2 n prev,
  sim s1 s2 -> 0 <= iStack s1 -> 0 <= iStack s2 ->
  result_sim leave_sim (literal_run fuel data s1 n prev)
    (literal_run fuel data s2 n prev).
Proof.
  induction fuel as [|fuel IH]; intros s1 s2 n prev Hs H1 H2; [done|].
  cbn [literal_run]. rewrite (sim_iRead _ _ Hs).
  destruct (len data <=? iRead s2).
  { by apply close_literal_sim. }
  pose proof (read_crnt_sim _ _ Hs) as Hs'.
  pose proof Hs' as (Ha & Hc & _ & Hl & _). rewrite Hc.
  destruct (bool_decide (crnt (read_crnt data s2) = prev)).
  { simpl. apply with_anchor_sim. cbn [read_crnt countLastLiteral] in Hl. rewrite Hl.
    destruct ((0 <? countLastLiteral s2) && (countLastLiteral s2 + n <=? 128));
      [by apply merge_sim|by apply push_sim]. }
  destruct (n + 1 <? 127); [by apply IH|]. simpl. done.
Qed.

Lemma block_sim s1 s2 :
  sim s1 s2 -> 0 <= iStack s1 -> 0 <= iStack s2 ->
  result_sim leave_sim (block data s1) (block data s2) /\
  match block data s1 with Ret (Through _ _) => False | _ => True end.
Proof.
  intros Hs H1 H2. unfold block.
  pose proof Hs as (Ha & Hc & _). rewrite Ha, Hc.
  destruct (bool_decide (anchor s2 = crnt s2)).
  - pose proof (replicate_run_sim (fuel_for data) s1 s2 255 Hs H1 H2) as Hrun.
    destruct (replicate_run (fuel_for data) data s1 255) as [[a|a|a|a n]|e|],
             (replicate_run (fuel_for data) data s2 255) as [[b|b|b|b m]|e'|];
      try done; run; try done.
    destruct Hrun as (-> & Hab & Ha0 & Hb0).
    pose proof (push_sim a b m 0 Hab Ha0 Hb0) as Hp.
    rewrite (sim_iRead _ _ Hp).
    destruct (len data <=? iRead (push b m 0)); simpl; [done|].
    split; [|done]. by apply read_anchor_sim.
  - pose proof (literal_run_sim (fuel_for data) s1 s2 1 (crnt s2) Hs H1 H2) as Hrun.
    destruct (literal_run (fuel_for data) data s1 1 (crnt s2)) as [[a|a|a|a n]|e|],
             (literal_run (fuel_for data) data s2 1 (crnt s2)) as [[b|b|b|b m]|e'|];
      try done; run; try done.
    destruct Hrun as (-> & Hab & Ha0 & Hb0).
    pose proof (close_literal_sim a b m Hab Ha0 Hb0) as Hp.
    rewrite (sim_iRead _ _ Hp).
    destruct (len data <=? iRead (close_literal b m)); simpl; [done|].
    split; [|done]. by apply read_anchor_sim.
Qed.
End Simulation.

Section SimulationOfCollect.
Import StackBased.
Variable data : list Z.
Hypothesis data_octets : octets data.

Lemma at_head_iStack B stack s : at_head data B stack s -> 0 <= iStack s.
Proof.
  intros (Hinv & Hi & _). destruct Hinv as [Hshape _].
  pose proof (depth_le_cov data B stack s _ Hshape).
  destruct Hshape as (_ & ? & -> & _). lia.
Qed.

Lemma at_after_iStack B stack s : at_after data B stack s -> 0 <= iStack s.
Proof.
  intros (Hinv & Hi & _). destruct Hinv as [Hshape _].
  pose proof (depth_le_cov data B stack s _ Hshape).
  destruct Hshape as (_ & ? & -> & _). lia.
Qed.

Lemma at_after_read B stack s :
  at_after data B stack s -> iRead s < len data ->
  at_head data B stack (read_crnt data s).
Proof.
  intros (Hinv & Hi & Ha) Hlt. split; [|split; [|split]].
  - apply (stack_inv_ext data B _ s); try done. cbn [read_crnt iRead].
    by replace (iRead s + 1 - 2) with (iRead s - 1) by lia.
  - cbn [read_crnt iRead]. lia.
  - cbn [read_crnt iRead anchor]. rewrite Ha. f_equal. lia.
  - cbn [read_crnt iRead crnt]. f_equal. lia.
Qed.

(** The run-collecting loop ends in related states from related states. *)
Lemma collect_runs_sim B1 B2 fuel : forall s1 s2 stack1 stack2,
  at_head data B1 stack1 s1 -> at_head data B2 stack2 s2 -> sim s1 s2 ->
  result_sim sim (collect_runs fuel data s1) (collect_runs fuel data s2).
Proof.
  induction fuel as [|fuel IH]; intros s1 s2 stack1 stack2 Hh1 Hh2 Hs; [done|].
  cbn [collect_runs].
  destruct (block_sim data s1 s2 Hs (at_head_iStack _ _ _ Hh1) (at_head_iStack _ _ _ Hh2))
    as [Hblock _].
  destruct (block_spec data B1 data_octets stack1 s1 Hh1) as (l1 & Hl1 & Hpost1).
  destruct (block_spec data B2 data_octets stack2 s2 Hh2) as (l2 & Hl2 & Hpost2).
  rewrite Hl1, Hl2 in Hblock |- *. run. simpl in Hblock.
  destruct l1 as [a|a|a|a n], l2 as [b|b|b|b m]; try done.
  - destruct Hpost1 as [[stack1' Ha] _], Hpost2 as [[stack2' Hb] _]. by eapply IH.
  - destruct Hpost1 as [[stack1' Ha] _], Hpost2 as [[stack2' Hb] _].
    rewrite (sim_iRead _ _ Hblock).
    destruct (Z.leb_spec (len data) (iRead b)).
    + pose proof Hblock as (_ & _ & _ & Hl & _). rewrite Hl.
      destruct ((0 <? countLastLiteral b) && (countLastLiteral b + 1 <=? 128)); simpl.
      * by apply merge_sim.
      * apply push_sim; [done|by eapply at_after_iStack..].
    + assert (iRead a < len data) by (rewrite (sim_iRead _ _ Hblock); lia).
      eapply IH; [by eapply at_after_read..|by apply read_crnt_sim].
Qed.
End SimulationOfCollect.

(** ** From related final states to equal outputs *)

(** The header of a well-formed run and the bytes it stands for determine the
    run. *)
Lemma runs_determined rs1 : forall rs2,
  Forall wf_run rs1 -> Forall wf_run rs2 ->
  map header rs1 = map header rs2 -> expand rs1 = expand rs2 -> rs1 = rs2.
Proof.
  induction rs1 as [|r1 rs1 IH]; intros [|r2 rs2] Hwf1 Hwf2 Hh He; try done.
  apply Forall_cons in Hwf1 as [Hr1 Hwf1]. apply Forall_cons in Hwf2 as [Hr2 Hwf2].
  simpl in Hh. injection Hh as Hh Hhs. rewrite !expand_cons in He.
  assert (r1 = r2 /\ expand rs1 = expand rs2) as [-> He'].
  { destruct r1 as [b1|n1 v1], r2 as [b2|n2 v2]; simpl in *; try lia.
    - apply app_inj_1 in He as [-> ->]; [done|]. unfold len in Hh. lia.
    - assert (n1 = n2) as -> by lia.
      destruct (Z.to_nat n2) as [|m] eqn:Hm; [lia|]. simpl in He.
      injection He as -> He. apply app_inv_head in He. done. }
  f_equal. by apply IH.
Qed.

Lemma list_eq_get (l1 l2 : list Z) :
  len l1 = len l2 -> (forall j, 0 <= j < len l1 -> get l1 j = get l2 j) -> l1 = l2.
Proof.
  intros Hlen Hget. apply list_eq. intros i.
  destruct (decide (i < length l1)%nat) as [Hi|Hi].
  - specialize (Hget (Z.of_nat i)). unfold get, len in *.
    destruct (Z.leb_spec 0 (Z.of_nat i)); [|lia]. rewrite Nat2Z.id in Hget.
    apply Hget. lia.
  - unfold len in Hlen. rewrite !lookup_ge_None_2 by lia. done.
Qed.

(** Related final states hold the same stack of runs. *)
Lemma sim_same_stack data B1 B2 stack1 stack2 s1 s2 :
  stack_shape data B1 stack1 s1 (len data) ->
  stack_shape data B2 stack2 s2 (len data) ->
  sim s1 s2 -> stack1 = stack2.
Proof.
  intros (HB1 & _ & Hi1 & (pfx1 & Hb1) & Hwf1 & _ & _ & He1)
         (HB2 & _ & Hi2 & (pfx2 & Hb2) & Hwf2 & _ & _ & He2)
         (_ & _ & _ & _ & Hoff & _ & _ & Htop).
  assert (depth stack1 = depth stack2) as Hdepth by lia.
  assert (len pfx1 = B1 - depth stack1) as Hp1.
  { apply (f_equal len) in Hb1. rewrite len_app, HB1, len_map_header in Hb1.
    unfold depth. lia. }
  assert (len pfx2 = B2 - depth stack2) as Hp2.
  { apply (f_equal len) in Hb2. rewrite len_app, HB2, len_map_header in Hb2.
    unfold depth. lia. }
  assert (map header stack1 = map header stack2) as Hh.
  { apply list_eq_get; [rewrite !len_map_header; unfold depth in Hdepth; lia|].
    intros j Hj. rewrite len_map_header in Hj. specialize (Htop (j + 1)).
    rewrite Hb1, Hb2, !get_app_r in Htop by (unfold depth in *; lia).
    replace (StackBased.iStack s1 + (j + 1) - len pfx1) with j in Htop by lia.
    replace (StackBased.iStack s2 + (j + 1) - len pfx2) with j in Htop by lia.
    apply Htop. lia. }
  assert (rev stack1 = rev stack2) as Hrev.
  { apply runs_determined;
      [by apply Forall_rev|by apply Forall_rev|by rewrite !map_rev, Hh|by rewrite He1, He2]. }
  apply (f_equal (@rev run)) in Hrev. by rewrite !rev_involutive in Hrev.
Qed.

Lemma stack_compress_long data buffer :
  octets data -> 2 <= len data -> StackBased.ceil_1_5 (len data) <= len buffer ->
  let s := StackBased.mkState buffer (get data 0) (get data 1) 2 (len buffer - 1) 0 in
  at_head data (len buffer) [] s /\
  exists s' stack,
    StackBased.collect_runs (fuel_for data) data s = Ret s' /\
    stack_shape data (len buffer) stack s' (len data) /\
    StackBased.compress data (Some buffer) = Ret (serialize (rev stack)).
Proof.
  intros Hd Hlen Hroom s.
  pose proof (ceil_1_5_ge (len data) ltac:(lia)) as Hge.
  assert (at_head data (len buffer) [] s) as Hhead.
  { split; [split; [|done]|]; cbn [s StackBased.iRead StackBased.anchor StackBased.crnt].
    + split; [done|]. split; [lia|]. split; [unfold depth; simpl; lia|].
      split; [exists buffer; by rewrite app_nil_r|]. split; [done|]. split; [done|].
      split; [lia|]. simpl. by rewrite pre_0.
    + split; [lia|done]. }
  split; [done|].
  destruct (collect_runs_spec data (len buffer) Hd (fuel_for data) s [] Hhead)
    as (s' & stack & Hcollect & Hshape).
  { cbn [s StackBased.iRead]. unfold fuel_for, len. lia. }
  exists s', stack. split; [done|]. split; [done|].
  unfold StackBased.compress.
  destruct (Z.ltb_spec (len buffer) (StackBased.ceil_1_5 (len data))); [lia|]. run.
  destruct (Z.eqb_spec (len data) 0); [lia|]. destruct (Z.eqb_spec (len data) 1); [lia|].
  fold s. rewrite Hcollect. run.
  destruct (write_runs_spec data Hd _ _ _ Hshape Hroom) as (junk & ->). run.
  by rewrite slice_prefix.
Qed.

(** With room enough, neither the length of the scratch buffer nor what it
    holds changes what [compress] returns. *)
Lemma stack_compress_any_buffer data buffer1 buffer2 :
  octets data ->
  StackBased.ceil_1_5 (len data) <= len buffer1 ->
  StackBased.ceil_1_5 (len data) <= len buffer2 ->
  StackBased.compress data (Some buffer1) = StackBased.compress data (Some buffer2).
Proof.
  intros Hd Hr1 Hr2. pose proof (len_nonneg data) as Hlen.
  destruct (Z.lt_ge_cases (len data) 2) as [Hshort|Hlong].
  - unfold StackBased.compress.
    destruct (Z.ltb_spec (len buffer1) (StackBased.ceil_1_5 (len data))) as [|_]; [lia|].
    destruct (Z.ltb_spec (len buffer2) (StackBased.ceil_1_5 (len data))) as [|_]; [lia|]. run.
    destruct (Z.eqb_spec (len data) 0) as [H0|H0].
    { f_equal. transitivity (@nil Z);
        [apply (slice_prefix [] buffer1)|symmetry; apply (slice_prefix [] buffer2)]. }
    destruct (Z.eqb_spec (len data) 1) as [H1|H1]; [|lia].
    destruct data as [|v [|v' data]];
      rewrite ?len_cons, ?len_nil in H1; try (pose proof (len_nonneg data)); try lia.
    pose proof (proj1 (Forall_singleton _ _) Hd) as Hv.
    change (StackBased.ceil_1_5 (len [v])) with 2 in Hr1, Hr2.
    f_equal. rewrite get_cons_0.
    pose proof (write_two [] buffer1 0 0 v) as Hw1.
    pose proof (write_two [] buffer2 0 0 v) as Hw2.
    change (0 + 1) with 1 in Hw1, Hw2. rewrite !app_nil_l in Hw1, Hw2.
    rewrite Hw1, Hw2; [|done|lia|lia|apply Hv|done|lia|lia|apply Hv].
    transitivity [0; v];
      [apply (slice_prefix [0; v] (sfx buffer1 2))
      |symmetry; apply (slice_prefix [0; v] (sfx buffer2 2))].
  - destruct (stack_compress_long data buffer1 Hd Hlong Hr1)
      as (Hh1 & s1 & stack1 & Hc1 & Hshape1 & ->).
    destruct (stack_compress_long data buffer2 Hd Hlong Hr2)
      as (Hh2 & s2 & stack2 & Hc2 & Hshape2 & ->).
    pose proof (collect_runs_sim data Hd _ _ (fuel_for data) _ _ _ _ Hh1 Hh2) as Hsim.
    rewrite Hc1, Hc2 in Hsim. simpl in Hsim.
    rewrite (sim_same_stack data _ _ stack1 stack2 s1 s2 Hshape1 Hshape2); [done|].
    apply Hsim. unfold sim. cbn [StackBased.anchor StackBased.crnt StackBased.iRead
      StackBased.countLastLiteral StackBased.buffer StackBased.iStack].
    pose proof (len_nonneg buffer1). pose proof (len_nonneg buffer2).
    repeat (split; [done || lia|]).
    intros t Ht. by rewrite !get_None by lia.
Qed.

(** No scratch buffer is the same as a fresh one of the least length. *)
Lemma stack_compress_none data :
  StackBased.compress data None
  = StackBased.compress data (Some (alloc (StackBased.ceil_1_5 (len data)))).
Proof.
  unfold StackBased.compress.
  destruct (Z.ltb_spec (len (alloc (StackBased.ceil_1_5 (len data))))
              (StackBased.ceil_1_5 (len data))) as [Hlt|]; [|done].
  rewrite len_alloc in Hlt. lia.
Qed.

(** * The stack-based encoder on one repeat *)

Section OneRepeat.
Import StackBased.
Variable data : list Z.
Variable b : Z.
Hypothesis data_constant : forall i, 0 <= i < len data -> get data i = Some b.
Hypothesis data_short : len data <= 128.

(** The [do ... while] of a replicate run reads the input to its end. *)
Lemma replicate_run_constant fuel : forall s n,
  anchor s = Some b -> 0 <= iRead s <= len data -> n = 257 - iRead s ->
  (Z.to_nat (len data - iRead s) < fuel)%nat ->
  exists s', iRead s' = len data /\ buffer s' = buffer s /\ iStack s' = iStack s /\
    countLastLiteral s' = countLastLiteral s /\
    (replicate_run fuel data s n = Ret (BreakLoop (close_replicate s' (257 - len data)))
     \/ replicate_run fuel data s n = Ret (Through s' (257 - len data)) /\ len data = 128).
Proof.
  induction fuel as [|fuel IH]; intros s n Ha Hi Hn Hfuel; [lia|].
  cbn [replicate_run]. destruct (Z.leb_spec (len data) (iRead s)).
  { exists s. repeat (split; [done || lia|]). left. subst n.
    by replace (iRead s) with (len data) by lia. }
  assert (crnt (read_crnt data s) = anchor (read_crnt data s)) as Heq.
  { cbn [read_crnt crnt anchor]. rewrite Ha. apply data_constant. lia. }
  rewrite bool_decide_true by done. cbn [negb].
  destruct (Z.ltb_spec 129 (n - 1)).
  - destruct (IH (read_crnt data s) (n - 1)) as (s' & Hr & Hb & Hs & Hc & Hrun);
      [done|cbn [read_crnt iRead]; lia..|].
    exists s'. repeat (split; [done|]). done.
  - exists (read_crnt data s). cbn [read_crnt iRead buffer iStack countLastLiteral].
    assert (iRead s + 1 = len data) by lia.
    repeat (split; [done || lia|]). right. split; [|lia].
    do 2 f_equal. lia.
Qed.

(** The run-collecting loop pushes one header, that of a replicate run of
    the whole input. *)
Lemma collect_runs_constant buffer0 :
  2 <= len data ->
  exists s', buffer s' = buffer0 /\ iStack s' = len buffer0 - 1 /\
    collect_runs (fuel_for data) data
      (mkState buffer0 (get data 0) (get data 1) 2 (len buffer0 - 1) 0)
    = Ret (push s' (257 - len data) 0).
Proof.
  intros Hlen. set (s := mkState _ _ _ _ _ _).
  assert (fuel_for data = S (length data)) as -> by done.
  cbn [collect_runs]. unfold block.
  assert (anchor s = crnt s) as Heq
    by (unfold s; cbn [anchor crnt]; rewrite !data_constant by lia; done).
  rewrite bool_decide_true by done.
  destruct (replicate_run_constant (fuel_for data) s 255)
    as (s' & Hr & Hb & Hs & Hc & [Hrun|[Hrun H128]]);
    [unfold s; cbn [anchor]; apply data_constant; lia
    |unfold s; cbn [iRead]; lia
    |unfold s; cbn [iRead]; lia
    |unfold s; cbn [iRead]; unfold fuel_for, len; lia|..];
    exists s'; (split; [by rewrite Hb|]); (split; [by rewrite Hs|]); rewrite Hrun; run.
  - unfold close_replicate. rewrite Hc. unfold s. cbn [countLastLiteral].
    change (0 <? 0) with false. by destruct (257 - len data =? 255).
  - cbn [push iRead]. rewrite Hr. destruct (Z.leb_spec (len data) (len data)); [|lia].
    by run.
Qed.
End OneRepeat.

(** [n] copies of one byte, from 2 to 128, become one replicate run. *)
Lemma stack_compress_constant n b :
  0 <= b < 256 -> 2 <= n <= 128 ->
  StackBased.compress (replicate (Z.to_nat n) b) None = Ret [257 - n; b].
Proof.
  intros Hb Hn. set (data := replicate (Z.to_nat n) b).
  assert (len data = n) as Hlen by (unfold data; rewrite len_replicate; lia).
  assert (octets data) as Ho by by apply octets_replicate.
  assert (forall i, 0 <= i < len data -> get data i = Some b) as Hconst.
  { intros i Hi. apply get_replicate. rewrite Hlen in Hi. lia. }
  rewrite stack_compress_none. set (buffer0 := alloc (StackBased.ceil_1_5 (len data))).
  assert (StackBased.ceil_1_5 (len data) <= len buffer0) as Hroom.
  { unfold buffer0. rewrite len_alloc.
    pose proof (ceil_1_5_ge (len data) (len_nonneg data)). lia. }
  destruct (stack_compress_long data buffer0 Ho ltac:(lia) Hroom)
    as (_ & sF & stack & Hcollect & Hshape & ->).
  destruct (collect_runs_constant data b Hconst ltac:(lia) buffer0 ltac:(lia))
    as (s' & Hbuf & Hst & Hcollect').
  rewrite Hcollect' in Hcollect. injection Hcollect as <-.
  destruct Hshape as (HB & HnB & Hi & (pfx & Hpfx) & Hwf & _ & _ & Hexp).
  cbn [StackBased.push StackBased.buffer StackBased.iStack] in HB, Hi, Hpfx.
  rewrite pre_all in Hexp by lia.
  assert (depth stack = 1) as Hdepth by lia.
  destruct stack as [|r [|r' stack]]; unfold depth in Hdepth; simpl in Hdepth; try lia.
  simpl in Hpfx, Hexp |- *. rewrite expand_singleton in Hexp.
  pose proof (proj1 (Forall_singleton _ _) Hwf) as Hr. clear Hwf.
  assert (header r = 257 - len data) as Hheader.
  { assert (get (set (StackBased.buffer s') (StackBased.iStack s') (Some (257 - len data)))
              (StackBased.iStack s') = Some (header r)) as Hget.
    { rewrite Hpfx. apply (f_equal len) in Hpfx.
      rewrite len_set, len_app, len_cons, len_nil, Hbuf in Hpfx.
      rewrite get_app_r by lia. replace (StackBased.iStack s' - len pfx) with 0 by lia.
      done. }
    rewrite get_set_eq in Hget by (rewrite Hbuf; lia).
    rewrite ToUint8_octet in Hget by lia. by injection Hget. }
  destruct r as [bytes|n' v]; simpl in Hr, Hheader, Hexp.
  - rewrite Hexp in Hheader. lia.
  - assert (n' = n) as -> by lia. unfold data in Hexp.
    destruct (Z.to_nat n) as [|m] eqn:Hm; [lia|]. simpl in Hexp. injection Hexp as -> _.
    reflexivity.
Qed.

(** * Further properties of the decoders and encoders *)

Lemma octets_doc_raw : octets doc_raw.
Proof. unfold octets, doc_raw. repeat (constructor; [lia|]). constructor. Qed.

Lemma octets_doc_packed : octets doc_packed.
Proof. unfold octets, doc_packed. repeat (constructor; [lia|]). constructor. Qed.

Lemma decodes_doc : decodes doc_packed doc_raw.
Proof.
  unfold doc_packed, doc_raw.
  apply (decodes_replicate 0xFE 0xAA [0x01; 0x80; 0x00] [0x80; 0x00]); [lia|].
  apply (decodes_literal 0x01 [0x80; 0x00] [] []); [lia|done|constructor].
Qed.

(** ** The decoder of part_000 *)

(** X1: [decompress] of part_000 (lines 394-459) throws a [PackBitsError]
    exactly on the streams in which a run is cut short. *)
Theorem stack_decoder_fails_iff_truncated packed :
  octets packed -> fails (StackBased.decompress packed) <-> truncated packed.
Proof.
  intros Ho. unfold fails. split.
  - intros [m Hm]. destruct (decodes_or_truncated packed Ho) as [[raw Hraw]|Ht]; [|done].
    rewrite (stack_decompress_decodes packed raw Ho Hraw) in Hm. discriminate.
  - apply stack_decompress_truncated.
Qed.

(** The equivalence on the packed example of the documentation. *)
Lemma stack_decoder_fails_iff_truncated_witness :
  octets doc_packed /\
  (fails (StackBased.decompress doc_packed) <-> truncated doc_packed).
Proof.
  split; [exact octets_doc_packed|].
  exact (stack_decoder_fails_iff_truncated doc_packed octets_doc_packed).
Defined.

(** X2: [decompress] of part_000 returns [raw] exactly when the stream is a
    complete sequence of literal runs, replicate runs and no-op headers that
    stands for [raw]. *)
Theorem stack_decoder_returns_iff_decodes packed raw :
  octets packed -> StackBased.decompress packed = Ret raw <-> decodes packed raw.
Proof.
  intros Ho. split; [by apply stack_decompress_sound|by apply stack_decompress_decodes].
Qed.

(** The equivalence on the example of the documentation. *)
Lemma stack_decoder_returns_iff_decodes_witness :
  octets doc_packed /\
  (StackBased.decompress doc_packed = Ret doc_raw <-> decodes doc_packed doc_raw).
Proof.
  split; [exact octets_doc_packed|].
  exact (stack_decoder_returns_iff_decodes doc_packed doc_raw octets_doc_packed).
Defined.

(** X3: where the first run that is cut short is a literal run, the error of
    [calculateSizeDecompressed] (part_000, lines 433-459) tells how many bytes
    are missing; where it is a replicate header at the end of the stream, the
    error asks for one more byte. *)
Theorem stack_decoder_reports_missing_bytes complete raw h rest h' :
  decodes complete raw -> 0 <= h < 128 -> len rest < h + 1 -> 128 < h' ->
  StackBased.decompress (complete ++ h :: rest)
  = Throw (PackBitsError (ExpectedMoreBytes (h + 1 - len rest))) /\
  StackBased.decompress (complete ++ [h']) = Throw (PackBitsError ExpectedOneMoreByte).
Proof.
  intros Hc Hh Hl Hh'. split.
  - by apply (stack_decompress_literal_short complete raw).
  - by apply (stack_decompress_replicate_short complete raw).
Qed.

(** The errors after the packed example of the documentation, for a literal
    header 0x7F with two of its 128 bytes and for the replicate header 0xFF. *)
Lemma stack_decoder_reports_missing_bytes_witness :
  decodes doc_packed doc_raw /\
  StackBased.decompress (doc_packed ++ 0x7F :: [1; 2])
  = Throw (PackBitsError (ExpectedMoreBytes (0x7F + 1 - len [1; 2]))) /\
  StackBased.decompress (doc_packed ++ [0xFF]) = Throw (PackBitsError ExpectedOneMoreByte).
Proof.
  split; [exact decodes_doc|].
  apply (stack_decoder_reports_missing_bytes doc_packed doc_raw 0x7F [1; 2] 0xFF decodes_doc);
    vm_compute; done.
Defined.

(** X4: two packed streams one after the other are decoded to the two results
    one after the other. *)
Theorem stack_decoder_concatenation a b ra rb :
  octets a -> octets b ->
  StackBased.decompress a = Ret ra -> StackBased.decompress b = Ret rb ->
  StackBased.decompress (a ++ b) = Ret (ra ++ rb).
Proof.
  intros Ha Hb Hra Hrb. apply stack_decompress_decodes.
  - by apply octets_app.
  - apply decodes_app; by apply stack_decompress_sound.
Qed.

(** Twice the packed example of the documentation. *)
Lemma stack_decoder_concatenation_witness :
  octets doc_packed /\ StackBased.decompress doc_packed = Ret doc_raw /\
  StackBased.decompress (doc_packed ++ doc_packed) = Ret (doc_raw ++ doc_raw).
Proof.
  assert (StackBased.decompress doc_packed = Ret doc_raw) as Hdoc by reflexivity.
  split; [exact octets_doc_packed|]. split; [exact Hdoc|].
  exact (stack_decoder_concatenation doc_packed doc_packed doc_raw doc_raw
           octets_doc_packed octets_doc_packed Hdoc Hdoc).
Defined.

(** X5: a no-op header 128 between two packed streams, in front of one or
    after one changes nothing in the result of [decompress] of part_000. *)
Theorem stack_decoder_ignores_noop a b ra rb :
  octets a -> octets b ->
  StackBased.decompress a = Ret ra -> StackBased.decompress b = Ret rb ->
  StackBased.decompress (a ++ 128 :: b) = Ret (ra ++ rb) /\
  StackBased.decompress (128 :: b) = Ret rb /\
  StackBased.decompress (a ++ [128]) = Ret ra.
Proof.
  intros Ha Hb Hra Hrb.
  apply stack_decompress_sound in Hra; [|done]. apply stack_decompress_sound in Hrb; [|done].
  assert (octets [128]) as H128 by (apply Forall_singleton; lia).
  split; [|split].
  - by apply stack_decompress_skips_noop.
  - apply stack_decompress_decodes; [by apply (octets_app [128] b)|by constructor].
  - apply stack_decompress_decodes; [by apply octets_app|].
    rewrite <- (app_nil_r ra). apply decodes_app; [done|]. repeat constructor.
Qed.

(** No-op headers around the packed example of the documentation. *)
Lemma stack_decoder_ignores_noop_witness :
  octets doc_packed /\ StackBased.decompress doc_packed = Ret doc_raw /\
  StackBased.decompress (doc_packed ++ 128 :: doc_packed) = Ret (doc_raw ++ doc_raw) /\
  StackBased.decompress (128 :: doc_packed) = Ret doc_raw /\
  StackBased.decompress (doc_packed ++ [128]) = Ret doc_raw.
Proof.
  assert (StackBased.decompress doc_packed = Ret doc_raw) as Hdoc by reflexivity.
  split; [exact octets_doc_packed|]. split; [exact Hdoc|].
  exact (stack_decoder_ignores_noop doc_packed doc_packed doc_raw doc_raw
           octets_doc_packed octets_doc_packed Hdoc Hdoc).
Defined.

(** ** The decoder of src/src/mod.ts and of the first module of part_000 *)

(** X6: [decompress] of src/src/mod.ts (lines 104-167) throws a
    [PackBitsError] exactly on the streams in which a run is cut short and on
    the complete streams whose last byte is a no-op header; on every other
    stream it returns what the stream stands for. *)
Theorem boundary_decoder_fails_iff packed :
  octets packed ->
  (fails (BoundaryOnly.decompress packed) <-> truncated packed \/ final_noop packed) /\
  (~ (truncated packed \/ final_noop packed) ->
   exists raw, BoundaryOnly.decompress packed = Ret raw /\ decodes packed raw) /\
  ((exists raw, BoundaryOnly.decompress packed = Ret raw /\ decodes packed raw) \/
   fails (BoundaryOnly.decompress packed)).
Proof.
  intros Ho.
  assert ((exists raw, BoundaryOnly.decompress packed = Ret raw /\ decodes packed raw) \/
          truncated packed \/ final_noop packed) as Hcases.
  { destruct (decodes_or_truncated packed Ho) as [[raw Hraw]|Ht]; [|by right; left].
    destruct (boundary_decompress_decodes packed raw Ho Hraw) as [Hf|Hret];
      [by right; right|left; eauto]. }
  split; [by apply boundary_decompress_fails_iff|]. split.
  - intros Hnot. by destruct Hcases as [Hret|Hbad].
  - destruct Hcases as [Hret|Hbad]; [by left|right].
    by apply (boundary_decompress_fails_iff packed Ho).
Qed.

(** The packed example of the documentation, on which the decoder returns. *)
Lemma boundary_decoder_fails_iff_witness :
  octets doc_packed /\
  (fails (BoundaryOnly.decompress doc_packed)
   <-> truncated doc_packed \/ final_noop doc_packed) /\
  (~ (truncated doc_packed \/ final_noop doc_packed) ->
   exists raw, BoundaryOnly.decompress doc_packed = Ret raw /\ decodes doc_packed raw) /\
  ((exists raw, BoundaryOnly.decompress doc_packed = Ret raw /\ decodes doc_packed raw) \/
   fails (BoundaryOnly.decompress doc_packed)).
Proof.
  split; [exact octets_doc_packed|].
  exact (boundary_decoder_fails_iff doc_packed octets_doc_packed).
Defined.

(** X7: when the stream of [decompress] of src/src/mod.ts ends with a byte
    that stands where a header is expected, whatever the byte, the error is
    `Unexpected end of compressed data`; when a literal run has some of its
    bytes but not all, the error is `literal run exceeds data length`. *)
Theorem boundary_decoder_errors complete raw h rest h' :
  decodes complete raw -> 0 <= h < 128 -> 1 <= len rest < h + 1 ->
  BoundaryOnly.decompress (complete ++ [h']) = Throw (PackBitsError UnexpectedEnd) /\
  BoundaryOnly.decompress (complete ++ h :: rest) = Throw (PackBitsError LiteralRunExceeds).
Proof.
  intros Hc Hh Hl. split.
  - by apply (boundary_decompress_last_byte complete raw).
  - by apply (boundary_decompress_literal_exceeds complete raw).
Qed.

(** The errors after the packed example of the documentation. *)
Lemma boundary_decoder_errors_witness :
  decodes doc_packed doc_raw /\
  BoundaryOnly.decompress (doc_packed ++ [0x7F]) = Throw (PackBitsError UnexpectedEnd) /\
  BoundaryOnly.decompress (doc_packed ++ 0x7F :: [1; 2])
  = Throw (PackBitsError LiteralRunExceeds).
Proof.
  split; [exact decodes_doc|].
  apply (boundary_decoder_errors doc_packed doc_raw 0x7F [1; 2] 0x7F decodes_doc);
    vm_compute; done.
Defined.

(** ** The two decoders together *)

(** X8: what [decompress] of src/src/mod.ts returns, [decompress] of part_000
    (lines 394-459) returns as well; the other way round they agree unless the
    stream ends in a no-op header. *)
Theorem decoders_agree packed raw :
  octets packed ->
  (BoundaryOnly.decompress packed = Ret raw -> StackBased.decompress packed = Ret raw) /\
  (StackBased.decompress packed = Ret raw ->
   BoundaryOnly.decompress packed = Ret raw \/ final_noop packed) /\
  (fails (StackBased.decompress packed) -> fails (BoundaryOnly.decompress packed)).
Proof.
  intros Ho. split; [|split].
  - intros Hret. apply stack_decompress_decodes; [done|].
    by apply (boundary_decompress_sound packed raw Ho).
  - intros Hret. apply stack_decompress_sound in Hret; [|done].
    destruct (boundary_decompress_decodes packed raw Ho Hret); auto.
  - intros Hfail. apply boundary_decompress_truncated.
    by apply (stack_decompress_fails_iff_truncated packed Ho).
Qed.

(** The two decoders on the packed example of the documentation. *)
Lemma decoders_agree_witness :
  octets doc_packed /\
  (BoundaryOnly.decompress doc_packed = Ret doc_raw ->
   StackBased.decompress doc_packed = Ret doc_raw) /\
  (StackBased.decompress doc_packed = Ret doc_raw ->
   BoundaryOnly.decompress doc_packed = Ret doc_raw \/ final_noop doc_packed) /\
  (fails (StackBased.decompress doc_packed) -> fails (BoundaryOnly.decompress doc_packed)).
Proof.
  split; [exact octets_doc_packed|].
  exact (decoders_agree doc_packed doc_raw octets_doc_packed).
Defined.

(** X9: the size that the first pass of either decoder computes is the exact
    length of the result. *)
Theorem size_pass_exact packed raw :
  octets packed ->
  (StackBased.decompress packed = Ret raw ->
   StackBased.calculateSizeDecompressed packed = Ret (len raw)) /\
  (BoundaryOnly.decompress packed = Ret raw ->
   BoundaryOnly.calculateDecompressedSize packed = Ret (len raw)).
Proof.
  intros Ho. split; intros Hret.
  - apply stack_size_decodes. by apply stack_decompress_sound.
  - destruct (boundary_decompress_sound packed raw Ho Hret) as [Hd Hnf].
    by destruct (boundary_size_decodes packed raw Hd).
Qed.

(** The sizes for the packed example of the documentation. *)
Lemma size_pass_exact_witness :
  octets doc_packed /\
  (StackBased.decompress doc_packed = Ret doc_raw ->
   StackBased.calculateSizeDecompressed doc_packed = Ret (len doc_raw)) /\
  (BoundaryOnly.decompress doc_packed = Ret doc_raw ->
   BoundaryOnly.calculateDecompressedSize doc_packed = Ret (len doc_raw)).
Proof.
  split; [exact octets_doc_packed|].
  exact (size_pass_exact doc_packed doc_raw octets_doc_packed).
Defined.

(** X10: the result of either decoder is at most 64 times as long as the
    packed stream. *)
Theorem decompress_at_most_64_times packed raw :
  octets packed ->
  StackBased.decompress packed = Ret raw \/ BoundaryOnly.decompress packed = Ret raw ->
  len raw <= 64 * len packed.
Proof.
  intros Ho [Hret|Hret]; apply decodes_len_bound.
  - by apply stack_decompress_sound.
  - by apply (boundary_decompress_sound packed raw Ho).
Qed.

(** The bound for the packed example of the documentation. *)
Lemma decompress_at_most_64_times_witness :
  octets doc_packed /\
  (StackBased.decompress doc_packed = Ret doc_raw
   \/ BoundaryOnly.decompress doc_packed = Ret doc_raw) /\
  len doc_raw <= 64 * len doc_packed.
Proof.
  assert (StackBased.decompress doc_packed = Ret doc_raw
          \/ BoundaryOnly.decompress doc_packed = Ret doc_raw) as Hdoc
    by (left; reflexivity).
  split; [exact octets_doc_packed|]. split; [exact Hdoc|].
  exact (decompress_at_most_64_times doc_packed doc_raw octets_doc_packed Hdoc).
Defined.

(** ** Encoders and decoders of different modules *)

(** X11: what one module packs, the decoder of another unpacks: the output of
    the encoders of src/src/mod.ts and of the first module of part_000 is
    decoded by [decompress] of part_000 (lines 394-431), and the output of
    [compress] of part_000 (lines 231-382) by [decompress] of src/src/mod.ts. *)
Theorem round_trip_across_modules x :
  octets x ->
  round_trips BoundaryOnly.compress StackBased.decompress x /\
  round_trips ContextAware.compress StackBased.decompress x /\
  round_trips (fun data => StackBased.compress data None) BoundaryOnly.decompress x.
Proof.
  intros Hx. unfold round_trips.
  destruct (boundary_compress_runs x Hx) as (rs1 & -> & Hwf1 & Hexp1 & _).
  destruct (context_compress_runs x Hx) as (rs2 & -> & Hwf2 & Hexp2 & _).
  destruct (stack_compress_runs x Hx) as (rs3 & -> & Hwf3 & Hexp3).
  run. rewrite !runs_round_trip, boundary_decompress_serialize by done.
  by rewrite Hexp1, Hexp2, Hexp3.
Qed.

(** The round trips of the example of the documentation. *)
Lemma round_trip_across_modules_witness :
  octets doc_raw /\
  round_trips BoundaryOnly.compress StackBased.decompress doc_raw /\
  round_trips ContextAware.compress StackBased.decompress doc_raw /\
  round_trips (fun data => StackBased.compress data None) BoundaryOnly.decompress doc_raw.
Proof.
  split; [exact octets_doc_raw|exact (round_trip_across_modules doc_raw octets_doc_raw)].
Defined.

(** ** The encoder of part_000 and its scratch buffer *)

(** X12: the output of [compress] of part_000 (lines 231-382) has at most
    [Math.ceil(1.5 * data.length)] bytes, with a scratch buffer of any
    sufficient length and without one. *)
Theorem stack_output_fits x buffer :
  octets x -> StackBased.ceil_1_5 (len x) <= len buffer ->
  (exists packed, StackBased.compress x (Some buffer) = Ret packed /\
     len packed <= StackBased.ceil_1_5 (len x)) /\
  (exists packed, StackBased.compress x None = Ret packed /\
     len packed <= StackBased.ceil_1_5 (len x)).
Proof.
  intros Hx Hroom.
  assert (forall b, StackBased.ceil_1_5 (len x) <= len b ->
            exists packed, StackBased.compress x (Some b) = Ret packed /\
              len packed <= StackBased.ceil_1_5 (len x)) as Hany.
  { intros b Hb. destruct (stack_compress_stack x b Hx Hb) as (stack & -> & Hwf & Hp & Hexp).
    eexists. split; [done|]. pose proof (stack_runs_fit stack Hwf Hp) as Hfit.
    unfold ceil_1_5_len in Hfit. by rewrite Hexp in Hfit. }
  split; [by apply Hany|]. rewrite stack_compress_none. apply Hany.
  rewrite len_alloc. pose proof (ceil_1_5_ge (len x) (len_nonneg x)). lia.
Qed.

(** The bound for the example of the documentation. *)
Lemma stack_output_fits_witness :
  octets doc_raw /\ StackBased.ceil_1_5 (len doc_raw) <= len doc_scratch /\
  (exists packed, StackBased.compress doc_raw (Some doc_scratch) = Ret packed /\
     len packed <= StackBased.ceil_1_5 (len doc_raw)) /\
  (exists packed, StackBased.compress doc_raw None = Ret packed /\
     len packed <= StackBased.ceil_1_5 (len doc_raw)).
Proof.
  assert (StackBased.ceil_1_5 (len doc_raw) <= len doc_scratch) as Hroom
    by (vm_compute; discriminate).
  split; [exact octets_doc_raw|]. split; [exact Hroom|].
  exact (stack_output_fits doc_raw doc_scratch octets_doc_raw Hroom).
Defined.

(** X13: in the output of [compress] of part_000 no two neighbouring runs are
    left that the encoder merges: two literal runs side by side hold 129
    bytes or more, and a replicate run of two bytes follows a literal run
    only if that run holds 127 bytes or more. *)
Theorem stack_runs_are_merged x :
  octets x ->
  exists rs, StackBased.compress x None = Ret (serialize rs) /\
    Forall wf_run rs /\ expand rs = x /\ adjacent_ok rs.
Proof.
  intros Hx. rewrite stack_compress_none.
  destruct (stack_compress_stack x (alloc (StackBased.ceil_1_5 (len x))) Hx)
    as (stack & -> & Hwf & Hp & Hexp).
  { rewrite len_alloc. pose proof (ceil_1_5_ge (len x) (len_nonneg x)). lia. }
  exists (rev stack). split; [done|]. split; [by apply Forall_rev|].
  split; [done|]. by apply pairs_ok_rev.
Qed.

(** The runs of the example of the documentation. *)
Lemma stack_runs_are_merged_witness :
  octets doc_raw /\
  exists rs, StackBased.compress doc_raw None = Ret (serialize rs) /\
    Forall wf_run rs /\ expand rs = doc_raw /\ adjacent_ok rs.
Proof.
  split; [exact octets_doc_raw|exact (stack_runs_are_merged doc_raw octets_doc_raw)].
Defined.

(** X14: a scratch buffer that is long enough changes nothing in what
    [compress] of part_000 returns, whatever its length and whatever it
    holds. *)
Theorem scratch_buffer_is_irrelevant x buffer :
  octets x -> StackBased.ceil_1_5 (len x) <= len buffer ->
  StackBased.compress x (Some buffer) = StackBased.compress x None.
Proof.
  intros Hx Hroom. rewrite stack_compress_none.
  apply stack_compress_any_buffer; [done|done|].
  rewrite len_alloc. pose proof (ceil_1_5_ge (len x) (len_nonneg x)). lia.
Qed.

(** The example of the documentation with a scratch buffer that is not
    zeroed. *)
Lemma scratch_buffer_is_irrelevant_witness :
  octets doc_raw /\ StackBased.ceil_1_5 (len doc_raw) <= len doc_scratch /\
  StackBased.compress doc_raw (Some doc_scratch) = StackBased.compress doc_raw None.
Proof.
  assert (StackBased.ceil_1_5 (len doc_raw) <= len doc_scratch) as Hroom
    by (vm_compute; discriminate).
  split; [exact octets_doc_raw|]. split; [exact Hroom|].
  exact (scratch_buffer_is_irrelevant doc_raw doc_scratch octets_doc_raw Hroom).
Defined.

(** ** The encoders on particular inputs *)

(** X15: the three encoders return the empty sequence on the empty input and
    the literal run [0x00, b] on a single byte [b]. *)
Theorem compress_short_input b :
  0 <= b < 256 ->
  (BoundaryOnly.compress [] = Ret [] /\ BoundaryOnly.compress [b] = Ret [0x00; b]) /\
  (ContextAware.compress [] = Ret [] /\ ContextAware.compress [b] = Ret [0x00; b]) /\
  (StackBased.compress [] None = Ret [] /\ StackBased.compress [b] None = Ret [0x00; b]).
Proof.
  intros Hb. assert (octets [b]) as Ho by by apply Forall_singleton.
  assert (len [b] <= 128) as Hlen by (rewrite len_cons, len_nil; lia).
  split; [split; [reflexivity|]|split; [split; [reflexivity|]|split; [reflexivity|]]].
  - destruct (boundary_compress_runs [b] Ho) as (rs & -> & _ & _ & Hrs).
    by rewrite (Hrs Hlen).
  - destruct (context_compress_runs [b] Ho) as (rs & -> & _ & _ & Hrs).
    by rewrite (Hrs Hlen).
  - unfold StackBased.compress. simpl.
    pose proof (write_two [] [0; 0] 0 0 b) as Hw.
    change (0 + 1) with 1 in Hw. rewrite !app_nil_l in Hw.
    change (alloc (StackBased.ceil_1_5 (len [b]))) with [0; 0].
    rewrite get_cons_0, Hw by (done || lia). reflexivity.
Qed.

(** The short inputs with the byte 0xAA. *)
Lemma compress_short_input_witness :
  0 <= 0xAA < 256 /\
  (BoundaryOnly.compress [] = Ret [] /\ BoundaryOnly.compress [0xAA] = Ret [0x00; 0xAA]) /\
  (ContextAware.compress [] = Ret [] /\ ContextAware.compress [0xAA] = Ret [0x00; 0xAA]) /\
  (StackBased.compress [] None = Ret [] /\
   StackBased.compress [0xAA] None = Ret [0x00; 0xAA]).
Proof. split; [lia|apply (compress_short_input 0xAA); lia]. Defined.

(** ** The two scanning encoders on inputs of at most 128 bytes *)

Lemma len_doc_raw : len doc_raw <= 128.
Proof. vm_compute. discriminate. Qed.

(** X16: on an input of at most 128 bytes [compress] of src/src/mod.ts makes
    a replicate run of every maximal repeat of two or more bytes and literal
    runs of the single bytes between repeats. *)
Theorem boundary_compress_exact x :
  octets x -> len x <= 128 ->
  BoundaryOnly.compress x = Ret (serialize (boundary_runs [] (groups x))).
Proof.
  intros Hx Hlen. destruct (boundary_compress_runs x Hx) as (rs & -> & _ & _ & Hrs).
  by rewrite (Hrs Hlen).
Qed.

(** The runs of the example of the documentation. *)
Lemma boundary_compress_exact_witness :
  octets doc_raw /\ len doc_raw <= 128 /\
  BoundaryOnly.compress doc_raw = Ret (serialize (boundary_runs [] (groups doc_raw))).
Proof.
  split; [exact octets_doc_raw|]. split; [exact len_doc_raw|].
  exact (boundary_compress_exact doc_raw octets_doc_raw len_doc_raw).
Defined.

(** X17: on an input of at most 128 bytes [compress] of the first module of
    part_000 (lines 32-103) makes a replicate run of every maximal repeat of
    three or more bytes and of a repeat of two where no literal run is open;
    a repeat of two after an open literal run and every single byte go to the
    literal run. *)
Theorem context_compress_exact x :
  octets x -> len x <= 128 ->
  ContextAware.compress x = Ret (serialize (context_runs [] (groups x))).
Proof.
  intros Hx Hlen. destruct (context_compress_runs x Hx) as (rs & -> & _ & _ & Hrs).
  by rewrite (Hrs Hlen).
Qed.

(** The runs of the example of the documentation. *)
Lemma context_compress_exact_witness :
  octets doc_raw /\ len doc_raw <= 128 /\
  ContextAware.compress doc_raw = Ret (serialize (context_runs [] (groups doc_raw))).
Proof.
  split; [exact octets_doc_raw|]. split; [exact len_doc_raw|].
  exact (context_compress_exact doc_raw octets_doc_raw len_doc_raw).
Defined.

Lemma octets_doc_distinct : octets doc_distinct.
Proof. unfold octets, doc_distinct. repeat (constructor; [lia|]). constructor. Qed.

Lemma no_repeat_doc_distinct : no_repeat doc_distinct.
Proof.
  intros i Hi Hlt. change (len doc_distinct) with 3 in Hlt.
  assert (i = 0 \/ i = 1) as [->| ->] by lia; vm_compute; discriminate.
Qed.

Lemma len_doc_distinct : 1 <= len doc_distinct <= 128.
Proof. vm_compute. split; discriminate. Qed.

(** X18: an input of 1 to 128 bytes in which no byte equals the next one is
    packed by all three encoders as one literal run: the header [len x - 1]
    and the input itself. *)
Theorem compress_without_repeats x :
  octets x -> no_repeat x -> 1 <= len x <= 128 ->
  BoundaryOnly.compress x = Ret ((len x - 1) :: x) /\
  ContextAware.compress x = Ret ((len x - 1) :: x) /\
  StackBased.compress x None = Ret ((len x - 1) :: x).
Proof.
  intros Hx Hn Hlen.
  assert (serialize [Literal x] = (len x - 1) :: x) as Hone
    by (unfold serialize; simpl; by rewrite app_nil_r).
  assert (flush x = [Literal x]) as Hflush
    by (destruct x; [rewrite len_nil in Hlen; lia|done]).
  split; [|split].
  - destruct (boundary_compress_runs x Hx) as (rs1 & -> & _ & _ & Hrs1).
    rewrite Hrs1, (groups_no_repeat x Hn) by lia.
    rewrite <- (app_nil_r (map _ x)), boundary_runs_singles. simpl.
    by rewrite Hflush, Hone.
  - destruct (context_compress_runs x Hx) as (rs2 & -> & _ & _ & Hrs2).
    rewrite Hrs2, (groups_no_repeat x Hn) by lia.
    rewrite <- (app_nil_r (map _ x)), context_runs_singles. simpl.
    by rewrite Hflush, Hone.
  - rewrite stack_compress_none.
    destruct (stack_compress_stack x (alloc (StackBased.ceil_1_5 (len x))) Hx)
      as (stack & -> & Hwf & Hp & Hexp).
    { rewrite len_alloc. pose proof (ceil_1_5_ge (len x) (len_nonneg x)). lia. }
    rewrite (runs_without_repeats (rev stack) x); try done.
    + by rewrite Hone.
    + by apply Forall_rev.
    + by apply pairs_ok_rev.
Qed.

(** Three bytes without a repeat. *)
Lemma compress_without_repeats_witness :
  octets doc_distinct /\ no_repeat doc_distinct /\ 1 <= len doc_distinct <= 128 /\
  BoundaryOnly.compress doc_distinct = Ret ((len doc_distinct - 1) :: doc_distinct) /\
  ContextAware.compress doc_distinct = Ret ((len doc_distinct - 1) :: doc_distinct) /\
  StackBased.compress doc_distinct None = Ret ((len doc_distinct - 1) :: doc_distinct).
Proof.
  split; [exact octets_doc_distinct|]. split; [exact no_repeat_doc_distinct|].
  split; [exact len_doc_distinct|].
  exact (compress_without_repeats doc_distinct octets_doc_distinct
           no_repeat_doc_distinct len_doc_distinct).
Defined.

(** X19: [n] copies of one byte, for [n] from 2 to 128, are packed by all
    three encoders as the single replicate run [257 - n, b]. *)
Theorem compress_one_repeat n b :
  0 <= b < 256 -> 2 <= n <= 128 ->
  BoundaryOnly.compress (replicate (Z.to_nat n) b) = Ret [257 - n; b] /\
  ContextAware.compress (replicate (Z.to_nat n) b) = Ret [257 - n; b] /\
  StackBased.compress (replicate (Z.to_nat n) b) None = Ret [257 - n; b].
Proof.
  intros Hb Hn. split; [|split; [|by apply stack_compress_constant]].
  all: assert (octets (replicate (Z.to_nat n) b)) as Ho by by apply octets_replicate.
  all: assert (len (replicate (Z.to_nat n) b) <= 128) as Hlen
         by (rewrite len_replicate; lia).
  - destruct (boundary_compress_runs _ Ho) as (rs1 & -> & _ & _ & Hrs1).
    rewrite (Hrs1 Hlen).
    replace (Z.to_nat n) with (S (Z.to_nat (n - 1))) by lia.
    rewrite groups_constant.
    replace (Z.of_nat (S (Z.to_nat (n - 1)))) with n by lia.
    simpl. by destruct (Z.eqb_spec n 1); [lia|].
  - destruct (context_compress_runs _ Ho) as (rs2 & -> & _ & _ & Hrs2).
    rewrite (Hrs2 Hlen).
    replace (Z.to_nat n) with (S (Z.to_nat (n - 1))) by lia.
    rewrite groups_constant.
    replace (Z.of_nat (S (Z.to_nat (n - 1)))) with n by lia.
    simpl. destruct (Z.eqb_spec n 1); [lia|]. by destruct (Z.eqb_spec n 2).
Qed.

(** Five copies of 0xAA. *)
Lemma compress_one_repeat_witness :
  0 <= 0xAA < 256 /\ 2 <= 5 <= 128 /\
  BoundaryOnly.compress (replicate (Z.to_nat 5) 0xAA) = Ret [257 - 5; 0xAA] /\
  ContextAware.compress (replicate (Z.to_nat 5) 0xAA) = Ret [257 - 5; 0xAA] /\
  StackBased.compress (replicate (Z.to_nat 5) 0xAA) None = Ret [257 - 5; 0xAA].
Proof.
  split; [lia|]. split; [lia|]. apply (compress_one_repeat 5 0xAA); lia.
Defined.

Lemma no_repeat_of_two_doc_raw : no_repeat_of_two doc_raw.
Proof. unfold no_repeat_of_two. vm_compute. repeat (constructor; [discriminate|]). constructor. Qed.

(** X20: on an input of at most 128 bytes without a maximal repeat of exactly
    two bytes the two scanning encoders return the same bytes. *)
Theorem scanning_encoders_agree x :
  octets x -> len x <= 128 -> no_repeat_of_two x ->
  ContextAware.compress x = BoundaryOnly.compress x.
Proof.
  intros Hx Hlen Hn.
  destruct (boundary_compress_runs x Hx) as (rs1 & -> & _ & _ & Hrs1).
  destruct (context_compress_runs x Hx) as (rs2 & -> & _ & _ & Hrs2).
  by rewrite (Hrs1 Hlen), (Hrs2 Hlen), context_runs_boundary.
Qed.

(** The example of the documentation has a repeat of three and two single
    bytes. *)
Lemma scanning_encoders_agree_witness :
  octets doc_raw /\ len doc_raw <= 128 /\ no_repeat_of_two doc_raw /\
  ContextAware.compress doc_raw = BoundaryOnly.compress doc_raw.
Proof.
  split; [exact octets_doc_raw|]. split; [exact len_doc_raw|].
  split; [exact no_repeat_of_two_doc_raw|].
  exact (scanning_encoders_agree doc_raw octets_doc_raw len_doc_raw no_repeat_of_two_doc_raw).
Defined.

(** ** How far the encoders can shrink an input *)

(** X21: no encoder packs an input into less than a 64th of its length. *)
Theorem compress_at_least_a_64th x :
  octets x ->
  (exists packed, BoundaryOnly.compress x = Ret packed /\ len x <= 64 * len packed) /\
  (exists packed, ContextAware.compress x = Ret packed /\ len x <= 64 * len packed) /\
  (exists packed, StackBased.compress x None = Ret packed /\ len x <= 64 * len packed).
Proof.
  intros Hx.
  assert (forall rs, Forall wf_run rs -> expand rs = x -> len x <= 64 * len (serialize rs))
    as Hbound.
  { intros rs Hwf <-. by apply decodes_len_bound, decodes_serialize. }
  destruct (boundary_compress_runs x Hx) as (rs1 & -> & Hwf1 & Hexp1 & _).
  destruct (context_compress_runs x Hx) as (rs2 & -> & Hwf2 & Hexp2 & _).
  destruct (stack_compress_runs x Hx) as (rs3 & -> & Hwf3 & Hexp3).
  split; [|split]; eexists; (split; [done|]); by apply Hbound.
Qed.

(** The bound for the example of the documentation. *)
Lemma compress_at_least_a_64th_witness :
  octets doc_raw /\
  (exists packed, BoundaryOnly.compress doc_raw = Ret packed /\
     len doc_raw <= 64 * len packed) /\
  (exists packed, ContextAware.compress doc_raw = Ret packed /\
     len doc_raw <= 64 * len packed) /\
  (exists packed, StackBased.compress doc_raw None = Ret packed /\
     len doc_raw <= 64 * len packed).
Proof.
  split; [exact octets_doc_raw|exact (compress_at_least_a_64th doc_raw octets_doc_raw)].
Defined.
